(** * Magnetometer telemetry firmware: parser, ring buffers and main loop

    A shallow embedding of [parser.c] and [main.c].  C [int]s are 16 bits
    wide on the target (XC16, dsPIC33) and are modelled as [Z] with the
    wrap-around written out where an operation can leave the range; [long]
    is 32 bits.  Characters are [Z] values (their codes).  Arrays are lists
    indexed with stdpp's lookup and insert. *)

From Stdlib Require Import ZArith List Lia Ascii String Bool DecimalString.
From stdpp Require Import base tactics list.
Import ListNotations.

Local Open Scope Z_scope.

(** ** Characters and C strings *)

Definition chr (a : ascii) : Z := Z.of_N (N_of_ascii a).

(** The characters of a string, without terminator. *)
Definition chars (s : string) : list Z := map chr (list_ascii_of_string s).

(** A string literal: its characters and the terminating NUL. *)
Definition lit (s : string) : list Z := chars s ++ [0].

(** Reading a [char] array as a C string: the characters before the first
    NUL.  An array without NUL would be read past its end; every array the
    program reads this way has one (see [ParserFacts.new_message_terminated]). *)
Fixpoint c_str (buf : list Z) : list Z :=
  match buf with
  | [] => []
  | c :: rest => if c =? 0 then [] else c :: c_str rest
  end.

(** [buf[i] = c].  A store outside the array is undefined in C; the model
    leaves the array as it is. *)
Definition store (buf : list Z) (i c : Z) : list Z :=
  if i <? 0 then buf else <[Z.to_nat i := c]> buf.

(** [buf[i]], 0 outside the array. *)
Definition load (buf : list Z) (i : Z) : Z :=
  if i <? 0 then 0 else default 0 (buf !! Z.to_nat i).

(** ** 16-bit [int] *)

Definition INT_MIN : Z := -32768.
Definition INT_MAX : Z := 32767.

(** Two's complement wrap-around into the range of [int]. *)
Definition wrap_int (z : Z) : Z := (z + 32768) mod 65536 - 32768.

Definition in_int (z : Z) : Prop := INT_MIN <= z <= INT_MAX.

(** ** parser.c *)

Module Parser.

(** Modelled from the spec: [parser.h] is not among the sources.  The three
    states of the machine (AwaitStart, ReadType, ReadPayload) under the
    names the code uses. *)
Inductive pstate := STATE_DOLLAR | STATE_TYPE | STATE_PAYLOAD.

(** Modelled from the spec: the two results of [parse_byte]. *)
Inductive result := NO_MESSAGE | NEW_MESSAGE.

(** Modelled from the spec: a type token of at most 6 characters and a
    payload of at most 100, each followed by its NUL. *)
Definition MSG_TYPE_LEN : nat := 7.
Definition MSG_PAYLOAD_LEN : nat := 101.

Record parser_state := mk_parser_state {
  state : pstate;
  msg_type : list Z;
  msg_payload : list Z;
  index_type : Z;
  index_payload : Z
}.

(** A store into one of the two arrays of the parser. *)
Inductive write :=
| WriteType (i c : Z)
| WritePayload (i c : Z).

(** The state together with the stores performed so far. *)
Definition cfg : Type := parser_state * list write.

Definition set_state (s : pstate) (c : cfg) : cfg :=
  let ps := fst c in
  (mk_parser_state s (msg_type ps) (msg_payload ps) (index_type ps) (index_payload ps), snd c).

Definition set_index_type (i : Z) (c : cfg) : cfg :=
  let ps := fst c in
  (mk_parser_state (state ps) (msg_type ps) (msg_payload ps) i (index_payload ps), snd c).

Definition set_index_payload (i : Z) (c : cfg) : cfg :=
  let ps := fst c in
  (mk_parser_state (state ps) (msg_type ps) (msg_payload ps) (index_type ps) i, snd c).

Definition store_msg_type (i ch : Z) (c : cfg) : cfg :=
  let ps := fst c in
  (mk_parser_state (state ps) (store (msg_type ps) i ch) (msg_payload ps)
     (index_type ps) (index_payload ps),
   snd c ++ [WriteType i ch]).

Definition store_msg_payload (i ch : Z) (c : cfg) : cfg :=
  let ps := fst c in
  (mk_parser_state (state ps) (msg_type ps) (store (msg_payload ps) i ch)
     (index_type ps) (index_payload ps),
   snd c ++ [WritePayload i ch]).

(** [parse_byte], statement by statement.  The two increments are exact:
    they run below the tests [== 6] and [== 100]. *)
Definition parse_byte_cfg (c : cfg) (byte : Z) : cfg * result :=
  match state (fst c) with
  | STATE_DOLLAR =>
      if byte =? chr "$" then
        let c := set_state STATE_TYPE c in
        let c := set_index_type 0 c in
        (c, NO_MESSAGE)
      else (c, NO_MESSAGE)
  | STATE_TYPE =>
      if byte =? chr "," then
        let c := set_state STATE_PAYLOAD c in
        let c := store_msg_type (index_type (fst c)) 0 c in
        let c := set_index_payload 0 c in
        (c, NO_MESSAGE)
      else if index_type (fst c) =? 6 then
        let c := set_state STATE_DOLLAR c in
        let c := set_index_type 0 c in
        (c, NO_MESSAGE)
      else if byte =? chr "*" then
        let c := set_state STATE_DOLLAR c in
        let c := store_msg_type (index_type (fst c)) 0 c in
        let c := store_msg_payload 0 0 c in
        (c, NEW_MESSAGE)
      else
        let c := store_msg_type (index_type (fst c)) byte c in
        let c := set_index_type (index_type (fst c) + 1) c in
        (c, NO_MESSAGE)
  | STATE_PAYLOAD =>
      if byte =? chr "*" then
        let c := set_state STATE_DOLLAR c in
        let c := store_msg_payload (index_payload (fst c)) 0 c in
        (c, NEW_MESSAGE)
      else if index_payload (fst c) =? 100 then
        let c := set_state STATE_DOLLAR c in
        let c := set_index_payload 0 c in
        (c, NO_MESSAGE)
      else
        let c := store_msg_payload (index_payload (fst c)) byte c in
        let c := set_index_payload (index_payload (fst c) + 1) c in
        (c, NO_MESSAGE)
  end.

Definition parse_byte (ps : parser_state) (byte : Z) : parser_state * result :=
  let r := parse_byte_cfg (ps, []) byte in (fst (fst r), snd r).

(** The stores one call performs, in order. *)
Definition parse_byte_writes (ps : parser_state) (byte : Z) : list write :=
  snd (fst (parse_byte_cfg (ps, []) byte)).

(** [parser_state pstate = {.state = STATE_DOLLAR}]: everything else zero. *)
Definition pstate_init : parser_state :=
  mk_parser_state STATE_DOLLAR (repeat 0 MSG_TYPE_LEN) (repeat 0 MSG_PAYLOAD_LEN) 0 0.

(** What a caller reads out of the state on [NEW_MESSAGE]. *)
Definition message (ps : parser_state) : list Z * list Z :=
  (c_str (msg_type ps), c_str (msg_payload ps)).

(** Feeding bytes one at a time; the messages are read out at each
    [NEW_MESSAGE], as the main loop does. *)
Fixpoint feed (ps : parser_state) (bytes : list Z) : parser_state * list (list Z * list Z) :=
  match bytes with
  | [] => (ps, [])
  | b :: rest =>
      let '(ps1, r) := parse_byte ps b in
      let '(ps2, msgs) := feed ps1 rest in
      (ps2, match r with
            | NEW_MESSAGE => message ps1 :: msgs
            | NO_MESSAGE => msgs
            end)
  end.

(** The two shapes of a frame: [$T,P*] and [$T*]. *)
Definition frame (T P : list Z) : list Z :=
  chr "$" :: T ++ chr "," :: P ++ [chr "*"].

Definition frame_nopayload (T : list Z) : list Z :=
  chr "$" :: T ++ [chr "*"].

(** A character that can stand in a type token. *)
Definition token_char (c : Z) : Prop := c <> chr "," /\ c <> chr "*".

(** A character that can stand in a payload. *)
Definition payload_char (c : Z) : Prop := c <> chr "*".

(** The arrays have the sizes of their declarations. *)
Definition sized (ps : parser_state) : Prop :=
  length (msg_type ps) = MSG_TYPE_LEN /\ length (msg_payload ps) = MSG_PAYLOAD_LEN.

(** What holds of the parser state all along a run: the arrays keep their
    sizes, the indices stay inside them, and while a payload is read the
    type array holds its NUL. *)
Definition inv (ps : parser_state) : Prop :=
  sized ps /\ 0 <= index_type ps <= 6 /\ 0 <= index_payload ps <= 100 /\
  (state ps = STATE_PAYLOAD -> In 0 (msg_type ps)).

(** Whether a store stays inside the array it goes to. *)
Definition write_in_bounds (wr : write) : Prop :=
  match wr with
  | WriteType i _ => i <= 6
  | WritePayload i _ => i <= 100
  end.

(** The parser after the bytes "$ABCDE". *)
Definition pstate_ABCDE : parser_state := fst (feed pstate_init (chars "$ABCDE")).

(** [extract_integer]: the loop over the digits.  The list is the array
    from [str + i] on; running off its end stands for reading past the
    array, which ends the loop like the NUL every string read here has. *)
Fixpoint extract_digits (str : list Z) (number : Z) : Z :=
  match str with
  | [] => number
  | c :: rest =>
      if (c =? chr ",") || (c =? 0) then number
      else
        let number := wrap_int (number * 10) in
        let number := wrap_int (number + (c - chr "0")) in
        extract_digits rest number
  end.

Definition extract_integer (str : list Z) : Z :=
  if load str 0 =? chr "-" then wrap_int (-1 * extract_digits (drop 1 str) 0)
  else if load str 0 =? chr "+" then wrap_int (1 * extract_digits (drop 1 str) 0)
  else wrap_int (1 * extract_digits str 0).

(** The reading of a string as a signed decimal number that the claim on
    [extract_integer] speaks of: a sign, and the value of the digits. *)
Inductive sign := NoSign | Plus | Minus.

Definition sign_chars (s : sign) : list Z :=
  match s with
  | NoSign => []
  | Plus => [chr "+"]
  | Minus => [chr "-"]
  end.

Definition sign_value (s : sign) : Z :=
  match s with
  | Minus => -1
  | _ => 1
  end.

Definition is_digit (c : Z) : Prop := chr "0" <= c <= chr "9".

(** The value of the digits [ds] read behind the value [acc]. *)
Definition value_from (acc : Z) (ds : list Z) : Z :=
  fold_left (fun a d => a * 10 + (d - chr "0")) ds acc.

Definition decimal_value (ds : list Z) : Z := value_from 0 ds.

(** What may follow the digits: the end of the string or a comma. *)
Definition terminated (rest : list Z) : Prop :=
  match rest with
  | [] => True
  | c :: _ => c = chr "," \/ c = 0
  end.

(** [next_value]: the [while] loop, over the array from [msg + i] on; the
    end of the list stands for reading past the array. *)
Fixpoint skip_value (str : list Z) (i : Z) : Z :=
  match str with
  | [] => i
  | c :: rest =>
      if negb (c =? chr ",") && negb (c =? 0) then skip_value rest (i + 1) else i
  end.

(** [next_value(msg, i)], for an index [i] inside the string. *)
Definition next_value (msg : list Z) (i : Z) : Z :=
  let i := skip_value (drop (Z.to_nat i) msg) i in
  if load msg i =? chr "," then i + 1 else i.

(** [n] calls of [next_value] in a row, from index 0. *)
Fixpoint nth_value (msg : list Z) (n : nat) : Z :=
  match n with
  | O => 0
  | S k => next_value msg (nth_value msg k)
  end.

(** A character that can stand in a field of a comma-separated string. *)
Definition field_char (c : Z) : Prop := c <> chr "," /\ c <> 0.

(** Fields joined by commas. *)
Fixpoint join_fields (fields : list (list Z)) : list Z :=
  match fields with
  | [] => []
  | [f] => f
  | f :: rest => f ++ chr "," :: join_fields rest
  end.

(** A frame on the wire, in one of its two shapes. *)
Inductive wire_frame :=
| WithPayload (T P : list Z)
| NoPayload (T : list Z).

Definition frame_bytes (f : wire_frame) : list Z :=
  match f with
  | WithPayload T P => frame T P
  | NoPayload T => frame_nopayload T
  end.

Definition frame_message (f : wire_frame) : list Z * list Z :=
  match f with
  | WithPayload T P => (T, P)
  | NoPayload T => (T, [])
  end.

(** The frames the parser takes: a type of at most 6 characters before a
    comma, of at most 5 before a ['*']; a payload of at most 100. *)
Definition accepted (f : wire_frame) : Prop :=
  match f with
  | WithPayload T P =>
      Forall token_char T /\ Forall (fun c => c <> 0) T /\ (length T <= 6)%nat /\
      Forall payload_char P /\ Forall (fun c => c <> 0) P /\ (length P <= 100)%nat
  | NoPayload T =>
      Forall token_char T /\ Forall (fun c => c <> 0) T /\ (length T <= 5)%nat
  end.

(** Bytes between frames: anything but a start. *)
Definition noise (bytes : list Z) : Prop := Forall (fun c => c <> chr "$") bytes.

(** Frames on the wire, each behind some noise, and noise at the end. *)
Fixpoint stream (items : list (list Z * wire_frame)) (tail : list Z) : list Z :=
  match items with
  | [] => tail
  | (before, f) :: rest => before ++ frame_bytes f ++ stream rest tail
  end.

(** What may follow the last field: the end of the string. *)
Definition ended (tail : list Z) : Prop :=
  match tail with
  | [] => True
  | c :: _ => c = 0
  end.

(** Characters read without a sign in front: not starting with one. *)
Definition unsigned_start (cs : list Z) : Prop :=
  match cs with
  | [] => True
  | c :: _ => c <> chr "-" /\ c <> chr "+"
  end.

(** The invariant [inv], and the NUL of the type at its index while the
    payload is read. *)
Definition synced (ps : parser_state) : Prop :=
  inv ps /\ (state ps = STATE_PAYLOAD -> load (msg_type ps) (index_type ps) = 0).

(** A store at an index of the array it goes to, from 0 on. *)
Definition write_inside (wr : write) : Prop :=
  match wr with
  | WriteType i _ => 0 <= i < Z.of_nat MSG_TYPE_LEN
  | WritePayload i _ => 0 <= i < Z.of_nat MSG_PAYLOAD_LEN
  end.

End Parser.

(** ** The ring buffers of main.c *)

Module Ring.

Definition INPUT_BUFF_LEN : Z := 10.
Definition OUTPUT_BUFF_LEN : Z := 48.

(** [struct circular_buffer], with the fields [main.c] uses. *)
Record circular_buffer := mk_circular_buffer {
  len : Z;
  buff : list Z;
  read : Z;
  write : Z
}.

(** [= { .len = ..., .buff = ... }]: the indices start at zero. *)
Definition UART_input_buff_init : circular_buffer :=
  mk_circular_buffer INPUT_BUFF_LEN (repeat 0 (Z.to_nat INPUT_BUFF_LEN)) 0 0.

Definition UART_output_buff_init : circular_buffer :=
  mk_circular_buffer OUTPUT_BUFF_LEN (repeat 0 (Z.to_nat OUTPUT_BUFF_LEN)) 0 0.

(** The body of the loop of [_U1RXInterrupt] for one received character:
    the character is stored unless the advanced write index would meet the
    read index.  The boolean tells which branch ran. *)
Definition try_push (n : Z) (read_char : Z) (b : circular_buffer) : bool * circular_buffer :=
  let new_write_index := Z.rem (write b + 1) n in
  if negb (new_write_index =? read b) then
    (true, mk_circular_buffer (len b) (store (buff b) (write b) read_char) (read b) new_write_index)
  else (false, b).

(** [_U1RXInterrupt], for the characters the receiver holds. *)
Definition _U1RXInterrupt (received : list Z) (b : circular_buffer) : circular_buffer :=
  fold_left (fun b read_char => snd (try_push INPUT_BUFF_LEN read_char b)) received b.

(** Taking one character out, as both consumers do: the main loop on the
    input buffer, [_U1TXInterrupt] on the output buffer. *)
Definition try_pop (n : Z) (b : circular_buffer) : option (Z * circular_buffer) :=
  if negb (read b =? write b) then
    Some (load (buff b) (read b),
          mk_circular_buffer (len b) (buff b) (Z.rem (read b + 1) n) (write b))
  else None.

(** Pushing several characters in turn, with the outcome of each push. *)
Fixpoint push_all (n : Z) (cs : list Z) (b : circular_buffer) : list bool * circular_buffer :=
  match cs with
  | [] => ([], b)
  | c :: rest =>
      let '(ok, b1) := try_push n c b in
      let '(oks, b2) := push_all n rest b1 in
      (ok :: oks, b2)
  end.

(** Modelled from the spec: [print_to_buff] lives in the UART module, which
    is not among the sources.  It pushes each character of the string into
    the ring buffer; a character that finds the buffer full is dropped. *)
Fixpoint print_to_buff (str : list Z) (b : circular_buffer) : circular_buffer :=
  match str with
  | [] => b
  | c :: rest =>
      if c =? 0 then b else print_to_buff rest (snd (try_push (len b) c b))
  end.

(** The characters waiting in the buffer, oldest first. *)
Fixpoint pending (fuel : nat) (n : Z) (b : circular_buffer) : list Z :=
  match fuel with
  | O => []
  | S f =>
      match try_pop n b with
      | Some (c, b1) => c :: pending f n b1
      | None => []
      end
  end.

(** Both indices inside the array of [n] places. *)
Definition valid (n : Z) (b : circular_buffer) : Prop :=
  0 <= read b < n /\ 0 <= write b < n.

(** How many characters wait in the buffer. *)
Definition used (n : Z) (b : circular_buffer) : Z := (write b - read b) mod n.

(** The characters waiting in a buffer of [len b] places. *)
Definition contents (b : circular_buffer) : list Z :=
  pending (Z.to_nat (len b)) (len b) b.

(** Room for [k] more characters in a buffer of [len b] places. *)
Definition has_room (k : Z) (b : circular_buffer) : Prop :=
  1 < len b /\ valid (len b) b /\ Z.of_nat (length (buff b)) = len b /\
  used (len b) b + k <= len b - 1.

(** The characters waiting in a buffer used with [n] places. *)
Definition waiting (n : Z) (b : circular_buffer) : list Z := pending (Z.to_nat n) n b.

(** How many more characters a buffer used with [n] places takes. *)
Definition free (n : Z) (b : circular_buffer) : Z := n - 1 - used n b.

(** The loop of [_U1TXInterrupt].  [room] is the number of characters the
    transmitter takes before its flag [UTXBF] reads full; the result is the
    characters written to [U1TXREG], in order, and the buffer. *)
Fixpoint tx_loop (room : nat) (b : circular_buffer) : list Z * circular_buffer :=
  match room with
  | O => ([], b)
  | S room' =>
      if negb (read b =? write b) then
        let c := load (buff b) (read b) in
        let b := mk_circular_buffer (len b) (buff b)
                   (Z.rem (read b + 1) OUTPUT_BUFF_LEN) (write b) in
        let '(sent, b) := tx_loop room' b in
        (c :: sent, b)
      else ([], b)
  end.

(** [_U1TXInterrupt]: whether the manual trigger is set (the buffer was
    empty on entry), the characters sent, and the buffer. *)
Definition _U1TXInterrupt (room : nat) (b : circular_buffer)
  : bool * list Z * circular_buffer :=
  (read b =? write b, fst (tx_loop room b), snd (tx_loop room b)).

End Ring.

(** ** main.c *)

Module Main.
Import Parser Ring.

Definition CLOCK_LD_TOGGLE : Z := 50.
Definition CLOCK_ACQUIRE_MAG : Z := 4.
Definition CLOCK_YAW_PRINT : Z := 20.
Definition N_MAG_READINGS : Z := 5.
Definition main_hz : Z := 100.

(** Two's complement wrap-around into the range of [long] (32 bits). *)
Definition wrap_long (v : Z) : Z := (v + 2147483648) mod 4294967296 - 2147483648.

Record MagReading := mk_MagReading { x : Z; y : Z; z : Z }.

Record MagReadings := mk_MagReadings {
  w : Z;
  readings : list MagReading
}.

Definition zero_reading : MagReading := mk_MagReading 0 0 0.

(** [m.readings[i]]; the zero reading outside the array. *)
Definition get_reading (m : MagReadings) (i : Z) : MagReading :=
  if i <? 0 then zero_reading else default zero_reading (readings m !! Z.to_nat i).

(** [m.readings[i] = r]; a store outside the array is undefined in C and
    leaves the model's array as it is. *)
Definition set_reading (m : MagReadings) (i : Z) (r : MagReading) : MagReadings :=
  mk_MagReadings (w m) (if i <? 0 then readings m else <[Z.to_nat i := r]> (readings m)).

Definition add_reading (s r : MagReading) : MagReading :=
  mk_MagReading (wrap_long (x s + x r)) (wrap_long (y s + y r)) (wrap_long (z s + z r)).

(** The summing [for] loop of the acquisition, from index [i] on. *)
Fixpoint sum_loop (fuel : nat) (m : MagReadings) (i : Z) (sum_reading : MagReading)
  : option MagReading :=
  if negb (i =? Z.rem (w m + 1) N_MAG_READINGS) then
    match fuel with
    | O => None
    | S f =>
        sum_loop f m (Z.rem (i + 1) N_MAG_READINGS) (add_reading sum_reading (get_reading m i))
    end
  else Some sum_reading.

(** Lines 195 to 212: store the sample, advance the cursor, sum, divide.
    The result is the new window and the new average. *)
Definition acquire (m : MagReadings) (sample : MagReading) : option (MagReadings * MagReading) :=
  let m := set_reading m (w m) sample in
  let m := mk_MagReadings (Z.rem (w m + 1) N_MAG_READINGS) (readings m) in
  match sum_loop (Z.to_nat N_MAG_READINGS) m (w m) zero_reading with
  | None => None
  | Some sum_reading =>
      Some (m, mk_MagReading (Z.quot (x sum_reading) N_MAG_READINGS)
                             (Z.quot (y sum_reading) N_MAG_READINGS)
                             (Z.quot (z sum_reading) N_MAG_READINGS))
  end.

(** What the claim of the average asks for: the sum of all the slots of the
    window, divided by their number, truncating. *)
Definition window_average (m : MagReadings) : MagReading :=
  let total := fold_left add_reading (readings m) zero_reading in
  mk_MagReading (Z.quot (x total) N_MAG_READINGS)
                (Z.quot (y total) N_MAG_READINGS)
                (Z.quot (z total) N_MAG_READINGS).

Definition valid_rates_values : list Z := [0; 1; 2; 4; 5; 10].

(** The loop of [is_valid_rate] over the table. *)
Fixpoint is_valid_rate_loop (values : list Z) (rate : Z) : Z :=
  match values with
  | [] => 0
  | v :: rest => if v =? rate then 1 else is_valid_rate_loop rest rate
  end.

Definition is_valid_rate (rate : Z) : Z := is_valid_rate_loop valid_rates_values rate.

(** [strcmp]: zero when the two strings agree up to and including their
    NUL, else the difference at the first place where they differ (only its
    being zero is used).  The end of a list stands for a NUL. *)
Fixpoint strcmp (a b : list Z) : Z :=
  match a with
  | [] => 0 - hd 0 b
  | c :: a' =>
      if c =? hd 0 b then (if c =? 0 then 0 else strcmp a' (tl b))
      else c - hd 0 b
  end.

(** [%d] of [sprintf]. *)
Definition fmt_d (v : Z) : list Z := chars (NilZero.string_of_int (Z.to_int v)).

(** [sprintf(output_str, "$MAG,%d,%d,%d*", (int)x, (int)y, (int)z)]; the
    casts from [long] wrap.  The result is the string as [sprintf] forms
    it; the 20 characters of [output_str] are not modelled. *)
Definition sprintf_mag (a : MagReading) : list Z :=
  chars "$MAG," ++ fmt_d (wrap_int (x a)) ++ chars "," ++ fmt_d (wrap_int (y a))
    ++ chars "," ++ fmt_d (wrap_int (z a)) ++ lit "*".

(** [sprintf(output_str, "$YAW,%d*", yaw_deg)]. *)
Definition sprintf_yaw (yaw_deg : Z) : list Z :=
  chars "$YAW," ++ fmt_d yaw_deg ++ lit "*".

(** The variables of [main] and the two global buffers. *)
Record main_state := mk_main_state {
  print_mag_rate : Z;
  mag_readings : MagReadings;
  LD2_toggle_counter : Z;
  acquire_mag_counter : Z;
  print_mag_counter : Z;
  print_yaw_counter : Z;
  avg_reading : MagReading;
  yaw_deg : Z;
  pstate : parser_state;
  UART_input_buff : circular_buffer;
  UART_output_buff : circular_buffer;
  LATG9 : bool
}.

Definition set_print_mag_rate v s :=
  mk_main_state v (mag_readings s) (LD2_toggle_counter s) (acquire_mag_counter s)
    (print_mag_counter s) (print_yaw_counter s) (avg_reading s) (yaw_deg s) (pstate s)
    (UART_input_buff s) (UART_output_buff s) (LATG9 s).

Definition set_LD2 v led s :=
  mk_main_state (print_mag_rate s) (mag_readings s) v (acquire_mag_counter s)
    (print_mag_counter s) (print_yaw_counter s) (avg_reading s) (yaw_deg s) (pstate s)
    (UART_input_buff s) (UART_output_buff s) led.

Definition set_acquire_mag_counter v s :=
  mk_main_state (print_mag_rate s) (mag_readings s) (LD2_toggle_counter s) v
    (print_mag_counter s) (print_yaw_counter s) (avg_reading s) (yaw_deg s) (pstate s)
    (UART_input_buff s) (UART_output_buff s) (LATG9 s).

Definition set_acquired m avg yaw s :=
  mk_main_state (print_mag_rate s) m (LD2_toggle_counter s) (acquire_mag_counter s)
    (print_mag_counter s) (print_yaw_counter s) avg yaw (pstate s)
    (UART_input_buff s) (UART_output_buff s) (LATG9 s).

Definition set_print_mag_counter v s :=
  mk_main_state (print_mag_rate s) (mag_readings s) (LD2_toggle_counter s) (acquire_mag_counter s)
    v (print_yaw_counter s) (avg_reading s) (yaw_deg s) (pstate s)
    (UART_input_buff s) (UART_output_buff s) (LATG9 s).

Definition set_print_yaw_counter v s :=
  mk_main_state (print_mag_rate s) (mag_readings s) (LD2_toggle_counter s) (acquire_mag_counter s)
    (print_mag_counter s) v (avg_reading s) (yaw_deg s) (pstate s)
    (UART_input_buff s) (UART_output_buff s) (LATG9 s).

Definition set_pstate v s :=
  mk_main_state (print_mag_rate s) (mag_readings s) (LD2_toggle_counter s) (acquire_mag_counter s)
    (print_mag_counter s) (print_yaw_counter s) (avg_reading s) (yaw_deg s) v
    (UART_input_buff s) (UART_output_buff s) (LATG9 s).

Definition set_UART_input_buff v s :=
  mk_main_state (print_mag_rate s) (mag_readings s) (LD2_toggle_counter s) (acquire_mag_counter s)
    (print_mag_counter s) (print_yaw_counter s) (avg_reading s) (yaw_deg s) (pstate s)
    v (UART_output_buff s) (LATG9 s).

Definition set_UART_output_buff v s :=
  mk_main_state (print_mag_rate s) (mag_readings s) (LD2_toggle_counter s) (acquire_mag_counter s)
    (print_mag_counter s) (print_yaw_counter s) (avg_reading s) (yaw_deg s) (pstate s)
    (UART_input_buff s) v (LATG9 s).

(** The state of the loop and the strings handed to [print_to_buff] so far
    in the running tick. *)
Definition mcfg : Type := main_state * list (list Z).

(** [print_to_buff(str, &UART_output_buff)]. *)
Definition print (str : list Z) (c : mcfg) : mcfg :=
  (set_UART_output_buff (print_to_buff str (UART_output_buff (fst c))) (fst c),
   snd c ++ [str]).

(** Lines 231 to 240: one byte through the parser, and the reaction to a
    completed frame. *)
Definition handle_byte (byte : Z) (c : mcfg) : mcfg :=
  let '(ps, status) := parse_byte (pstate (fst c)) byte in
  let c := (set_pstate ps (fst c), snd c) in
  match status with
  | NEW_MESSAGE =>
      if strcmp (msg_type ps) (lit "RATE") =? 0 then
        let rate := extract_integer (msg_payload ps) in
        if negb (is_valid_rate rate =? 0) then (set_print_mag_rate rate (fst c), snd c)
        else print (lit "$ERR,1*") c
      else c
  | NO_MESSAGE => c
  end.

(** The loop of lines 229 to 242 over the input buffer. *)
Fixpoint drain (fuel : nat) (c : mcfg) : option mcfg :=
  let ib := UART_input_buff (fst c) in
  if negb (read ib =? write ib) then
    match fuel with
    | O => None
    | S f =>
        let c := handle_byte (load (buff ib) (read ib)) c in
        let ib := UART_input_buff (fst c) in
        let ib := mk_circular_buffer (len ib) (buff ib)
                    (Z.rem (read ib + 1) INPUT_BUFF_LEN) (write ib) in
        drain f (set_UART_input_buff ib (fst c), snd c)
    end
  else Some c.

Definition led_task (c : mcfg) : mcfg :=
  let s := fst c in
  let n := LD2_toggle_counter s + 1 in
  if n >=? CLOCK_LD_TOGGLE then (set_LD2 0 (negb (LATG9 s)) s, snd c)
  else (set_LD2 n (LATG9 s) s, snd c).

Definition mag_task (c : mcfg) : mcfg :=
  let s := fst c in
  if negb (print_mag_rate s =? 0) then
    let n := print_mag_counter s + 1 in
    if n >=? Z.quot main_hz (print_mag_rate s) then
      print (sprintf_mag (avg_reading s)) (set_print_mag_counter 0 s, snd c)
    else (set_print_mag_counter n s, snd c)
  else c.

Definition yaw_task (c : mcfg) : mcfg :=
  let s := fst c in
  let n := print_yaw_counter s + 1 in
  if n >=? CLOCK_YAW_PRINT then
    print (sprintf_yaw (yaw_deg s)) (set_print_yaw_counter 0 s, snd c)
  else (set_print_yaw_counter n s, snd c).

Section Loop.

(** [(int) (180.0 * atan2((float)y, (float)x) / M_PI)], a floating point
    computation, as a function of [y] and [x]. *)
Variable heading : Z -> Z -> Z.

(** Lines 192 to 215; [sample] is what the three calls of [read_mag_axis]
    return. *)
Definition acquire_task (sample : MagReading) (c : mcfg) : option mcfg :=
  let s := fst c in
  let n := acquire_mag_counter s + 1 in
  if n >=? CLOCK_ACQUIRE_MAG then
    match acquire (mag_readings s) sample with
    | None => None
    | Some (m, avg) =>
        Some (set_acquired m avg (heading (y avg) (x avg)) (set_acquire_mag_counter 0 s), snd c)
    end
  else Some (set_acquire_mag_counter n s, snd c).

(** One pass through the body of [while (1)]: the new state and the strings
    handed to [print_to_buff], in order. *)
Definition tick (s : main_state) (sample : MagReading) : option mcfg :=
  let c := led_task (s, []) in
  match acquire_task sample c with
  | None => None
  | Some c =>
      let c := mag_task c in
      let c := yaw_task c in
      drain (Z.to_nat INPUT_BUFF_LEN) c
  end.

(** Successive ticks; before each one the receive interrupt stores the
    characters that arrived.  The result lists the strings printed tick by
    tick. *)
Fixpoint run (s : main_state) (inputs : list (list Z * MagReading))
  : option (main_state * list (list (list Z))) :=
  match inputs with
  | [] => Some (s, [])
  | (received, sample) :: rest =>
      let s := set_UART_input_buff (_U1RXInterrupt received (UART_input_buff s)) s in
      match tick s sample with
      | None => None
      | Some (s1, printed) =>
          match run s1 rest with
          | None => None
          | Some (s2, later) => Some (s2, printed :: later)
          end
      end
  end.

End Loop.

(** Whether a printed string is a [$MAG,...] frame. *)
Definition is_mag (str : list Z) : bool :=
  if decide (take 5 str = chars "$MAG,") then true else false.

Definition count_mag (printed : list (list Z)) : nat :=
  length (List.filter is_mag printed).

(** The state [main] enters its loop with, once the window is filled with
    [first]. *)
Definition main_init (first : list MagReading) : main_state :=
  mk_main_state 5 (mk_MagReadings 0 first) 0 0 0 0 zero_reading 0 pstate_init
    UART_input_buff_init UART_output_buff_init false.

(** The bytes of a list through [handle_byte], first to last. *)
Definition handle_bytes (bytes : list Z) (c : mcfg) : mcfg :=
  fold_left (fun c byte => handle_byte byte c) bytes c.

(** The input buffer once the main loop has taken all that waited. *)
Definition drained (b : circular_buffer) : circular_buffer :=
  mk_circular_buffer (len b) (buff b) (write b) (write b).

(** The state of the loop at its start, but with the parser having read
    [bytes]. *)
Definition main_parsing (bytes : list Z) : main_state :=
  set_pstate (fst (feed pstate_init bytes)) (main_init (repeat zero_reading 5)).

(** [n] ticks in which nothing is received and the sensor reads zero. *)
Definition quiet_inputs (n : nat) : list (list Z * MagReading) :=
  repeat ([], zero_reading) n.

(** How many [$MAG] frames each tick of a run printed. *)
Definition mag_counts (heading : Z -> Z -> Z) (s : main_state)
    (inputs : list (list Z * MagReading)) : option (list nat) :=
  option_map (fun r => map count_mag (snd r)) (run heading s inputs).

(** A window whose five slots hold the same reading. *)
Definition window_of (r : MagReading) : MagReadings :=
  mk_MagReadings 0 (repeat r (Z.to_nat N_MAG_READINGS)).

(** Whether a printed string is a [$YAW,...] frame. *)
Definition is_yaw (str : list Z) : bool :=
  if decide (take 5 str = chars "$YAW,") then true else false.

Definition count_yaw (printed : list (list Z)) : nat :=
  length (List.filter is_yaw printed).

(** The reaction of lines 232 to 239 to a message, given as the type and
    the payload read out of the parser. *)
Definition react (m : list Z * list Z) (c : mcfg) : mcfg :=
  if decide (fst m = chars "RATE") then
    let rate := extract_integer (snd m) in
    if negb (is_valid_rate rate =? 0) then (set_print_mag_rate rate (fst c), snd c)
    else print (lit "$ERR,1*") c
  else c.

Definition react_all (msgs : list (list Z * list Z)) (c : mcfg) : mcfg :=
  fold_left (fun c m => react m c) msgs c.

(** Acquisitions in a row, as [acquire] does them; the last average. *)
Fixpoint acquire_all (m : MagReadings) (avg : MagReading) (samples : list MagReading)
  : option (MagReadings * MagReading) :=
  match samples with
  | [] => Some (m, avg)
  | sample :: rest =>
      match acquire m sample with
      | None => None
      | Some (m1, avg1) => acquire_all m1 avg1 rest
      end
  end.

(** A window as [main] keeps it: five slots, the cursor on one of them. *)
Definition window_ok (m : MagReadings) : Prop :=
  0 <= w m < N_MAG_READINGS /\ length (readings m) = Z.to_nat N_MAG_READINGS.

(** The window once lines 195 to 201 have stored a sample and advanced the
    cursor. *)
Definition stored (m : MagReadings) (sample : MagReading) : MagReadings :=
  mk_MagReadings (Z.rem (w m + 1) N_MAG_READINGS) (readings (set_reading m (w m) sample)).

(** One fifth of a reading, truncating, as lines 210 to 212 take it of what
    the summing loop returns when it has added this reading alone. *)
Definition fifth (r : MagReading) : MagReading :=
  mk_MagReading (Z.quot (wrap_long (x r)) N_MAG_READINGS)
                (Z.quot (wrap_long (y r)) N_MAG_READINGS)
                (Z.quot (wrap_long (z r)) N_MAG_READINGS).

(** The samples of a run that the acquisition takes: those of the ticks in
    which the counter, starting from [counter], reaches [CLOCK_ACQUIRE_MAG]. *)
Fixpoint acquired_samples (counter : Z) (inputs : list (list Z * MagReading))
  : list MagReading :=
  match inputs with
  | [] => []
  | (_, sample) :: rest =>
      if counter + 1 >=? CLOCK_ACQUIRE_MAG then sample :: acquired_samples 0 rest
      else acquired_samples (counter + 1) rest
  end.

(** Of a list of samples the fourth, the eighth and so on. *)
Fixpoint every_fourth (samples : list MagReading) : list MagReading :=
  match samples with
  | _ :: _ :: _ :: s :: rest => s :: every_fourth rest
  | _ => []
  end.

(** What of the characters that arrive before each tick of a run gets into
    the input buffer when the run starts with the buffer empty: of each
    burst as many as the buffer has room for. *)
Definition taken (inputs : list (list Z * MagReading)) : list Z :=
  concat (map (fun input => take (Z.to_nat (INPUT_BUFF_LEN - 1)) (fst input)) inputs).

(** Whether a message is a [RATE] command with a value outside the
    table. *)
Definition refused (m : list Z * list Z) : bool :=
  if decide (fst m = chars "RATE") then is_valid_rate (extract_integer (snd m)) =? 0
  else false.

(** The rate once a message has been reacted to. *)
Definition next_rate (rate : Z) (m : list Z * list Z) : Z :=
  if decide (fst m = chars "RATE") then
    if refused m then rate else extract_integer (snd m)
  else rate.

(** The rate once messages have been reacted to, in their order. *)
Definition rate_after (msgs : list (list Z * list Z)) (rate : Z) : Z :=
  fold_left next_rate msgs rate.

(** How many of the messages are refused. *)
Definition errors (msgs : list (list Z * list Z)) : nat :=
  length (List.filter refused msgs).

(** The input buffer as the loop leaves it at the end of a tick: nothing
    waits in it. *)
Definition input_idle (s : main_state) : Prop :=
  valid INPUT_BUFF_LEN (UART_input_buff s) /\
  read (UART_input_buff s) = write (UART_input_buff s) /\
  Z.of_nat (length (buff (UART_input_buff s))) = INPUT_BUFF_LEN.

(** Whether tick [i] of a run (from 0) is one in which a counter that
    stands at [k] before the run reaches [period]. *)
Definition in_phase (period k : Z) (i : nat) : nat :=
  if (k + Z.of_nat i + 1) mod period =? 0 then 1%nat else 0%nat.


(** Whether a printed string is an [$ERR,...] frame. *)
Definition is_err (str : list Z) : bool :=
  if decide (take 5 str = chars "$ERR,") then true else false.

Definition count_err (printed : list (list Z)) : nat :=
  length (List.filter is_err printed).




(** [enum Axis]. *)
Inductive Axis := X_AXIS | Y_AXIS | Z_AXIS.

Definition axis_index (axis : Axis) : Z :=
  match axis with
  | X_AXIS => 0
  | Y_AXIS => 1
  | Z_AXIS => 2
  end.

(** The value [read_mag_axis] forms of the two data bytes: [low] is what
    the call of [spi_write] in the left operand of [|] returns, [high] what
    the call in the right operand returns.  The conversion to [int] wraps;
    [>>] on an [int] keeps the sign. *)
Definition axis_value (axis : Axis) (low high : Z) : Z :=
  match axis with
  | X_AXIS | Y_AXIS =>
      let bytes_value := wrap_int (Z.lor (Z.land low 248) (Z.shiftl high 8)) in
      Z.shiftr bytes_value 3
  | Z_AXIS =>
      let bytes_value := wrap_int (Z.lor (Z.land low 254) (Z.shiftl high 8)) in
      Z.shiftr bytes_value 1
  end.

(** The synchronous bus and the two flags [read_mag_axis] touches. *)
Record bus := mk_bus {
  responses : list Z;
  written : list Z;
  CS_MAG : bool;
  SPIROV : bool;
  LATA : Z
}.

(** Modelled from the spec: [spi_write] is declared in [spi.h], which is
    not among the sources.  It exchanges one byte with the device: the byte
    is written, the byte the device answers is returned. *)
Definition spi_write (data : Z) (b : bus) : Z * bus :=
  (hd 0 (responses b),
   mk_bus (tl (responses b)) (written b ++ [data]) (CS_MAG b) (SPIROV b) (LATA b)).

(** [read_mag_axis]; of the two calls in one expression the left one is
    taken to run first. *)
Definition read_mag_axis (axis : Axis) (b : bus) : Z * bus :=
  let b := if SPIROV b then mk_bus (responses b) (written b) (CS_MAG b) false 1 else b in
  let b := mk_bus (responses b) (written b) false (SPIROV b) (LATA b) in
  let '(_, b) := spi_write (Z.lor (66 + axis_index axis * 2) 128) b in
  let '(low, b) := spi_write 0 b in
  let '(high, b) := spi_write 0 b in
  let b := mk_bus (responses b) (written b) true (SPIROV b) (LATA b) in
  (axis_value axis low high, b).

(** The magnitude an axis has room for: 13 bits with sign for x and y, 15
    for z. *)
Definition axis_limit (axis : Axis) : Z :=
  match axis with
  | X_AXIS | Y_AXIS => 4096
  | Z_AXIS => 16384
  end.

(** The two data bytes in which the sensor holds the value [v] of an axis:
    two's complement, shifted left past the [flags] in the low bits. *)
Definition axis_bytes (axis : Axis) (v flags : Z) : Z * Z :=
  let shift := match axis with X_AXIS | Y_AXIS => 8 | Z_AXIS => 2 end in
  let word := (v * shift) mod 65536 in
  (word mod 256 + flags, word / 256).

(** Whether [f] holds of all of [0 .. n-1]. *)
Fixpoint all_from (n : nat) (k : Z) (f : Z -> bool) : bool :=
  match n with
  | O => true
  | S n => f k && all_from n (k + 1) f
  end.

Definition all_below (n : nat) (f : Z -> bool) : bool := all_from n 0 f.

(** How many values the flag bits of an axis take. *)
Definition axis_flags (axis : Axis) : Z :=
  match axis with
  | X_AXIS | Y_AXIS => 8
  | Z_AXIS => 2
  end.

(** [char output_str [20]], the array [sprintf] writes the frames to. *)
Definition OUTPUT_STR_LEN : Z := 20.

(** A reading as the three calls of [read_mag_axis] deliver it. *)
Definition sensor_reading (r : MagReading) : Prop :=
  - axis_limit X_AXIS <= x r < axis_limit X_AXIS /\
  - axis_limit Y_AXIS <= y r < axis_limit Y_AXIS /\
  - axis_limit Z_AXIS <= z r < axis_limit Z_AXIS.

(** Lines 195 to 199: the three calls of [read_mag_axis] that make a
    sample, taken in the order x, y, z. *)
Definition read_sample (b : bus) : MagReading * bus :=
  let '(vx, b) := read_mag_axis X_AXIS b in
  let '(vy, b) := read_mag_axis Y_AXIS b in
  let '(vz, b) := read_mag_axis Z_AXIS b in
  (mk_MagReading vx vy vz, b).

(** How many characters [%d] takes in a [$MAG] frame for the fifth of the
    value [v] of an axis. *)
Definition field_width (v : Z) : nat :=
  length (fmt_d (wrap_int (Z.quot (wrap_long v) N_MAG_READINGS))).

(** Whether [%d] takes for [q] between 1 and 4 characters, or 5 from a
    thousand on. *)
Definition digits_in_bound (q : Z) : bool :=
  Nat.leb 1 (length (fmt_d q)) &&
  Nat.leb (length (fmt_d q)) (if Z.abs q <? 1000 then 4%nat else 5%nat).

End Main.

(** * Properties *)

(** ** Integers, stores and strings *)

Lemma wrap_int_id v : in_int v -> wrap_int v = v.
Proof.
  unfold in_int, INT_MIN, INT_MAX, wrap_int. intros Hv.
  rewrite Z.mod_small; lia.
Qed.

Lemma wrap_int_range v : in_int (wrap_int v).
Proof.
  unfold in_int, INT_MIN, INT_MAX, wrap_int.
  pose proof (Z.mod_pos_bound (v + 32768) 65536). lia.
Qed.

Lemma store_nat (buf : list Z) (k : nat) (c : Z) :
  store buf (Z.of_nat k) c = <[k := c]> buf.
Proof.
  unfold store. destruct (Z.ltb_spec (Z.of_nat k) 0); [lia|].
  now rewrite Nat2Z.id.
Qed.

Lemma length_store (buf : list Z) (i c : Z) : length (store buf i c) = length buf.
Proof. unfold store. destruct (i <? 0); [reflexivity | apply length_insert]. Qed.

Lemma c_str_app (cs rest : list Z) :
  Forall (fun c => c <> 0) cs -> c_str (cs ++ 0 :: rest) = cs.
Proof.
  induction 1 as [|c cs Hc _ IH]; simpl; [reflexivity|].
  destruct (Z.eqb_spec c 0); [contradiction|]. now rewrite IH.
Qed.

(** The string left in an array by writing [cs] from its start and a NUL
    behind it. *)
Lemma c_str_written (cs buf : list Z) :
  (length cs < length buf)%nat ->
  Forall (fun c => c <> 0) cs ->
  c_str (<[length cs := 0]> (list_inserts 0 cs buf)) = cs.
Proof.
  intros Hlen Hnz.
  rewrite <- (take_drop (length cs) buf) at 1.
  rewrite list_inserts_0_r by (rewrite length_take; lia).
  replace (length cs) with (length cs + 0)%nat at 1 by lia.
  rewrite insert_app_r.
  destruct (drop (length cs) buf) as [|d rest] eqn:Hd.
  - apply (f_equal length) in Hd. rewrite length_drop in Hd. simpl in Hd. lia.
  - simpl. now apply c_str_app.
Qed.

Lemma load_store_same (buf : list Z) (i c : Z) :
  0 <= i < Z.of_nat (length buf) -> load (store buf i c) i = c.
Proof.
  intros Hi. unfold load, store. destruct (Z.ltb_spec i 0); [lia|].
  rewrite list_lookup_insert_eq by lia. reflexivity.
Qed.

Lemma load_store_other (buf : list Z) (i j c : Z) :
  0 <= i -> 0 <= j -> i <> j -> load (store buf i c) j = load buf j.
Proof.
  intros Hi Hj Hne. unfold load, store.
  destruct (Z.ltb_spec i 0); destruct (Z.ltb_spec j 0); try lia.
  rewrite list_lookup_insert_ne by lia. reflexivity.
Qed.

(** ** The parser *)

Module ParserFacts.
Import Parser.

Ltac zeqb :=
  repeat match goal with
    | |- context [Z.eqb ?a ?b] => destruct (Z.eqb_spec a b); try contradiction; try lia
    end.

Lemma feed_cons ps b rest :
  feed ps (b :: rest) =
    (fst (feed (fst (parse_byte ps b)) rest),
     match snd (parse_byte ps b) with
     | NEW_MESSAGE => message (fst (parse_byte ps b)) :: snd (feed (fst (parse_byte ps b)) rest)
     | NO_MESSAGE => snd (feed (fst (parse_byte ps b)) rest)
     end).
Proof.
  cbn [feed]. destruct (parse_byte ps b) as [ps1 r]. cbn [fst snd].
  destruct (feed ps1 rest) as [ps2 msgs]. reflexivity.
Qed.

Lemma feed_app ps a b :
  feed ps (a ++ b) =
    (fst (feed (fst (feed ps a)) b), snd (feed ps a) ++ snd (feed (fst (feed ps a)) b)).
Proof.
  revert ps. induction a as [|c a IH]; intros ps.
  - cbn [app feed fst snd]. now destruct (feed ps b).
  - rewrite <- app_comm_cons, !feed_cons, IH. cbn [fst snd].
    now destruct (snd (parse_byte ps c)).
Qed.

(** Character literals as their codes. *)
Ltac chr_eval :=
  repeat match goal with
    | |- context [chr ?a] =>
        let v := eval vm_compute in (chr a) in change (chr a) with v
    | H : context [chr ?a] |- _ =>
        let v := eval vm_compute in (chr a) in change (chr a) with v in H
    end.

Ltac parse_step ps :=
  destruct ps; unfold token_char, payload_char, parse_byte, parse_byte_cfg in *;
  chr_eval; cbn in *; subst; zeqb; reflexivity.

Lemma parse_dollar ps :
  state ps = STATE_DOLLAR ->
  parse_byte ps (chr "$") =
    (mk_parser_state STATE_TYPE (msg_type ps) (msg_payload ps) 0 (index_payload ps), NO_MESSAGE).
Proof. intros Hs. parse_step ps. Qed.

Lemma parse_other ps c :
  state ps = STATE_DOLLAR -> c <> chr "$" -> parse_byte ps c = (ps, NO_MESSAGE).
Proof. intros Hs Hc. parse_step ps. Qed.

Lemma parse_type_char ps c :
  state ps = STATE_TYPE -> token_char c -> index_type ps <> 6 ->
  parse_byte ps c =
    (mk_parser_state STATE_TYPE (store (msg_type ps) (index_type ps) c) (msg_payload ps)
       (index_type ps + 1) (index_payload ps), NO_MESSAGE).
Proof. intros Hs [Hc1 Hc2] Hi. parse_step ps. Qed.

Lemma parse_type_comma ps :
  state ps = STATE_TYPE ->
  parse_byte ps (chr ",") =
    (mk_parser_state STATE_PAYLOAD (store (msg_type ps) (index_type ps) 0) (msg_payload ps)
       (index_type ps) 0, NO_MESSAGE).
Proof. intros Hs. parse_step ps. Qed.

Lemma parse_type_star ps :
  state ps = STATE_TYPE -> index_type ps <> 6 ->
  parse_byte ps (chr "*") =
    (mk_parser_state STATE_DOLLAR (store (msg_type ps) (index_type ps) 0)
       (store (msg_payload ps) 0 0) (index_type ps) (index_payload ps), NEW_MESSAGE).
Proof. intros Hs Hi. parse_step ps. Qed.

(** At six characters every byte other than [','] aborts, ['*'] included. *)
Lemma parse_type_full ps c :
  state ps = STATE_TYPE -> index_type ps = 6 -> c <> chr "," ->
  parse_byte ps c =
    (mk_parser_state STATE_DOLLAR (msg_type ps) (msg_payload ps) 0 (index_payload ps),
     NO_MESSAGE).
Proof. intros Hs Hi Hc. parse_step ps. Qed.

Lemma parse_payload_char ps c :
  state ps = STATE_PAYLOAD -> payload_char c -> index_payload ps <> 100 ->
  parse_byte ps c =
    (mk_parser_state STATE_PAYLOAD (msg_type ps) (store (msg_payload ps) (index_payload ps) c)
       (index_type ps) (index_payload ps + 1), NO_MESSAGE).
Proof. intros Hs Hc Hi. parse_step ps. Qed.

Lemma parse_payload_star ps :
  state ps = STATE_PAYLOAD ->
  parse_byte ps (chr "*") =
    (mk_parser_state STATE_DOLLAR (msg_type ps) (store (msg_payload ps) (index_payload ps) 0)
       (index_type ps) (index_payload ps), NEW_MESSAGE).
Proof. intros Hs. parse_step ps. Qed.

(** The characters of a type token are stored one after the other. *)
Lemma feed_type_chars cs : forall ps (k : nat),
  state ps = STATE_TYPE -> index_type ps = Z.of_nat k ->
  (k + length cs <= 6)%nat -> Forall token_char cs ->
  feed ps cs =
    (mk_parser_state STATE_TYPE (list_inserts k cs (msg_type ps)) (msg_payload ps)
       (Z.of_nat (k + length cs)) (index_payload ps), []).
Proof.
  induction cs as [|c cs IH]; intros ps k Hs Hi Hk Hcs.
  - destruct ps; cbn in *. subst. now rewrite Nat.add_0_r.
  - inversion Hcs as [|? ? Hc Hcs']; subst. cbn [length] in Hk.
    rewrite feed_cons, parse_type_char by (try assumption; lia).
    cbn [fst snd].
    rewrite (IH _ (S k)); [ | reflexivity | cbn [index_type]; lia | lia | assumption ].
    cbn [fst snd state index_type msg_type msg_payload index_payload list_inserts].
    rewrite Hi, store_nat, list_insert_inserts_lt by lia.
    cbn [length]. do 2 f_equal. lia.
Qed.

(** So are those of a payload. *)
Lemma feed_payload_chars cs : forall ps (k : nat),
  state ps = STATE_PAYLOAD -> index_payload ps = Z.of_nat k ->
  (k + length cs <= 100)%nat -> Forall payload_char cs ->
  feed ps cs =
    (mk_parser_state STATE_PAYLOAD (msg_type ps) (list_inserts k cs (msg_payload ps))
       (index_type ps) (Z.of_nat (k + length cs)), []).
Proof.
  induction cs as [|c cs IH]; intros ps k Hs Hi Hk Hcs.
  - destruct ps; cbn in *. subst. now rewrite Nat.add_0_r.
  - inversion Hcs as [|? ? Hc Hcs']; subst. cbn [length] in Hk.
    rewrite feed_cons, parse_payload_char by (try assumption; lia).
    cbn [fst snd].
    rewrite (IH _ (S k)); [ | reflexivity | cbn [index_payload]; lia | lia | assumption ].
    cbn [fst snd state index_type msg_type msg_payload index_payload list_inserts].
    rewrite Hi, store_nat, list_insert_inserts_lt by lia.
    cbn [length]. do 2 f_equal. lia.
Qed.

(** A frame [$T,P*] fed to a parser that awaits a start is recognised, and
    what is read out of the state is [T] and [P].  The state before may hold
    anything in its arrays and indices. *)
Lemma feed_frame ps T P :
  state ps = STATE_DOLLAR -> sized ps ->
  Forall token_char T -> Forall (fun c => c <> 0) T -> (length T <= 6)%nat ->
  Forall payload_char P -> Forall (fun c => c <> 0) P -> (length P <= 100)%nat ->
  exists ps', feed ps (frame T P) = (ps', [(T, P)]) /\ state ps' = STATE_DOLLAR /\ sized ps'.
Proof.
  intros Hs [Hlt Hlp] HT HTz HTl HP HPz HPl. unfold frame.
  rewrite feed_cons, parse_dollar by assumption. cbn [fst snd].
  rewrite feed_app.
  rewrite (feed_type_chars T _ 0%nat) by (try assumption; try reflexivity; lia).
  cbn [fst snd]. rewrite feed_cons, parse_type_comma by reflexivity.
  cbn [fst snd state msg_type msg_payload index_type index_payload].
  rewrite feed_app.
  rewrite (feed_payload_chars P _ 0%nat) by (try assumption; try reflexivity; lia).
  cbn [fst snd]. rewrite feed_cons, parse_payload_star by reflexivity.
  cbn [fst snd feed state msg_type msg_payload index_type index_payload app Nat.add].
  rewrite !store_nat. eexists. split; [apply f_equal2; [reflexivity|] |].
  - unfold message. cbn [msg_type msg_payload].
    rewrite !c_str_written; try assumption; try reflexivity.
    + rewrite Hlp. unfold MSG_PAYLOAD_LEN. lia.
    + rewrite Hlt. unfold MSG_TYPE_LEN. lia.
  - split; [reflexivity|].
    split; cbn [msg_type msg_payload];
      now rewrite length_insert, length_inserts.
Qed.

(** A frame [$T*] of at most five characters is recognised with an empty
    payload. *)
Lemma feed_frame_nopayload ps T :
  state ps = STATE_DOLLAR -> sized ps ->
  Forall token_char T -> Forall (fun c => c <> 0) T -> (length T <= 5)%nat ->
  exists ps', feed ps (frame_nopayload T) = (ps', [(T, [])]) /\
              state ps' = STATE_DOLLAR /\ sized ps'.
Proof.
  intros Hs [Hlt Hlp] HT HTz HTl. unfold frame_nopayload.
  rewrite feed_cons, parse_dollar by assumption. cbn [fst snd].
  rewrite feed_app.
  rewrite (feed_type_chars T _ 0%nat) by (try assumption; try reflexivity; lia).
  cbn [fst snd]. rewrite feed_cons, parse_type_star by (try reflexivity; cbn; lia).
  cbn [fst snd feed state msg_type msg_payload index_type index_payload app Nat.add].
  rewrite store_nat. eexists. split; [apply f_equal2; [reflexivity|] |].
  - unfold message. cbn [msg_type msg_payload].
    rewrite c_str_written; try assumption; [|rewrite Hlt; unfold MSG_TYPE_LEN; lia].
    destruct (msg_payload ps); [discriminate|reflexivity].
  - split; [reflexivity|].
    split; cbn [msg_type msg_payload].
    + now rewrite length_insert, length_inserts.
    + now rewrite length_store.
Qed.

(** A frame [$T*] of six characters is dropped: at the ['*'] the test of
    the index comes first. *)
Lemma feed_frame_nopayload_six ps T :
  state ps = STATE_DOLLAR -> Forall token_char T -> length T = 6%nat ->
  snd (feed ps (frame_nopayload T)) = [].
Proof.
  intros Hs HT HTl. unfold frame_nopayload.
  rewrite feed_cons, parse_dollar by assumption. cbn [fst snd].
  rewrite feed_app.
  rewrite (feed_type_chars T _ 0%nat) by (try assumption; try reflexivity; lia).
  cbn [fst snd]. rewrite feed_cons, parse_type_full.
  - reflexivity.
  - reflexivity.
  - cbn [index_type]. rewrite HTl. reflexivity.
  - chr_eval. lia.
Qed.

(** A start and seven characters without [','] or ['*']: the seventh
    aborts the frame, nothing is reported and the parser awaits a start. *)
Lemma feed_long_type ps cs c :
  state ps = STATE_DOLLAR -> Forall token_char cs -> length cs = 6%nat -> token_char c ->
  exists ps', feed ps (chr "$" :: cs ++ [c]) = (ps', []) /\
              state ps' = STATE_DOLLAR /\ index_type ps' = 0 /\
              length (msg_type ps') = length (msg_type ps) /\
              msg_payload ps' = msg_payload ps.
Proof.
  intros Hs Hcs Hl [Hc _].
  rewrite feed_cons, parse_dollar by assumption. cbn [fst snd].
  rewrite feed_app.
  rewrite (feed_type_chars cs _ 0%nat) by (try assumption; try reflexivity; lia).
  cbn [fst snd]. rewrite feed_cons, parse_type_full.
  - cbn [fst snd feed]. eexists. split; [reflexivity|].
    cbn [state index_type msg_type msg_payload].
    now rewrite length_inserts.
  - reflexivity.
  - cbn [index_type]. rewrite Hl. reflexivity.
  - assumption.
Qed.

Lemma store_nul_In (buf : list Z) (i : Z) :
  0 <= i < Z.of_nat (length buf) -> In 0 (store buf i 0).
Proof.
  intros Hi. rewrite <- (Z2Nat.id i) by lia. rewrite store_nat.
  apply list_elem_of_In, list_elem_of_lookup. exists (Z.to_nat i).
  apply list_lookup_insert_eq. lia.
Qed.

Lemma inv_init : inv pstate_init.
Proof.
  unfold inv, sized, pstate_init. cbn [state msg_type msg_payload index_type index_payload].
  rewrite !repeat_length. repeat split; try lia. discriminate.
Qed.

Lemma inv_parse_byte ps byte : inv ps -> inv (fst (parse_byte ps byte)).
Proof.
  intros [[Hlt Hlp] [Hit [Hip Hnul]]].
  destruct ps as [s mt mp it ip]. unfold inv, sized, parse_byte, parse_byte_cfg.
  cbn in *. unfold MSG_TYPE_LEN, MSG_PAYLOAD_LEN in *.
  destruct s; chr_eval; zeqb; cbn; rewrite ?length_store, ?length_insert;
    repeat split; try lia; try discriminate;
    intros _; first [now apply Hnul | apply store_nul_In; lia].
Qed.

Lemma inv_feed bytes : forall ps, inv ps -> inv (fst (feed ps bytes)).
Proof.
  induction bytes as [|b bytes IH]; intros ps Hinv; [assumption|].
  rewrite feed_cons. cbn [fst]. now apply IH, inv_parse_byte.
Qed.

(** On [NEW_MESSAGE] both arrays hold a NUL: the strings read out of them
    end inside the arrays. *)
Lemma new_message_terminated ps byte :
  inv ps -> snd (parse_byte ps byte) = NEW_MESSAGE ->
  In 0 (msg_type (fst (parse_byte ps byte))) /\
  In 0 (msg_payload (fst (parse_byte ps byte))).
Proof.
  intros [[Hlt Hlp] [Hit [Hip Hnul]]].
  destruct ps as [s mt mp it ip]. unfold parse_byte, parse_byte_cfg.
  cbn in *. unfold MSG_TYPE_LEN, MSG_PAYLOAD_LEN in *.
  destruct s; chr_eval; zeqb; cbn; try discriminate; intros _; split;
    first [apply store_nul_In; lia | apply (store_nul_In mp 0); lia | now apply Hnul].
Qed.

(** After the abort of an over-long type token the parser takes a frame
    [$T,P*] as a fresh parser does. *)
Lemma feed_frame_after_abort ps cs c T P :
  state ps = STATE_DOLLAR -> sized ps ->
  Forall token_char cs -> length cs = 6%nat -> token_char c ->
  Forall token_char T -> Forall (fun c => c <> 0) T -> (length T <= 6)%nat ->
  Forall payload_char P -> Forall (fun c => c <> 0) P -> (length P <= 100)%nat ->
  snd (feed ps ((chr "$" :: cs ++ [c]) ++ frame T P)) = [(T, P)].
Proof.
  intros Hs [Hlt Hlp] Hcs Hl Hc HT HTz HTl HP HPz HPl.
  destruct (feed_long_type ps cs c Hs Hcs Hl Hc) as (ps1 & Hf1 & Hs1 & _ & Hlt1 & Hmp1).
  assert (Hsz : sized ps1) by (split; congruence).
  destruct (feed_frame ps1 T P Hs1 Hsz HT HTz HTl HP HPz HPl) as (ps2 & Hf2 & _).
  rewrite feed_app, Hf1. cbn [fst snd]. now rewrite Hf2.
Qed.

(** C1 (the code departs from it): a well-formed frame yields exactly one
    NewMessage with its type and payload.  The frame [$ABCDEF*], a type of
    six characters without comma, fed to the parser in its initial state
    yields no message at all, where the claim asks for the type "ABCDEF"
    with an empty payload; the same type followed by a comma is
    accepted. *)
Theorem six_char_type_without_comma_dropped :
  snd (feed pstate_init (frame_nopayload (chars "ABCDEF"))) = [] /\
  snd (feed pstate_init (frame (chars "ABCDEF") [])) = [(chars "ABCDEF", [])].
Proof. split; vm_compute; reflexivity. Qed.

(** C5 (the code departs from it): after the abort of an over-long type
    token the next well-formed frame is accepted.  After "$ABCDEFG" the
    parser has aborted and awaits a start, but the well-formed frame
    [$ABCDEF*] that follows yields no message. *)
Theorem frame_after_abort_dropped :
  feed pstate_init (chars "$ABCDEFG") =
    (mk_parser_state STATE_DOLLAR (chars "ABCDEF" ++ [0]) (repeat 0 MSG_PAYLOAD_LEN) 0 0, []) /\
  snd (feed pstate_init (chars "$ABCDEFG" ++ frame_nopayload (chars "ABCDEF"))) = [].
Proof. split; vm_compute; reflexivity. Qed.

(** C10: from a state whose indices are at most 6 and 100, one call of
    [parse_byte] leaves them so, and each of its stores goes to an index of
    at most 6 in the type array and at most 100 in the payload array. *)
Theorem parse_byte_indices_bounded ps byte :
  index_type ps <= 6 -> index_payload ps <= 100 ->
  index_type (fst (parse_byte ps byte)) <= 6 /\
  index_payload (fst (parse_byte ps byte)) <= 100 /\
  Forall write_in_bounds (parse_byte_writes ps byte).
Proof.
  intros Hit Hip. destruct ps as [s mt mp it ip].
  unfold parse_byte, parse_byte_writes, parse_byte_cfg. cbn in *.
  destruct s; chr_eval; zeqb; cbn;
    repeat split; try lia; repeat constructor; cbn; lia.
Qed.

Lemma parse_byte_indices_bounded_witness :
  index_type pstate_ABCDE <= 6 /\ index_payload pstate_ABCDE <= 100 /\
  index_type (fst (parse_byte pstate_ABCDE (chr "F"))) <= 6 /\
  index_payload (fst (parse_byte pstate_ABCDE (chr "F"))) <= 100 /\
  Forall write_in_bounds (parse_byte_writes pstate_ABCDE (chr "F")).
Proof.
  assert (H1 : index_type pstate_ABCDE <= 6) by (vm_compute; discriminate).
  assert (H2 : index_payload pstate_ABCDE <= 100) by (vm_compute; discriminate).
  split; [exact H1 | split; [exact H2 |]].
  exact (parse_byte_indices_bounded pstate_ABCDE (chr "F") H1 H2).
Defined.

(** The stores also stay at or above index 0 when the indices do. *)
Lemma parse_byte_writes_nonnegative ps byte :
  0 <= index_type ps -> 0 <= index_payload ps ->
  0 <= index_type (fst (parse_byte ps byte)) /\
  0 <= index_payload (fst (parse_byte ps byte)) /\
  Forall (fun wr => match wr with WriteType i _ | WritePayload i _ => 0 <= i end)
         (parse_byte_writes ps byte).
Proof.
  intros Hit Hip. destruct ps as [s mt mp it ip].
  unfold parse_byte, parse_byte_writes, parse_byte_cfg. cbn in *.
  destruct s; chr_eval; zeqb; cbn;
    repeat split; try lia; repeat constructor; cbn; lia.
Qed.

(** *** [extract_integer] *)

Lemma value_from_le (ds : list Z) : forall acc,
  Forall is_digit ds -> 0 <= acc -> acc <= value_from acc ds.
Proof.
  unfold is_digit. chr_eval.
  induction ds as [|d ds IH]; intros acc Hds Hacc; [cbn; lia|].
  inversion Hds as [|? ? Hd Hds']; subst. cbn [value_from fold_left]. chr_eval.
  cbn beta in Hd.
  apply Z.le_trans with (acc * 10 + (d - 48)); [lia|]. apply (IH _ Hds'). lia.
Qed.

(** The loop computes the value of the digits as long as it fits an [int]. *)
Lemma extract_digits_value (ds rest : list Z) : forall acc,
  Forall is_digit ds -> terminated rest -> 0 <= acc -> value_from acc ds <= INT_MAX ->
  extract_digits (ds ++ rest) acc = value_from acc ds.
Proof.
  induction ds as [|d ds IH]; intros acc Hds Hrest Hacc Hmax.
  - cbn [app value_from fold_left]. destruct rest as [|c rest]; [reflexivity|].
    cbn [extract_digits]. destruct Hrest as [-> | ->]; reflexivity.
  - inversion Hds as [|? ? Hd Hds']; subst.
    unfold is_digit in Hd.
    assert (Hle : acc * 10 + (d - chr "0") <= value_from (acc * 10 + (d - chr "0")) ds).
    { apply value_from_le; [assumption|]. revert Hd. chr_eval. lia. }
    unfold value_from in *. cbn [app extract_digits fold_left] in *.
    unfold INT_MAX in *. chr_eval.
    destruct (Z.eqb_spec d 44); [lia|]. destruct (Z.eqb_spec d 0); [lia|].
    cbn [orb]. rewrite (wrap_int_id (acc * 10)) by (unfold in_int, INT_MIN, INT_MAX; lia).
    rewrite wrap_int_id by (unfold in_int, INT_MIN, INT_MAX; lia).
    apply IH; try assumption; lia.
Qed.

Lemma decimal_value_nonneg (ds : list Z) : Forall is_digit ds -> 0 <= decimal_value ds.
Proof. intros Hds. apply (value_from_le ds 0 Hds). lia. Qed.

(** C7, as amended: [extract_integer] reads an optional ['+'] or ['-'] and
    the decimal digits up to a [','] or the end of the string, and returns
    the signed value, provided the value of the digits is at most
    [INT_MAX]; "123" gives 123, "-45" gives -45 and "+7" gives 7. *)
Theorem extract_integer_signed_value :
  (forall (s : sign) (ds rest : list Z),
      Forall is_digit ds -> terminated rest -> decimal_value ds <= INT_MAX ->
      extract_integer (sign_chars s ++ ds ++ rest) = sign_value s * decimal_value ds) /\
  extract_integer (lit "123") = 123 /\
  extract_integer (lit "-45") = -45 /\
  extract_integer (lit "+7") = 7.
Proof.
  split; [|repeat split; reflexivity].
  intros s ds rest Hds Hrest Hmax.
  pose proof (decimal_value_nonneg ds Hds) as Hpos.
  assert (Hval : extract_digits (ds ++ rest) 0 = decimal_value ds).
  { apply extract_digits_value; try assumption. lia. }
  assert (Hint : forall k, (k = 1 \/ k = -1) -> wrap_int (k * decimal_value ds) = k * decimal_value ds).
  { intros k Hk. apply wrap_int_id. unfold in_int, INT_MIN, INT_MAX in *.
    destruct Hk; subst; lia. }
  destruct s; cbn [sign_chars sign_value app].
  - assert (Hhd : load (ds ++ rest) 0 <> chr "-" /\ load (ds ++ rest) 0 <> chr "+").
    { destruct ds as [|d ds'].
      - destruct rest as [|c rest']; [split; discriminate|].
        change (load ([] ++ c :: rest') 0) with c.
        destruct Hrest as [-> | ->]; split; discriminate.
      - inversion Hds as [|? ? Hd _]; subst. unfold is_digit in Hd.
        change (load ((d :: ds') ++ rest) 0) with d. revert Hd. chr_eval. lia. }
    unfold extract_integer. destruct Hhd as [H1 H2].
    destruct (Z.eqb_spec (load (ds ++ rest) 0) (chr "-")); [contradiction|].
    destruct (Z.eqb_spec (load (ds ++ rest) 0) (chr "+")); [contradiction|].
    rewrite Hval. apply Hint. now left.
  - unfold extract_integer. cbn [load Z.ltb Z.compare Z.to_nat lookup list_lookup default].
    change (drop 1 (chr "+" :: ds ++ rest)) with (ds ++ rest).
    rewrite Hval. cbn. apply (Hint 1). now left.
  - unfold extract_integer. change (drop 1 (chr "-" :: ds ++ rest)) with (ds ++ rest).
    rewrite Hval. cbn. apply (Hint (-1)). now right.
Qed.

Lemma extract_integer_signed_value_witness :
  Forall is_digit (chars "32767") /\ terminated (lit ",5") /\
  decimal_value (chars "32767") <= INT_MAX /\
  extract_integer (sign_chars Minus ++ chars "32767" ++ lit ",5") =
    sign_value Minus * decimal_value (chars "32767").
Proof.
  assert (H1 : Forall is_digit (chars "32767")).
  { repeat constructor; vm_compute; discriminate. }
  assert (H2 : terminated (lit ",5")) by (left; reflexivity).
  assert (H3 : decimal_value (chars "32767") <= INT_MAX) by (vm_compute; discriminate).
  split; [exact H1 | split; [exact H2 | split; [exact H3 |]]].
  exact (proj1 extract_integer_signed_value Minus (chars "32767") (lit ",5") H1 H2 H3).
Defined.

(** C7, as stated, fails where the value does not fit an [int]: the digits
    of "99999999999" are folded with wrap-around. *)
Lemma extract_integer_overflow :
  Forall is_digit (chars "99999999999") /\ terminated [] /\
  decimal_value (chars "99999999999") = 99999999999 /\
  extract_integer (sign_chars NoSign ++ chars "99999999999" ++ []) = -6145 /\
  extract_integer (sign_chars NoSign ++ chars "99999999999" ++ []) <>
    sign_value NoSign * decimal_value (chars "99999999999").
Proof.
  split; [repeat constructor; vm_compute; discriminate|].
  split; [exact I|]. repeat split; vm_compute; congruence.
Qed.

End ParserFacts.

(** ** The ring buffers *)

Module RingFacts.
Import Ring.

Section Capacity.

Variable n : Z.
Hypothesis n_pos : 1 < n.

Lemma rem_succ (i : Z) : 0 <= i < n -> Z.rem (i + 1) n = (i + 1) mod n.
Proof. intros Hi. apply Z.rem_mod_nonneg; lia. Qed.

Lemma succ_mod (i : Z) :
  0 <= i < n -> (i + 1) mod n = if i + 1 =? n then 0 else i + 1.
Proof.
  intros Hi. destruct (Z.eqb_spec (i + 1) n) as [->|Hne].
  - apply Z.mod_same. lia.
  - apply Z.mod_small. lia.
Qed.

Lemma used_cases (b : circular_buffer) :
  valid n b ->
  used n b = if write b <? read b then write b - read b + n else write b - read b.
Proof.
  intros [Hr Hw]. unfold used. destruct (Z.ltb_spec (write b) (read b)).
  - rewrite <- (Z.mod_add _ 1 n) by lia. rewrite Z.mul_1_l. apply Z.mod_small. lia.
  - apply Z.mod_small. lia.
Qed.

Lemma used_range (b : circular_buffer) : valid n b -> 0 <= used n b <= n - 1.
Proof. intros Hv. unfold used. pose proof (Z.mod_pos_bound (write b - read b) n). lia. Qed.

Lemma used_empty (b : circular_buffer) : valid n b -> (used n b = 0 <-> read b = write b).
Proof.
  intros Hv. rewrite used_cases by assumption. destruct Hv as [Hr Hw].
  destruct (Z.ltb_spec (write b) (read b)); lia.
Qed.

(** A push into a buffer that is not full stores the character and
    advances the write index alone. *)
Lemma try_push_room (c : Z) (b : circular_buffer) :
  valid n b -> used n b < n - 1 ->
  try_push n c b =
    (true, mk_circular_buffer (len b) (store (buff b) (write b) c) (read b)
             ((write b + 1) mod n)) /\
  valid n (snd (try_push n c b)) /\ used n (snd (try_push n c b)) = used n b + 1.
Proof.
  intros Hv Hu. pose proof Hv as [Hr Hw].
  rewrite used_cases in Hu by assumption.
  assert (Hne : (write b + 1) mod n <> read b).
  { rewrite succ_mod by assumption.
    destruct (Z.eqb_spec (write b + 1) n); destruct (Z.ltb_spec (write b) (read b)); lia. }
  unfold try_push. rewrite rem_succ by assumption.
  destruct (Z.eqb_spec ((write b + 1) mod n) (read b)); [contradiction|].
  cbn [negb fst snd]. split; [reflexivity|].
  assert (Hv' : valid n (mk_circular_buffer (len b) (store (buff b) (write b) c) (read b)
                           ((write b + 1) mod n))).
  { split; cbn [read write]; [assumption|]. apply Z.mod_pos_bound. lia. }
  split; [assumption|].
  rewrite (used_cases _ Hv'), (used_cases _ Hv). cbn [read write].
  rewrite succ_mod by assumption.
  destruct (Z.eqb_spec (write b + 1) n); destruct (Z.ltb_spec (write b) (read b));
    destruct (Z.ltb_spec 0 (read b)); destruct (Z.ltb_spec (write b + 1) (read b)); lia.
Qed.

(** A push into a full buffer changes nothing. *)
Lemma try_push_full (c : Z) (b : circular_buffer) :
  valid n b -> used n b = n - 1 -> try_push n c b = (false, b).
Proof.
  intros Hv Hu. pose proof Hv as [Hr Hw].
  rewrite used_cases in Hu by assumption.
  unfold try_push. rewrite rem_succ, succ_mod by assumption.
  destruct (Z.eqb_spec (write b + 1) n); destruct (Z.ltb_spec (write b) (read b));
    match goal with |- context [Z.eqb ?u ?v] => destruct (Z.eqb_spec u v) end;
    try lia; reflexivity.
Qed.

(** A pop from a buffer that is not empty advances the read index alone. *)
Lemma try_pop_some (b : circular_buffer) :
  valid n b -> 0 < used n b ->
  let b' := mk_circular_buffer (len b) (buff b) ((read b + 1) mod n) (write b) in
  try_pop n b = Some (load (buff b) (read b), b') /\
  valid n b' /\ used n b' = used n b - 1.
Proof.
  intros Hv Hu. pose proof Hv as [Hr Hw].
  assert (Hne : read b <> write b).
  { intros Heq. apply used_empty in Heq; [lia | assumption]. }
  unfold try_pop. rewrite rem_succ by assumption.
  destruct (Z.eqb_spec (read b) (write b)); [contradiction|].
  cbn [negb]. split; [reflexivity|].
  assert (Hv' : valid n (mk_circular_buffer (len b) (buff b) ((read b + 1) mod n) (write b))).
  { split; cbn [read write]; [|assumption]. apply Z.mod_pos_bound. lia. }
  split; [assumption|].
  rewrite (used_cases _ Hv'), (used_cases _ Hv). cbn [read write].
  rewrite succ_mod by assumption.
  destruct (Z.eqb_spec (read b + 1) n); destruct (Z.ltb_spec (write b) (read b));
    destruct (Z.ltb_spec (write b) 0); destruct (Z.ltb_spec (write b) (read b + 1)); lia.
Qed.

(** As many pushes in a row succeed as there is room. *)
Lemma push_all_room (cs : list Z) : forall b : circular_buffer,
  valid n b -> used n b + Z.of_nat (length cs) <= n - 1 ->
  fst (push_all n cs b) = repeat true (length cs) /\
  valid n (snd (push_all n cs b)) /\
  used n (snd (push_all n cs b)) = used n b + Z.of_nat (length cs).
Proof.
  induction cs as [|c cs IH]; intros b Hv Hu.
  - cbn. split; [reflexivity | split; [assumption | lia]].
  - cbn [length] in Hu. cbn [push_all].
    destruct (try_push_room c b Hv) as (Hp & Hv1 & Hu1); [lia|].
    destruct (try_push n c b) as [ok b1]. cbn [fst snd] in *.
    injection Hp as -> _.
    destruct (IH b1 Hv1) as (Hoks & Hv2 & Hu2); [lia|].
    destruct (push_all n cs b1) as [oks b2]. cbn [fst snd length repeat] in *.
    split; [now rewrite Hoks | split; [assumption | lia]].
Qed.

Lemma pending_empty (fuel : nat) (b : circular_buffer) :
  read b = write b -> pending fuel n b = [].
Proof.
  intros He. destruct fuel; [reflexivity|]. cbn [pending]. unfold try_pop.
  rewrite He, Z.eqb_refl. reflexivity.
Qed.

(** First in, first out: a character pushed where there is room comes
    behind those that wait. *)
Lemma pending_push (c : Z) (fuel : nat) : forall b : circular_buffer,
  valid n b -> Z.of_nat (length (buff b)) = n ->
  used n b < n - 1 -> used n b < Z.of_nat fuel ->
  pending fuel n (snd (try_push n c b)) = pending fuel n b ++ [c].
Proof.
  induction fuel as [|f IH]; intros b Hv Hlen Hroom Hfuel.
  - pose proof (used_range b Hv). lia.
  - destruct (try_push_room c b Hv Hroom) as (Hp & Hv1 & Hu1).
    rewrite Hp in *. cbn [snd] in *.
    destruct (try_pop_some _ Hv1) as [Hpop1 _]; [pose proof (used_range b Hv); lia|].
    cbn [buff read write len] in Hpop1.
    pose proof Hv as [Hr Hw].
    destruct (Z.eq_dec (read b) (write b)) as [He|Hne].
    + rewrite (pending_empty (S f) b He).
      cbn [pending]. rewrite Hpop1. cbn [buff read write len app].
      rewrite He, load_store_same by lia.
      rewrite pending_empty; reflexivity.
    + assert (Hu : 0 < used n b).
      { pose proof (used_range b Hv). pose proof (used_empty b Hv). lia. }
      destruct (try_pop_some b Hv Hu) as (Hpop & Hv2 & Hu2).
      cbn [pending]. rewrite Hpop1, Hpop. cbn [app].
      rewrite load_store_other by lia. f_equal.
      rewrite <- IH; try assumption; try lia.
      destruct (try_push_room c _ Hv2) as (Hp2 & _); [lia|].
      rewrite Hp2. reflexivity.
Qed.

Lemma push_all_length_buff (cs : list Z) : forall b : circular_buffer,
  length (buff (snd (push_all n cs b))) = length (buff b) /\
  len (snd (push_all n cs b)) = len b.
Proof.
  induction cs as [|c cs IH]; intros b; [split; reflexivity|].
  cbn [push_all]. destruct (try_push n c b) as [ok b1] eqn:Hp.
  specialize (IH b1). destruct (push_all n cs b1) as [oks b2]. cbn [snd] in *.
  unfold try_push in Hp. destruct (negb _); injection Hp as <- <-; cbn [buff len] in IH;
    rewrite ?length_store in IH; assumption.
Qed.

(** Characters pushed in a row where there is room wait behind the others
    in the order of their arrival. *)
Lemma pending_push_all (cs : list Z) (fuel : nat) : forall b : circular_buffer,
  valid n b -> Z.of_nat (length (buff b)) = n ->
  used n b + Z.of_nat (length cs) <= n - 1 ->
  used n b + Z.of_nat (length cs) <= Z.of_nat fuel ->
  pending fuel n (snd (push_all n cs b)) = pending fuel n b ++ cs.
Proof.
  induction cs as [|c cs IH]; intros b Hv Hlen Hroom Hfuel.
  - cbn. now rewrite app_nil_r.
  - cbn [length] in *. cbn [push_all].
    destruct (try_push_room c b Hv) as (Hp & Hv1 & Hu1); [lia|].
    pose proof (pending_push c fuel b Hv Hlen) as Hpend.
    destruct (try_push n c b) as [ok b1]. cbn [fst snd] in *.
    assert (Hlen1 : Z.of_nat (length (buff b1)) = n).
    { injection Hp as _ ->. cbn [buff]. now rewrite length_store. }
    specialize (IH b1 Hv1 Hlen1).
    destruct (push_all n cs b1) as [oks b2]. cbn [snd] in *.
    rewrite IH, Hpend by lia. now rewrite <- app_assoc.
Qed.

End Capacity.

Lemma try_push_len (m c : Z) (b : circular_buffer) : len (snd (try_push m c b)) = len b.
Proof. unfold try_push. now destruct (negb _). Qed.

(** The receive interrupt pushes the characters in turn. *)
Lemma rx_push_all (cs : list Z) : forall b : circular_buffer,
  _U1RXInterrupt cs b = snd (push_all INPUT_BUFF_LEN cs b).
Proof.
  unfold _U1RXInterrupt.
  induction cs as [|c cs IH]; intros b; [reflexivity|].
  cbn [fold_left push_all]. rewrite IH.
  destruct (try_push INPUT_BUFF_LEN c b) as [ok b1]. cbn [snd].
  now destruct (push_all INPUT_BUFF_LEN cs b1).
Qed.

(** So does [print_to_buff] with the characters of its string. *)
Lemma print_to_buff_push_all (cs rest : list Z) : forall b : circular_buffer,
  Forall (fun c => c <> 0) cs ->
  print_to_buff (cs ++ 0 :: rest) b = snd (push_all (len b) cs b).
Proof.
  induction cs as [|c cs IH]; intros b Hcs; [reflexivity|].
  inversion Hcs as [|? ? Hc Hcs']; subst.
  cbn [app print_to_buff push_all].
  destruct (Z.eqb_spec c 0); [contradiction|].
  rewrite IH by assumption. rewrite try_push_len.
  destruct (try_push (len b) c b) as [ok b1]. cbn [snd].
  now destruct (push_all (len b) cs b1).
Qed.

(** A string printed where the buffer has room for all of it waits, whole
    and in order, behind what the buffer held. *)
Lemma contents_print_to_buff (cs : list Z) (b : circular_buffer) :
  Forall (fun c => c <> 0) cs ->
  1 < len b -> valid (len b) b -> Z.of_nat (length (buff b)) = len b ->
  used (len b) b + Z.of_nat (length cs) <= len b - 1 ->
  contents (print_to_buff (cs ++ [0]) b) = contents b ++ cs.
Proof.
  intros Hcs Hn Hv Hlen Hroom. unfold contents.
  rewrite print_to_buff_push_all by assumption.
  destruct (push_all_length_buff (len b) cs b) as [_ ->].
  apply pending_push_all; try assumption; lia.
Qed.

Lemma try_push_valid (m c : Z) (b : circular_buffer) :
  1 < m -> valid m b -> valid m (snd (try_push m c b)).
Proof.
  intros Hm Hv. unfold try_push. destruct (negb _); [|assumption].
  destruct Hv as [Hr Hw]. split; cbn [snd read write]; [assumption|].
  rewrite (rem_succ m Hm) by assumption. apply Z.mod_pos_bound. lia.
Qed.

Lemma rx_valid (received : list Z) : forall b : circular_buffer,
  valid INPUT_BUFF_LEN b -> valid INPUT_BUFF_LEN (_U1RXInterrupt received b).
Proof.
  unfold _U1RXInterrupt.
  induction received as [|c received IH]; intros b Hv; [assumption|].
  cbn [fold_left]. apply IH, try_push_valid; [reflexivity | assumption].
Qed.

End RingFacts.

(** ** The main loop *)

Module MainFacts.
Import Parser Ring Main ParserFacts RingFacts.

(** *** The sensor window *)

Lemma rem_succ_neq (i : Z) : i <> Z.rem (i + 1) N_MAG_READINGS.
Proof.
  unfold N_MAG_READINGS. pose proof (Z.quot_rem' (i + 1) 5). lia.
Qed.

(** The summing loop leaves after one turn, whatever the cursor: it starts
    at the cursor and stops at the slot behind it. *)
Lemma sum_loop_one_turn (fuel : nat) (m : MagReadings) (sum_reading : MagReading) :
  sum_loop (S fuel) m (w m) sum_reading =
    Some (add_reading sum_reading (get_reading m (w m))).
Proof.
  cbn [sum_loop].
  destruct (Z.eqb_spec (w m) (Z.rem (w m + 1) N_MAG_READINGS)) as [He|_].
  - now apply rem_succ_neq in He.
  - cbn [negb]. destruct fuel; cbn [sum_loop]; now rewrite Z.eqb_refl.
Qed.

(** The average that [acquire] reports is the fifth of one slot, the one
    the advanced cursor points at. *)
Lemma acquire_one_slot (m : MagReadings) (sample : MagReading) :
  let m' := mk_MagReadings (Z.rem (w m + 1) N_MAG_READINGS)
              (readings (set_reading m (w m) sample)) in
  let r := add_reading zero_reading (get_reading m' (w m')) in
  acquire m sample =
    Some (m', mk_MagReading (Z.quot (x r) N_MAG_READINGS) (Z.quot (y r) N_MAG_READINGS)
                (Z.quot (z r) N_MAG_READINGS)).
Proof.
  intros m' r.
  change (acquire m sample) with
    (match sum_loop 5 m' (w m') zero_reading with
     | None => None
     | Some sum_reading =>
         Some (m', mk_MagReading (Z.quot (x sum_reading) N_MAG_READINGS)
                     (Z.quot (y sum_reading) N_MAG_READINGS)
                     (Z.quot (z sum_reading) N_MAG_READINGS))
     end).
  now rewrite sum_loop_one_turn.
Qed.

(** C2 (the code departs from it): after an acquisition the average is the
    sum of the five slots divided by five.  With all five slots and the
    new sample at (100, 200, -300) the average asked for is that reading,
    and the code reports (20, 40, -60): the loop sums a single slot. *)
Theorem average_of_one_slot :
  exists m,
    acquire (window_of (mk_MagReading 100 200 (-300))) (mk_MagReading 100 200 (-300)) =
      Some (m, mk_MagReading 20 40 (-60)) /\
    window_average m = mk_MagReading 100 200 (-300).
Proof.
  exists (mk_MagReadings 1 (repeat (mk_MagReading 100 200 (-300)) 5)).
  split; vm_compute; reflexivity.
Qed.

(** *** Commands *)

Lemma is_valid_rate_In (rate : Z) :
  is_valid_rate rate = 1 <-> In rate valid_rates_values.
Proof.
  unfold is_valid_rate, valid_rates_values. cbn [is_valid_rate_loop In].
  repeat match goal with
    | |- context [Z.eqb ?a rate] => destruct (Z.eqb_spec a rate)
    end; split; intros H; try reflexivity; try discriminate; try lia.
  all: intuition lia.
Qed.

Lemma is_valid_rate_not_In (rate : Z) :
  is_valid_rate rate = 0 <-> ~ In rate valid_rates_values.
Proof.
  rewrite <- is_valid_rate_In. unfold is_valid_rate.
  induction valid_rates_values as [|v vs IH]; cbn [is_valid_rate_loop].
  - split; [discriminate | reflexivity].
  - destruct (v =? rate); [split; [discriminate | intros H; now elim H] | exact IH].
Qed.

(** [strcmp] is zero exactly when the two arrays hold the same string. *)
Lemma strcmp_c_str (a : list Z) : forall b, strcmp a b = 0 <-> c_str a = c_str b.
Proof.
  induction a as [|c a IH]; intros b.
  - cbn [strcmp c_str]. destruct b as [|d b]; cbn [hd c_str]; [easy|].
    destruct (Z.eqb_spec d 0); split; intros H; try lia; try reflexivity; discriminate.
  - cbn [strcmp c_str]. destruct b as [|d b]; cbn [hd tl c_str].
    + destruct (Z.eqb_spec c 0); [easy|]. split; [lia | discriminate].
    + destruct (Z.eqb_spec c d) as [->|Hne].
      * destruct (Z.eqb_spec d 0); [easy|]. rewrite IH. split; congruence.
      * destruct (Z.eqb_spec c 0); destruct (Z.eqb_spec d 0); subst;
          split; intros H; try lia; try discriminate; congruence.
Qed.

Lemma chars_ERR_nonzero : Forall (fun c => c <> 0) (chars "$ERR,1*").
Proof. repeat constructor; discriminate. Qed.

(** C4: on a completed frame whose type is "RATE", a payload value among
    0, 1, 2, 4, 5, 10 becomes the telemetry rate and nothing is printed;
    any other value leaves the rate as it is and hands "$ERR,1*" to the
    output buffer, whose waiting characters grow by exactly these seven
    when it has room for them. *)
Theorem rate_command (s : main_state) (printed : list (list Z)) (byte : Z) :
  snd (parse_byte (pstate s) byte) = NEW_MESSAGE ->
  c_str (msg_type (fst (parse_byte (pstate s) byte))) = chars "RATE" ->
  let rate := extract_integer (msg_payload (fst (parse_byte (pstate s) byte))) in
  let c := handle_byte byte (s, printed) in
  (In rate [0; 1; 2; 4; 5; 10] ->
     print_mag_rate (fst c) = rate /\ snd c = printed /\
     UART_output_buff (fst c) = UART_output_buff s) /\
  (~ In rate [0; 1; 2; 4; 5; 10] ->
     print_mag_rate (fst c) = print_mag_rate s /\ snd c = printed ++ [lit "$ERR,1*"] /\
     UART_output_buff (fst c) = print_to_buff (lit "$ERR,1*") (UART_output_buff s) /\
     (has_room 7 (UART_output_buff s) ->
        contents (UART_output_buff (fst c)) =
          contents (UART_output_buff s) ++ chars "$ERR,1*")).
Proof.
  intros Hnew Htype rate c. subst rate c. unfold handle_byte. cbn [fst snd].
  destruct (parse_byte (pstate s) byte) as [ps status]. cbn [fst snd] in *. subst status.
  assert (Hcmp : strcmp (msg_type ps) (lit "RATE") = 0).
  { apply strcmp_c_str. rewrite Htype. reflexivity. }
  rewrite Hcmp. cbn [Z.eqb].
  split; intros Hin.
  - apply is_valid_rate_In in Hin. rewrite Hin. cbn. repeat split.
  - apply is_valid_rate_not_In in Hin. rewrite Hin. cbn [Z.eqb negb].
    unfold print. cbn [fst snd print_mag_rate UART_output_buff set_pstate
                         set_UART_output_buff].
    repeat split. intros (Hn & Hv & Hlen & Hroom).
    apply (contents_print_to_buff (chars "$ERR,1*")); try assumption.
    apply chars_ERR_nonzero.
Qed.

Lemma rate_command_witness :
  snd (parse_byte (pstate (main_parsing (chars "$RATE,3"))) (chr "*")) = NEW_MESSAGE /\
  c_str (msg_type (fst (parse_byte (pstate (main_parsing (chars "$RATE,3"))) (chr "*")))) =
    chars "RATE" /\
  ~ In (extract_integer
          (msg_payload (fst (parse_byte (pstate (main_parsing (chars "$RATE,3"))) (chr "*")))))
       [0; 1; 2; 4; 5; 10] /\
  has_room 7 (UART_output_buff (main_parsing (chars "$RATE,3"))) /\
  print_mag_rate (fst (handle_byte (chr "*") (main_parsing (chars "$RATE,3"), []))) = 5 /\
  snd (handle_byte (chr "*") (main_parsing (chars "$RATE,3"), [])) = [lit "$ERR,1*"] /\
  contents (UART_output_buff (fst (handle_byte (chr "*") (main_parsing (chars "$RATE,3"), []))))
    = chars "$ERR,1*".
Proof.
  assert (H1 : snd (parse_byte (pstate (main_parsing (chars "$RATE,3"))) (chr "*"))
               = NEW_MESSAGE) by reflexivity.
  assert (H2 : c_str (msg_type (fst (parse_byte (pstate (main_parsing (chars "$RATE,3")))
                                       (chr "*")))) = chars "RATE") by reflexivity.
  assert (H3 : ~ In (extract_integer
                       (msg_payload (fst (parse_byte (pstate (main_parsing (chars "$RATE,3")))
                                            (chr "*")))))
                    [0; 1; 2; 4; 5; 10]).
  { vm_compute. intuition discriminate. }
  assert (H4 : has_room 7 (UART_output_buff (main_parsing (chars "$RATE,3")))).
  { vm_compute. intuition discriminate. }
  split; [exact H1 | split; [exact H2 | split; [exact H3 | split; [exact H4 |]]]].
  destruct (proj2 (rate_command (main_parsing (chars "$RATE,3")) [] (chr "*") H1 H2) H3)
    as (Hr & Hp & _ & Hc).
  split; [exact Hr | split; [exact Hp | exact (Hc H4)]].
Defined.

(** *** Draining the input buffer *)

(** Printing touches the output buffer and the list of printed strings,
    whatever the string. *)
Lemma print_set_input (str : list Z) (s : main_state) (printed : list (list Z))
    (ib : circular_buffer) :
  print str (set_UART_input_buff ib s, printed) =
    (set_UART_input_buff ib (fst (print str (s, printed))), snd (print str (s, printed))).
Proof. reflexivity. Qed.

Lemma print_fields (str : list Z) (c : mcfg) :
  UART_input_buff (fst (print str c)) = UART_input_buff (fst c) /\
  print_mag_rate (fst (print str c)) = print_mag_rate (fst c) /\
  print_mag_counter (fst (print str c)) = print_mag_counter (fst c) /\
  snd (print str c) = snd c ++ [str].
Proof. repeat split. Qed.

Lemma handle_byte_set_input (byte : Z) (s : main_state) (printed : list (list Z))
    (ib : circular_buffer) :
  handle_byte byte (set_UART_input_buff ib s, printed) =
    (set_UART_input_buff ib (fst (handle_byte byte (s, printed))),
     snd (handle_byte byte (s, printed))).
Proof.
  unfold handle_byte. cbn [fst snd pstate set_UART_input_buff].
  destruct (parse_byte (pstate s) byte) as [ps status].
  destruct status; [reflexivity|].
  destruct (strcmp (msg_type ps) (lit "RATE") =? 0); [|reflexivity].
  destruct (negb (is_valid_rate (extract_integer (msg_payload ps)) =? 0)); [reflexivity|].
  apply (print_set_input _ (set_pstate ps s)).
Qed.

Lemma handle_byte_input (byte : Z) (c : mcfg) :
  UART_input_buff (fst (handle_byte byte c)) = UART_input_buff (fst c).
Proof.
  unfold handle_byte. destruct c as [s printed]. cbn [fst snd].
  destruct (parse_byte (pstate s) byte) as [ps status].
  destruct status; [reflexivity|].
  destruct (strcmp (msg_type ps) (lit "RATE") =? 0); [|reflexivity].
  destruct (negb (is_valid_rate (extract_integer (msg_payload ps)) =? 0)); [reflexivity|].
  apply (print_fields _ (set_pstate ps s, printed)).
Qed.

Lemma handle_bytes_set_input (bytes : list Z) : forall s printed ib,
  handle_bytes bytes (set_UART_input_buff ib s, printed) =
    (set_UART_input_buff ib (fst (handle_bytes bytes (s, printed))),
     snd (handle_bytes bytes (s, printed))).
Proof.
  unfold handle_bytes.
  induction bytes as [|b bytes IH]; intros s printed ib; [reflexivity|].
  cbn [fold_left]. rewrite handle_byte_set_input.
  destruct (handle_byte b (s, printed)) as [s1 printed1]. cbn [fst snd]. apply IH.
Qed.

Lemma set_input_same (s : main_state) :
  read (UART_input_buff s) = write (UART_input_buff s) ->
  set_UART_input_buff (drained (UART_input_buff s)) s = s.
Proof.
  destruct s as [? ? ? ? ? ? ? ? ? [l b r wr] ? ?]. cbn. now intros ->.
Qed.

(** The loop over the input buffer hands the waiting characters, oldest
    first, to [handle_byte] and leaves the buffer empty; as many turns as
    the buffer has places are enough. *)
Lemma drain_pending (fuel : nat) : forall (s : main_state) (printed : list (list Z)),
  valid INPUT_BUFF_LEN (UART_input_buff s) ->
  used INPUT_BUFF_LEN (UART_input_buff s) <= Z.of_nat fuel ->
  drain fuel (s, printed) =
    Some (set_UART_input_buff (drained (UART_input_buff s))
            (fst (handle_bytes (pending fuel INPUT_BUFF_LEN (UART_input_buff s)) (s, printed))),
          snd (handle_bytes (pending fuel INPUT_BUFF_LEN (UART_input_buff s)) (s, printed))).
Proof.
  assert (Hn : 1 < INPUT_BUFF_LEN) by reflexivity.
  induction fuel as [|f IH]; intros s printed Hv Hu.
  - assert (He : read (UART_input_buff s) = write (UART_input_buff s)).
    { apply (used_empty _ Hn _ Hv). pose proof (used_range _ Hn _ Hv). lia. }
    cbn [drain pending handle_bytes fold_left fst snd].
    rewrite He, Z.eqb_refl. cbn [negb]. now rewrite set_input_same.
  - destruct (Z.eq_dec (read (UART_input_buff s)) (write (UART_input_buff s))) as [He|Hne].
    + rewrite pending_empty by assumption.
      cbn [drain handle_bytes fold_left fst snd].
      rewrite He, Z.eqb_refl. cbn [negb]. now rewrite set_input_same.
    + assert (Hpos : 0 < used INPUT_BUFF_LEN (UART_input_buff s)).
      { pose proof (used_range _ Hn _ Hv). pose proof (used_empty _ Hn _ Hv). lia. }
      destruct (try_pop_some _ Hn _ Hv Hpos) as (Hpop & Hv1 & Hu1).
      cbn [drain pending fst snd]. rewrite Hpop.
      destruct (Z.eqb_spec (read (UART_input_buff s)) (write (UART_input_buff s)));
        [contradiction|].
      cbn [negb]. rewrite handle_byte_input. cbn [fst].
      rewrite (rem_succ _ Hn) by apply Hv.
      set (ib1 := mk_circular_buffer _ _ _ _) in *.
      set (c1 := handle_byte _ (s, printed)).
      rewrite IH; cbn [UART_input_buff set_UART_input_buff]; try assumption; try lia.
      unfold handle_bytes at 3 4. cbn [fold_left]. fold c1.
      fold (handle_bytes (pending f INPUT_BUFF_LEN ib1) c1).
      clearbody c1. destruct c1 as [s1 printed1]. cbn [fst snd].
      rewrite handle_bytes_set_input. reflexivity.
Qed.

(** Characters received into an empty input buffer and taken out by the
    loop go through [handle_byte] in their order. *)
Lemma rx_then_drain (bytes : list Z) (s : main_state) (printed : list (list Z)) :
  valid INPUT_BUFF_LEN (UART_input_buff s) ->
  read (UART_input_buff s) = write (UART_input_buff s) ->
  Z.of_nat (length (buff (UART_input_buff s))) = INPUT_BUFF_LEN ->
  (length bytes <= 9)%nat ->
  drain (Z.to_nat INPUT_BUFF_LEN)
        (set_UART_input_buff (_U1RXInterrupt bytes (UART_input_buff s)) s, printed) =
    Some (set_UART_input_buff (drained (_U1RXInterrupt bytes (UART_input_buff s)))
            (fst (handle_bytes bytes (s, printed))),
          snd (handle_bytes bytes (s, printed))).
Proof.
  intros Hv He Hlen Hbytes.
  assert (Hn : 1 < INPUT_BUFF_LEN) by reflexivity.
  assert (Hu : used INPUT_BUFF_LEN (UART_input_buff s) = 0) by now apply used_empty.
  destruct (push_all_room _ Hn bytes _ Hv) as (_ & Hv1 & Hu1).
  { rewrite Hu. unfold INPUT_BUFF_LEN. lia. }
  rewrite drain_pending; cbn [UART_input_buff set_UART_input_buff];
    rewrite rx_push_all; try assumption.
  - rewrite (pending_push_all _ Hn); try assumption;
      try (rewrite Hu; unfold INPUT_BUFF_LEN; cbn; lia).
    rewrite pending_empty by assumption. cbn [app].
    rewrite handle_bytes_set_input. cbn [fst snd]. reflexivity.
  - rewrite Hu1, Hu. unfold INPUT_BUFF_LEN. cbn. lia.
Qed.

Lemma handle_rate_empty (frame : list Z) (s : main_state) (printed : list (list Z)) :
  frame = chars "$RATE,*" \/ frame = chars "$RATE*" ->
  state (pstate s) = STATE_DOLLAR -> sized (pstate s) ->
  let c := handle_bytes frame (s, printed) in
  print_mag_rate (fst c) = 0 /\ snd c = printed /\
  UART_output_buff (fst c) = UART_output_buff s /\
  message (pstate (fst c)) = (chars "RATE", []) /\
  extract_integer (msg_payload (pstate (fst c))) = 0.
Proof.
  intros Hframe Hs [Hlt Hlp].
  destruct s as [rate mr c1 c2 c3 c4 avg yaw [st mt mp it ip] ib ob led].
  cbn in Hs, Hlt, Hlp. subst st.
  destruct mt as [|t0 [|t1 [|t2 [|t3 [|t4 [|t5 [|t6 [|]]]]]]]]; try discriminate.
  destruct mp as [|p0 mp]; [discriminate|].
  destruct Hframe as [-> | ->]; vm_compute; repeat split.
Qed.
(** C9: a RATE frame with an empty payload, [$RATE,*] or [$RATE*], received
    into the empty input buffer while the parser awaits a start, is read as
    the value 0, which is an allowed rate: the telemetry rate becomes 0,
    nothing is printed, and the magnetometer task prints no more. *)
Theorem rate_empty_payload_disables (frame : list Z) (s : main_state) :
  frame = chars "$RATE,*" \/ frame = chars "$RATE*" ->
  state (pstate s) = STATE_DOLLAR -> sized (pstate s) ->
  valid INPUT_BUFF_LEN (UART_input_buff s) ->
  read (UART_input_buff s) = write (UART_input_buff s) ->
  Z.of_nat (length (buff (UART_input_buff s))) = INPUT_BUFF_LEN ->
  exists s',
    drain (Z.to_nat INPUT_BUFF_LEN)
          (set_UART_input_buff (_U1RXInterrupt frame (UART_input_buff s)) s, []) =
      Some (s', []) /\
    message (pstate s') = (chars "RATE", []) /\
    extract_integer (msg_payload (pstate s')) = 0 /\
    In 0 valid_rates_values /\
    print_mag_rate s' = 0 /\
    UART_output_buff s' = UART_output_buff s /\
    mag_task (s', []) = (s', []).
Proof.
  intros Hframe Hs Hsz Hv He Hlen.
  destruct (handle_rate_empty frame s [] Hframe Hs Hsz) as (Hrate & Hpr & Hob & Hmsg & Hval).
  rewrite rx_then_drain; try assumption.
  - rewrite Hpr. eexists. split; [reflexivity|].
    cbn [pstate print_mag_rate UART_output_buff set_UART_input_buff].
    repeat split; try assumption.
    + now left.
    + unfold mag_task. cbn [fst print_mag_rate set_UART_input_buff]. now rewrite Hrate.
  - destruct Hframe as [-> | ->]; cbn; lia.
Qed.

Lemma rate_empty_payload_disables_witness :
  (chars "$RATE,*" = chars "$RATE,*" \/ chars "$RATE,*" = chars "$RATE*") /\
  state (pstate (main_parsing [])) = STATE_DOLLAR /\
  sized (pstate (main_parsing [])) /\
  valid INPUT_BUFF_LEN (UART_input_buff (main_parsing [])) /\
  read (UART_input_buff (main_parsing [])) = write (UART_input_buff (main_parsing [])) /\
  Z.of_nat (length (buff (UART_input_buff (main_parsing [])))) = INPUT_BUFF_LEN /\
  exists s',
    drain (Z.to_nat INPUT_BUFF_LEN)
          (set_UART_input_buff
             (_U1RXInterrupt (chars "$RATE,*") (UART_input_buff (main_parsing [])))
             (main_parsing []), []) = Some (s', []) /\
    print_mag_rate s' = 0.
Proof.
  assert (H1 : chars "$RATE,*" = chars "$RATE,*" \/ chars "$RATE,*" = chars "$RATE*")
    by (left; reflexivity).
  assert (H2 : state (pstate (main_parsing [])) = STATE_DOLLAR) by reflexivity.
  assert (H3 : sized (pstate (main_parsing []))) by (split; reflexivity).
  assert (H4 : valid INPUT_BUFF_LEN (UART_input_buff (main_parsing [])))
    by (vm_compute; intuition discriminate).
  assert (H5 : read (UART_input_buff (main_parsing []))
               = write (UART_input_buff (main_parsing []))) by reflexivity.
  assert (H6 : Z.of_nat (length (buff (UART_input_buff (main_parsing [])))) = INPUT_BUFF_LEN)
    by reflexivity.
  split; [exact H1 | split; [exact H2 | split; [exact H3 | split; [exact H4 |
    split; [exact H5 | split; [exact H6 |]]]]]].
  destruct (rate_empty_payload_disables (chars "$RATE,*") (main_parsing []) H1 H2 H3 H4 H5 H6)
    as (s' & Hd & _ & _ & _ & Hr & _).
  exists s'. split; [exact Hd | exact Hr].
Defined.

(** *** The cadence of the magnetometer frames *)

Lemma count_mag_app (printed : list (list Z)) (str : list Z) :
  count_mag (printed ++ [str]) = (count_mag printed + if is_mag str then 1 else 0)%nat.
Proof.
  unfold count_mag. rewrite List.filter_app, length_app. cbn [List.filter].
  now destruct (is_mag str).
Qed.

Lemma is_mag_sprintf_mag (a : MagReading) : is_mag (sprintf_mag a) = true.
Proof. reflexivity. Qed.

Lemma is_mag_sprintf_yaw (d : Z) : is_mag (sprintf_yaw d) = false.
Proof. reflexivity. Qed.


(** What the cadence depends on: the rate, the counter of the magnetometer
    task, the input buffer, and how many [$MAG] frames were printed. *)
Lemma led_task_view (c : mcfg) :
  print_mag_rate (fst (led_task c)) = print_mag_rate (fst c) /\
  print_mag_counter (fst (led_task c)) = print_mag_counter (fst c) /\
  UART_input_buff (fst (led_task c)) = UART_input_buff (fst c) /\
  snd (led_task c) = snd c.
Proof. unfold led_task. destruct (_ >=? _); repeat split. Qed.

Lemma acquire_task_view (heading : Z -> Z -> Z) (sample : MagReading) (c : mcfg) :
  exists c', acquire_task heading sample c = Some c' /\
    print_mag_rate (fst c') = print_mag_rate (fst c) /\
    print_mag_counter (fst c') = print_mag_counter (fst c) /\
    UART_input_buff (fst c') = UART_input_buff (fst c) /\
    snd c' = snd c.
Proof.
  unfold acquire_task. destruct (_ >=? _).
  - rewrite acquire_one_slot. eexists. split; [reflexivity|]. repeat split.
  - eexists. split; [reflexivity|]. repeat split.
Qed.

Lemma yaw_task_view (c : mcfg) :
  print_mag_rate (fst (yaw_task c)) = print_mag_rate (fst c) /\
  print_mag_counter (fst (yaw_task c)) = print_mag_counter (fst c) /\
  UART_input_buff (fst (yaw_task c)) = UART_input_buff (fst c) /\
  count_mag (snd (yaw_task c)) = count_mag (snd c).
Proof.
  unfold yaw_task. destruct (_ >=? _); [|repeat split].
  destruct (print_fields (sprintf_yaw (yaw_deg (fst c)))
              (set_print_yaw_counter 0 (fst c), snd c)) as (-> & -> & -> & ->).
  rewrite count_mag_app, is_mag_sprintf_yaw. cbn [fst snd]. repeat split. lia.
Qed.

(** The magnetometer task: silent at rate 0; else it counts, and prints
    one frame when the count reaches [main_hz / rate]. *)
Lemma mag_task_view (c : mcfg) :
  print_mag_rate (fst (mag_task c)) = print_mag_rate (fst c) /\
  UART_input_buff (fst (mag_task c)) = UART_input_buff (fst c) /\
  (print_mag_rate (fst c) = 0 ->
     print_mag_counter (fst (mag_task c)) = print_mag_counter (fst c) /\
     count_mag (snd (mag_task c)) = count_mag (snd c)) /\
  (print_mag_rate (fst c) <> 0 ->
     if print_mag_counter (fst c) + 1 >=? Z.quot main_hz (print_mag_rate (fst c)) then
       print_mag_counter (fst (mag_task c)) = 0 /\
       count_mag (snd (mag_task c)) = S (count_mag (snd c))
     else
       print_mag_counter (fst (mag_task c)) = print_mag_counter (fst c) + 1 /\
       count_mag (snd (mag_task c)) = count_mag (snd c)).
Proof.
  unfold mag_task. destruct (Z.eqb_spec (print_mag_rate (fst c)) 0) as [He|Hne]; cbn [negb].
  - repeat split. intros H. contradiction.
  - destruct (_ >=? _).
    + destruct (print_fields (sprintf_mag (avg_reading (fst c)))
                  (set_print_mag_counter 0 (fst c), snd c)) as (-> & -> & -> & ->).
      rewrite count_mag_app, is_mag_sprintf_mag. cbn [fst snd].
      repeat split; try contradiction; lia.
    + repeat split; try contradiction.
Qed.




(** A tick ends when the indices of the input buffer are inside it, and
    leaves them so. *)
Lemma tick_total (heading : Z -> Z -> Z) (s : main_state) (sample : MagReading) :
  valid INPUT_BUFF_LEN (UART_input_buff s) ->
  exists c', tick heading s sample = Some c' /\
             valid INPUT_BUFF_LEN (UART_input_buff (fst c')).
Proof.
  unfold tick. intros Hv.
  destruct (led_task_view (s, [])) as (_ & _ & Hi0 & _). cbn [fst] in Hi0.
  destruct (acquire_task_view heading sample (led_task (s, []))) as (c1 & Ha & _ & _ & Hi1 & _).
  rewrite Ha.
  destruct (mag_task_view c1) as (_ & Hi2 & _).
  destruct (yaw_task_view (mag_task c1)) as (_ & _ & Hi3 & _).
  assert (Hi : UART_input_buff (fst (yaw_task (mag_task c1))) = UART_input_buff s) by congruence.
  destruct (yaw_task (mag_task c1)) as [s3 p3]. cbn [fst] in Hi.
  rewrite drain_pending; rewrite ?Hi; try assumption.
  - eexists. split; [reflexivity|]. cbn [fst UART_input_buff set_UART_input_buff].
    destruct Hv as [_ Hw]. split; exact Hw.
  - pose proof (used_range INPUT_BUFF_LEN eq_refl _ Hv). unfold INPUT_BUFF_LEN in *.
    cbn. lia.
Qed.

(** So does every run. *)
Lemma run_total (heading : Z -> Z -> Z) (inputs : list (list Z * MagReading)) :
  forall s : main_state,
  valid INPUT_BUFF_LEN (UART_input_buff s) ->
  exists r, run heading s inputs = Some r /\ length (snd r) = length inputs.
Proof.
  induction inputs as [|[received sample] inputs IH]; intros s Hv.
  - eexists. split; reflexivity.
  - cbn [run].
    destruct (tick_total heading
                (set_UART_input_buff (_U1RXInterrupt received (UART_input_buff s)) s) sample)
      as ([s1 p1] & Ht & Hv1).
    { cbn [UART_input_buff set_UART_input_buff]. now apply rx_valid. }
    rewrite Ht. destruct (IH s1 Hv1) as ([s2 later] & Hrun & Hlen).
    rewrite Hrun. eexists. split; [reflexivity|]. cbn [snd length] in *. now rewrite Hlen.
Qed.





(** Forty quiet ticks from the start of the loop: a [$MAG] frame in the
    20th and in the 40th. *)
Example mag_counts_rate_5 :
  mag_counts (fun _ _ => 0) (main_parsing []) (quiet_inputs 40) =
    Some (repeat 0%nat 19 ++ [1%nat] ++ repeat 0%nat 19 ++ [1%nat]).
Proof. vm_compute. reflexivity. Qed.

(** The command [$RATE,10*] arrives before the first tick: from then on a
    [$MAG] frame every 10 ticks. *)
Example mag_counts_rate_10 :
  mag_counts (fun _ _ => 0) (main_parsing [])
             ((chars "$RATE,10*", zero_reading) :: quiet_inputs 29) =
    Some (repeat 0%nat 9 ++ [1%nat] ++ repeat 0%nat 9 ++ [1%nat] ++ repeat 0%nat 9 ++ [1%nat]).
Proof. vm_compute. reflexivity. Qed.

(** The command [$RATE,3*] is refused: "$ERR,1*" is printed in the tick
    that reads it and the rate stays 5. *)
Example rate_3_refused :
  option_map (fun r => (print_mag_rate (fst r), snd r))
             (run (fun _ _ => 0) (main_parsing []) [(chars "$RATE,3*", zero_reading)]) =
    Some (5, [[lit "$ERR,1*"]]).
Proof. vm_compute. reflexivity. Qed.

End MainFacts.

(** ** More on the parser *)

Module ParserStream.
Import Parser ParserFacts.

(** While a start is awaited, bytes other than ['$'] change nothing. *)
Lemma feed_noise (bytes : list Z) (ps : parser_state) :
  state ps = STATE_DOLLAR -> noise bytes -> feed ps bytes = (ps, []).
Proof.
  intros Hs. induction 1 as [|c bytes Hc _ IH]; [reflexivity|].
  rewrite feed_cons, parse_other by assumption. cbn [fst snd]. now rewrite IH.
Qed.

Lemma feed_accepted (f : wire_frame) (ps : parser_state) :
  state ps = STATE_DOLLAR -> sized ps -> accepted f ->
  exists ps', feed ps (frame_bytes f) = (ps', [frame_message f]) /\
              state ps' = STATE_DOLLAR /\ sized ps'.
Proof.
  intros Hs Hsz Hf. destruct f as [T P|T]; cbn [accepted frame_bytes frame_message] in *.
  - destruct Hf as (HT & HTz & HTl & HP & HPz & HPl). now apply feed_frame.
  - destruct Hf as (HT & HTz & HTl). now apply feed_frame_nopayload.
Qed.

Lemma feed_stream (items : list (list Z * wire_frame)) (tail : list Z) :
  forall ps : parser_state,
  state ps = STATE_DOLLAR -> sized ps ->
  Forall (fun item => noise (fst item) /\ accepted (snd item)) items -> noise tail ->
  exists ps', feed ps (stream items tail) = (ps', map (fun item => frame_message (snd item)) items)
              /\ state ps' = STATE_DOLLAR /\ sized ps'.
Proof.
  induction items as [|[before f] items IH]; intros ps Hs Hsz Hitems Htail.
  - cbn [stream map]. rewrite feed_noise by assumption. now exists ps.
  - inversion Hitems as [|? ? [Hn Hf] Hrest]; subst. cbn [fst snd] in *.
    destruct (feed_accepted f ps Hs Hsz Hf) as (ps1 & Hf1 & Hs1 & Hsz1).
    destruct (IH ps1 Hs1 Hsz1 Hrest Htail) as (ps2 & Hf2 & Hs2 & Hsz2).
    exists ps2. cbn [stream map snd].
    rewrite feed_app, (feed_noise before ps Hs Hn). cbn [fst snd app].
    rewrite feed_app, Hf1. cbn [fst snd]. rewrite Hf2. cbn [fst snd app].
    split; [reflexivity | split; assumption].
Qed.

(** X1: frames on the wire, each of a shape the parser takes, with bytes
    other than ['$'] before, between and behind them, fed to a parser that
    awaits a start, are reported one message each, in their order, with
    their types and payloads; the parser awaits a start again. *)
Theorem stream_of_frames_reported (items : list (list Z * wire_frame)) (tail : list Z)
    (ps : parser_state) :
  state ps = STATE_DOLLAR -> sized ps ->
  Forall (fun item => noise (fst item) /\ accepted (snd item)) items -> noise tail ->
  snd (feed ps (stream items tail)) = map (fun item => frame_message (snd item)) items /\
  state (fst (feed ps (stream items tail))) = STATE_DOLLAR.
Proof.
  intros Hs Hsz Hitems Htail.
  destruct (feed_stream items tail ps Hs Hsz Hitems Htail) as (ps' & Hf & Hs' & _).
  now rewrite Hf.
Qed.

(** At a hundred characters every byte other than ['*'] aborts. *)
Lemma parse_payload_full ps c :
  state ps = STATE_PAYLOAD -> index_payload ps = 100 -> payload_char c ->
  parse_byte ps c =
    (mk_parser_state STATE_DOLLAR (msg_type ps) (msg_payload ps) (index_type ps) 0,
     NO_MESSAGE).
Proof. intros Hs Hi Hc. parse_step ps. Qed.

(** A start, a type, a comma and 101 characters without ['*']: the last
    one aborts the frame. *)
Lemma feed_long_payload (ps : parser_state) (T P : list Z) (c : Z) :
  state ps = STATE_DOLLAR -> sized ps ->
  Forall token_char T -> (length T <= 6)%nat ->
  Forall payload_char P -> length P = 100%nat -> payload_char c ->
  exists ps', feed ps (chr "$" :: T ++ chr "," :: P ++ [c]) = (ps', []) /\
              state ps' = STATE_DOLLAR /\ sized ps'.
Proof.
  intros Hs [Hlt Hlp] HT HTl HP HPl Hc.
  rewrite feed_cons, parse_dollar by assumption. cbn [fst snd].
  rewrite feed_app.
  rewrite (feed_type_chars T _ 0%nat) by (try assumption; try reflexivity; lia).
  cbn [fst snd]. rewrite feed_cons, parse_type_comma by reflexivity.
  cbn [fst snd state msg_type msg_payload index_type index_payload].
  rewrite feed_app.
  rewrite (feed_payload_chars P _ 0%nat) by (try assumption; try reflexivity; lia).
  cbn [fst snd]. rewrite feed_cons, parse_payload_full.
  - cbn [fst snd feed]. eexists. split; [reflexivity|]. split; [reflexivity|].
    split; cbn [msg_type msg_payload]; rewrite ?length_store, ?length_inserts; assumption.
  - reflexivity.
  - cbn [index_payload]. rewrite HPl. reflexivity.
  - assumption.
Qed.

(** Closed goals over explicit strings. *)
Ltac concrete :=
  repeat first
    [ split | apply Forall_nil | apply Forall_cons | reflexivity
    | (vm_compute; discriminate) | (vm_compute; lia) ].

Lemma stream_of_frames_reported_witness :
  state pstate_init = STATE_DOLLAR /\ sized pstate_init /\
  Forall (fun item => noise (fst item) /\ accepted (snd item))
    [(chars "ab", WithPayload (chars "RATE") (chars "10")); ([], NoPayload (chars "PING"))] /\
  noise (chars "yz") /\
  snd (feed pstate_init
         (stream [(chars "ab", WithPayload (chars "RATE") (chars "10"));
                  ([], NoPayload (chars "PING"))] (chars "yz"))) =
    [(chars "RATE", chars "10"); (chars "PING", [])].
Proof.
  assert (H1 : state pstate_init = STATE_DOLLAR) by reflexivity.
  assert (H2 : sized pstate_init) by (split; reflexivity).
  assert (H3 : Forall (fun item => noise (fst item) /\ accepted (snd item))
                 [(chars "ab", WithPayload (chars "RATE") (chars "10"));
                  ([], NoPayload (chars "PING"))]) by concrete.
  assert (H4 : noise (chars "yz")) by concrete.
  split; [exact H1 | split; [exact H2 | split; [exact H3 | split; [exact H4 |]]]].
  exact (proj1 (stream_of_frames_reported _ _ _ H1 H2 H3 H4)).
Defined.

(** X2: a payload that goes beyond 100 characters aborts the frame at its
    101st character: no message is reported for it, and the frames that
    follow are reported as usual. *)
Theorem long_payload_aborts (ps : parser_state) (T P : list Z) (c : Z)
    (items : list (list Z * wire_frame)) (tail : list Z) :
  state ps = STATE_DOLLAR -> sized ps ->
  Forall token_char T -> (length T <= 6)%nat ->
  Forall payload_char P -> length P = 100%nat -> payload_char c ->
  Forall (fun item => noise (fst item) /\ accepted (snd item)) items -> noise tail ->
  feed ps (chr "$" :: T ++ chr "," :: P ++ [c]) =
    (mk_parser_state STATE_DOLLAR
       (store (list_inserts 0 T (msg_type ps)) (Z.of_nat (length T)) 0)
       (list_inserts 0 P (msg_payload ps)) (Z.of_nat (length T)) 0, []) /\
  snd (feed ps ((chr "$" :: T ++ chr "," :: P ++ [c]) ++ stream items tail)) =
    map (fun item => frame_message (snd item)) items.
Proof.
  intros Hs Hsz HT HTl HP HPl Hc Hitems Htail.
  destruct (feed_long_payload ps T P c Hs Hsz HT HTl HP HPl Hc) as (ps1 & Hf1 & Hs1 & Hsz1).
  split.
  - destruct Hsz as [Hlt Hlp].
    rewrite feed_cons, parse_dollar by assumption. cbn [fst snd].
    rewrite feed_app.
    rewrite (feed_type_chars T _ 0%nat) by (try assumption; try reflexivity; lia).
    cbn [fst snd]. rewrite feed_cons, parse_type_comma by reflexivity.
    cbn [fst snd state msg_type msg_payload index_type index_payload].
    rewrite feed_app.
    rewrite (feed_payload_chars P _ 0%nat) by (try assumption; try reflexivity; lia).
    cbn [fst snd]. rewrite feed_cons, parse_payload_full.
    + reflexivity.
    + reflexivity.
    + cbn [index_payload]. rewrite HPl. reflexivity.
    + assumption.
  - rewrite feed_app, Hf1. cbn [fst snd app].
    destruct (feed_stream items tail ps1 Hs1 Hsz1 Hitems Htail) as (ps2 & Hf2 & _).
    now rewrite Hf2.
Qed.

Lemma long_payload_aborts_witness :
  state pstate_init = STATE_DOLLAR /\ sized pstate_init /\
  Forall token_char (chars "RATE") /\ (length (chars "RATE") <= 6)%nat /\
  Forall payload_char (repeat (chr "7") 100) /\ length (repeat (chr "7") 100) = 100%nat /\
  payload_char (chr "7") /\
  Forall (fun item => noise (fst item) /\ accepted (snd item))
    [(chars "77*", WithPayload (chars "RATE") (chars "2"))] /\
  noise [] /\
  snd (feed pstate_init
         ((chr "$" :: chars "RATE" ++ chr "," :: repeat (chr "7") 100 ++ [chr "7"]) ++
          stream [(chars "77*", WithPayload (chars "RATE") (chars "2"))] [])) =
    [(chars "RATE", chars "2")].
Proof.
  assert (H1 : state pstate_init = STATE_DOLLAR) by reflexivity.
  assert (H2 : sized pstate_init) by (split; reflexivity).
  assert (H3 : Forall token_char (chars "RATE")) by concrete.
  assert (H4 : (length (chars "RATE") <= 6)%nat) by concrete.
  assert (H5 : Forall payload_char (repeat (chr "7") 100)).
  { apply List.Forall_forall. intros c Hin. apply repeat_spec in Hin. subst. concrete. }
  assert (H6 : length (repeat (chr "7") 100) = 100%nat) by reflexivity.
  assert (H7 : payload_char (chr "7")) by concrete.
  assert (H8 : Forall (fun item => noise (fst item) /\ accepted (snd item))
                 [(chars "77*", WithPayload (chars "RATE") (chars "2"))]) by concrete.
  assert (H9 : noise []) by concrete.
  repeat (split; [assumption|]).
  exact (proj2 (long_payload_aborts pstate_init (chars "RATE") (repeat (chr "7") 100) (chr "7")
                  [(chars "77*", WithPayload (chars "RATE") (chars "2"))] []
                  H1 H2 H3 H4 H5 H6 H7 H8 H9)).
Defined.

Lemma c_str_length_le (buf : list Z) : forall i : nat,
  buf !! i = Some 0 -> (length (c_str buf) <= i)%nat.
Proof.
  induction buf as [|c buf IH]; intros i Hi; [discriminate|].
  cbn [c_str]. destruct (Z.eqb_spec c 0); [cbn; lia|].
  destruct i as [|i]; cbn in Hi; [congruence|].
  cbn [length]. apply IH in Hi. lia.
Qed.

Lemma load_zero_lookup (buf : list Z) (i : Z) :
  0 <= i < Z.of_nat (length buf) -> load buf i = 0 -> buf !! Z.to_nat i = Some 0.
Proof.
  intros Hi. unfold load. destruct (Z.ltb_spec i 0); [lia|].
  destruct (buf !! Z.to_nat i) as [c|] eqn:Hl.
  - cbn. now intros ->.
  - apply lookup_ge_None in Hl. lia.
Qed.

Lemma synced_init : synced pstate_init.
Proof. split; [apply inv_init | discriminate]. Qed.

Lemma synced_parse_byte ps byte : synced ps -> synced (fst (parse_byte ps byte)).
Proof.
  intros [Hinv Hnul]. split; [now apply inv_parse_byte|].
  destruct Hinv as [[Hlt Hlp] [Hit [Hip _]]].
  destruct ps as [s mt mp it ip]. unfold parse_byte, parse_byte_cfg.
  cbn [fst snd state msg_type msg_payload index_type index_payload] in *.
  unfold MSG_TYPE_LEN in *.
  destruct s; chr_eval; zeqb;
    cbn [fst snd state msg_type msg_payload index_type index_payload
         set_state set_index_type set_index_payload store_msg_type store_msg_payload];
    try discriminate; intros _;
    first [apply load_store_same; lia | now apply Hnul].
Qed.

Lemma synced_feed bytes : forall ps, synced ps -> synced (fst (feed ps bytes)).
Proof.
  induction bytes as [|b bytes IH]; intros ps Hs; [assumption|].
  rewrite feed_cons. cbn [fst]. now apply IH, synced_parse_byte.
Qed.

(** What [NEW_MESSAGE] tells the caller, in a synchronised state. *)
Lemma new_message_synced ps byte :
  synced ps -> snd (parse_byte ps byte) = NEW_MESSAGE ->
  byte = chr "*" /\ state ps <> STATE_DOLLAR /\ state (fst (parse_byte ps byte)) = STATE_DOLLAR /\
  (length (c_str (msg_type (fst (parse_byte ps byte)))) <= 6)%nat /\
  (length (c_str (msg_payload (fst (parse_byte ps byte)))) <= 100)%nat.
Proof.
  intros [[[Hlt Hlp] [Hit [Hip _]]] Hnul].
  destruct ps as [s mt mp it ip]. unfold parse_byte, parse_byte_cfg.
  cbn [fst snd state msg_type msg_payload index_type index_payload] in *.
  unfold MSG_TYPE_LEN, MSG_PAYLOAD_LEN in *.
  destruct s; chr_eval; zeqb;
    cbn [fst snd state msg_type msg_payload index_type index_payload
         set_state set_index_type set_index_payload store_msg_type store_msg_payload];
    try discriminate; intros _; (split; [assumption|]); (split; [discriminate|]);
    (split; [reflexivity|]).
  - split.
    + apply Nat.le_trans with (Z.to_nat it); [|lia].
      apply c_str_length_le, load_zero_lookup; rewrite ?length_store; try lia.
      apply load_store_same. lia.
    + apply Nat.le_trans with (Z.to_nat 0); [|lia].
      apply c_str_length_le, load_zero_lookup; rewrite ?length_store; try lia.
      apply load_store_same. lia.
  - split.
    + apply Nat.le_trans with (Z.to_nat it); [|lia].
      apply c_str_length_le, load_zero_lookup; try lia. now apply Hnul.
    + apply Nat.le_trans with (Z.to_nat ip); [|lia].
      apply c_str_length_le, load_zero_lookup; rewrite ?length_store; try lia.
      apply load_store_same. lia.
Qed.

(** X3: whatever bytes the parser has been fed from its initial state, a
    call that returns [NEW_MESSAGE] was given a ['*'], leaves the parser
    awaiting a start, and leaves in the two arrays strings of at most 6 and
    at most 100 characters, each ended by a NUL inside its array. *)
Theorem new_message_guarantees (bytes : list Z) (byte : Z) :
  snd (parse_byte (fst (feed pstate_init bytes)) byte) = NEW_MESSAGE ->
  byte = chr "*" /\
  state (fst (parse_byte (fst (feed pstate_init bytes)) byte)) = STATE_DOLLAR /\
  (length (c_str (msg_type (fst (parse_byte (fst (feed pstate_init bytes)) byte)))) <= 6)%nat /\
  (length (c_str (msg_payload (fst (parse_byte (fst (feed pstate_init bytes)) byte)))) <= 100)%nat /\
  In 0 (msg_type (fst (parse_byte (fst (feed pstate_init bytes)) byte))) /\
  In 0 (msg_payload (fst (parse_byte (fst (feed pstate_init bytes)) byte))).
Proof.
  intros Hnew.
  pose proof (synced_feed bytes pstate_init synced_init) as Hsync.
  destruct (new_message_synced _ _ Hsync Hnew) as (Hb & _ & Hs & Ht & Hp).
  destruct (new_message_terminated _ _ (proj1 Hsync) Hnew) as [Hzt Hzp].
  repeat split; assumption.
Qed.

Lemma new_message_guarantees_witness :
  snd (parse_byte (fst (feed pstate_init (chars "$RATE,10"))) (chr "*")) = NEW_MESSAGE /\
  chr "*" = chr "*" /\
  state (fst (parse_byte (fst (feed pstate_init (chars "$RATE,10"))) (chr "*"))) = STATE_DOLLAR.
Proof.
  assert (H1 : snd (parse_byte (fst (feed pstate_init (chars "$RATE,10"))) (chr "*"))
               = NEW_MESSAGE) by reflexivity.
  split; [exact H1|].
  destruct (new_message_guarantees (chars "$RATE,10") (chr "*") H1) as (Hb & Hs & _).
  split; [exact Hb | exact Hs].
Defined.

Lemma writes_inside_inv ps byte :
  inv ps -> Forall write_inside (parse_byte_writes ps byte).
Proof.
  intros [[Hlt Hlp] [Hit [Hip _]]].
  destruct ps as [s mt mp it ip]. unfold parse_byte_writes, parse_byte_cfg.
  cbn [fst snd state msg_type msg_payload index_type index_payload] in *.
  destruct s; chr_eval; zeqb; cbn; repeat constructor;
    unfold MSG_TYPE_LEN, MSG_PAYLOAD_LEN; cbn; lia.
Qed.

(** X4: whatever bytes the parser is fed from its initial state, every
    store of every call goes to an index inside the array it writes, from
    0 to 6 in the type array and from 0 to 100 in the payload array, and
    both indices stay in these ranges. *)
Theorem stores_stay_inside (bytes : list Z) (byte : Z) :
  Forall write_inside (parse_byte_writes (fst (feed pstate_init bytes)) byte) /\
  0 <= index_type (fst (feed pstate_init bytes)) <= 6 /\
  0 <= index_payload (fst (feed pstate_init bytes)) <= 100.
Proof.
  pose proof (inv_feed bytes pstate_init inv_init) as Hinv.
  split; [now apply writes_inside_inv|]. destruct Hinv as (_ & Hit & Hip & _). now split.
Qed.

End ParserStream.

(** ** More on [extract_integer] and [next_value] *)

Module FieldFacts.
Import Parser ParserFacts.

Lemma wrap_int_shift (a q : Z) : wrap_int (a + 65536 * q) = wrap_int a.
Proof.
  unfold wrap_int. replace (a + 65536 * q + 32768) with (a + 32768 + q * 65536) by lia.
  now rewrite Z.mod_add by lia.
Qed.

Lemma wrap_int_diff (a : Z) : exists q, wrap_int a = a + 65536 * q.
Proof.
  exists (- ((a + 32768) / 65536)). unfold wrap_int.
  pose proof (Z.div_mod (a + 32768) 65536). lia.
Qed.

Lemma wrap_int_mul (k a : Z) : wrap_int (k * wrap_int a) = wrap_int (k * a).
Proof.
  destruct (wrap_int_diff a) as [q ->].
  replace (k * (a + 65536 * q)) with (k * a + 65536 * (k * q)) by lia.
  apply wrap_int_shift.
Qed.

Lemma wrap_int_add (a b : Z) : wrap_int (wrap_int a + b) = wrap_int (a + b).
Proof.
  destruct (wrap_int_diff a) as [q ->].
  replace (a + 65536 * q + b) with (a + b + 65536 * q) by lia.
  apply wrap_int_shift.
Qed.

Lemma wrap_int_idem (a : Z) : wrap_int (wrap_int a) = wrap_int a.
Proof. apply wrap_int_id, wrap_int_range. Qed.

(** One turn of the loop, up to wrap-around. *)
Lemma wrap_int_turn (a b d : Z) :
  wrap_int a = wrap_int b -> wrap_int (a * 10 + d) = wrap_int (b * 10 + d).
Proof.
  intros Hab.
  rewrite <- (wrap_int_add (a * 10)), <- (wrap_int_add (b * 10)).
  rewrite (Z.mul_comm a), (Z.mul_comm b).
  rewrite <- (wrap_int_mul 10 a), <- (wrap_int_mul 10 b). now rewrite Hab.
Qed.

Lemma value_from_wrap (cs : list Z) : forall a b,
  wrap_int a = wrap_int b -> wrap_int (value_from a cs) = wrap_int (value_from b cs).
Proof.
  induction cs as [|c cs IH]; intros a b Hab; [exact Hab|].
  cbn [value_from fold_left]. apply IH. now apply wrap_int_turn.
Qed.

Lemma extract_digits_in_int (str : list Z) : forall acc,
  in_int acc -> in_int (extract_digits str acc).
Proof.
  induction str as [|c str IH]; intros acc Hacc; [assumption|].
  cbn [extract_digits]. destruct (_ || _); [assumption|]. apply IH, wrap_int_range.
Qed.

(** The loop folds every byte up to the first [','] or NUL, digit or not,
    with wrap-around. *)
Lemma extract_digits_fold (cs rest : list Z) : forall acc,
  Forall field_char cs -> terminated rest -> in_int acc ->
  extract_digits (cs ++ rest) acc = wrap_int (value_from acc cs).
Proof.
  induction cs as [|c cs IH]; intros acc Hcs Hrest Hacc.
  - cbn [app value_from fold_left]. rewrite wrap_int_id by assumption.
    destruct rest as [|d rest]; [reflexivity|].
    cbn [extract_digits]. destruct Hrest as [-> | ->]; reflexivity.
  - inversion Hcs as [|? ? [Hc1 Hc2] Hcs']; subst.
    cbn [app extract_digits value_from fold_left].
    destruct (Z.eqb_spec c (chr ",")); [contradiction|].
    destruct (Z.eqb_spec c 0); [contradiction|]. cbn [orb].
    rewrite IH by (try assumption; apply wrap_int_range).
    apply value_from_wrap. rewrite wrap_int_idem, wrap_int_add. reflexivity.
Qed.

Lemma extract_integer_fold (s : sign) (cs rest : list Z) :
  Forall field_char cs -> terminated rest -> (s = NoSign -> unsigned_start cs) ->
  extract_integer (sign_chars s ++ cs ++ rest) = wrap_int (sign_value s * value_from 0 cs).
Proof.
  intros Hcs Hrest Hstart.
  assert (H0 : in_int 0) by (unfold in_int, INT_MIN, INT_MAX; lia).
  pose proof (extract_digits_fold cs rest 0 Hcs Hrest H0) as Hfold.
  destruct s; cbn [sign_chars sign_value app].
  - assert (Hhd : load (cs ++ rest) 0 <> chr "-" /\ load (cs ++ rest) 0 <> chr "+").
    { destruct cs as [|c cs'].
      - destruct rest as [|d rest']; [split; discriminate|].
        change (load ([] ++ d :: rest') 0) with d.
        destruct Hrest as [-> | ->]; split; discriminate.
      - change (load ((c :: cs') ++ rest) 0) with c. now apply Hstart. }
    unfold extract_integer. destruct Hhd as [H1 H2].
    destruct (Z.eqb_spec (load (cs ++ rest) 0) (chr "-")); [contradiction|].
    destruct (Z.eqb_spec (load (cs ++ rest) 0) (chr "+")); [contradiction|].
    rewrite Hfold. apply wrap_int_mul.
  - unfold extract_integer. change (drop 1 (chr "+" :: cs ++ rest)) with (cs ++ rest).
    change (load (chr "+" :: cs ++ rest) 0 =? chr "-") with false.
    change (load (chr "+" :: cs ++ rest) 0 =? chr "+") with true.
    cbn iota. rewrite Hfold. apply wrap_int_mul.
  - unfold extract_integer. change (drop 1 (chr "-" :: cs ++ rest)) with (cs ++ rest).
    change (load (chr "-" :: cs ++ rest) 0 =? chr "-") with true.
    cbn iota. rewrite Hfold. apply wrap_int_mul.
Qed.

(** X5: [extract_integer] validates nothing: after an optional sign every
    byte up to the first [','] or NUL, digit or not, is folded as
    [number * 10 + (byte - '0')], what follows the [','] is not looked at,
    and the result is the signed folded value wrapped into the 16 bits of
    an [int]. *)
Theorem extract_integer_folds_any_byte (s : sign) (cs rest : list Z) :
  Forall field_char cs -> terminated rest -> (s = NoSign -> unsigned_start cs) ->
  extract_integer (sign_chars s ++ cs ++ rest) = wrap_int (sign_value s * value_from 0 cs) /\
  in_int (extract_integer (sign_chars s ++ cs ++ rest)).
Proof.
  intros Hcs Hrest Hstart. rewrite extract_integer_fold by assumption.
  split; [reflexivity | apply wrap_int_range].
Qed.

Lemma extract_integer_folds_any_byte_witness :
  Forall field_char (chars "1x") /\ terminated (chars ",9") /\
  (Minus = NoSign -> unsigned_start (chars "1x")) /\
  extract_integer (chars "-1x,9") = -82.
Proof.
  assert (H1 : Forall field_char (chars "1x")) by (repeat constructor; vm_compute; discriminate).
  assert (H2 : terminated (chars ",9")) by (left; reflexivity).
  assert (H3 : Minus = NoSign -> unsigned_start (chars "1x")) by discriminate.
  split; [exact H1 | split; [exact H2 | split; [exact H3 |]]].
  exact (proj1 (extract_integer_folds_any_byte Minus (chars "1x") (chars ",9") H1 H2 H3)).
Defined.

(** *** [next_value] *)

Lemma skip_value_field (f rest : list Z) : forall i,
  Forall field_char f -> terminated rest ->
  skip_value (f ++ rest) i = i + Z.of_nat (length f).
Proof.
  induction f as [|c f IH]; intros i Hf Hrest.
  - cbn [app length]. destruct rest as [|d rest]; cbn [skip_value]; [lia|].
    destruct Hrest as [-> | ->]; chr_eval; cbn [Z.eqb Pos.eqb negb andb]; lia.
  - inversion Hf as [|? ? [Hc1 Hc2] Hf']; subst. cbn [app skip_value length].
    destruct (Z.eqb_spec c (chr ",")); [contradiction|].
    destruct (Z.eqb_spec c 0); [contradiction|]. cbn [negb andb].
    rewrite IH by assumption. lia.
Qed.

Lemma load_app_r (pre rest : list Z) :
  load (pre ++ rest) (Z.of_nat (length pre)) = hd 0 rest.
Proof.
  unfold load. destruct (Z.ltb_spec (Z.of_nat (length pre)) 0); [lia|].
  rewrite Nat2Z.id, lookup_app_r by lia. rewrite Nat.sub_diag. now destruct rest.
Qed.

(** From the start of a field, [next_value] goes behind the comma that ends
    it, or stays on the NUL that ends it. *)
Lemma next_value_field (pre f rest : list Z) :
  Forall field_char f -> terminated rest ->
  next_value (pre ++ f ++ rest) (Z.of_nat (length pre)) =
    Z.of_nat (length pre + length f) + (if hd 0 rest =? chr "," then 1 else 0).
Proof.
  intros Hf Hrest. unfold next_value.
  rewrite Nat2Z.id, drop_app_length, skip_value_field by assumption.
  rewrite <- Nat2Z.inj_add, app_assoc, <- length_app, load_app_r.
  destruct (hd 0 rest =? chr ","); lia.
Qed.

(** X6: called at the start of a field, [next_value] returns the index
    just behind the comma that ends the field, or the index of the NUL when
    the field is the last; called on the NUL it stays there. *)
Theorem next_value_lands (pre f rest : list Z) :
  Forall field_char f ->
  next_value (pre ++ f ++ chr "," :: rest) (Z.of_nat (length pre)) =
    Z.of_nat (length pre + length f) + 1 /\
  next_value (pre ++ f ++ 0 :: rest) (Z.of_nat (length pre)) =
    Z.of_nat (length pre + length f) /\
  next_value (pre ++ f ++ 0 :: rest) (Z.of_nat (length pre + length f)) =
    Z.of_nat (length pre + length f).
Proof.
  intros Hf. repeat split.
  - rewrite next_value_field; [reflexivity | assumption | now left].
  - rewrite next_value_field; [chr_eval; cbn; lia | assumption | now right].
  - pose proof (next_value_field (pre ++ f) [] (0 :: rest)) as Hn.
    cbn [app] in Hn. rewrite <- app_assoc, length_app in Hn.
    rewrite Hn; [chr_eval; cbn; lia | constructor | now right].
Qed.

Lemma next_value_lands_witness :
  Forall field_char (chars "12") /\
  next_value (chars "$A," ++ chars "12" ++ chr "," :: chars "34") 3 = 6.
Proof.
  assert (H1 : Forall field_char (chars "12")) by (repeat constructor; vm_compute; discriminate).
  split; [exact H1|].
  exact (proj1 (next_value_lands (chars "$A,") (chars "12") (chars "34") H1)).
Defined.

Lemma join_fields_cons (f : list Z) (fs : list (list Z)) :
  join_fields (f :: fs) = f ++ match fs with [] => [] | _ => chr "," :: join_fields fs end.
Proof. destruct fs; cbn [join_fields]; [now rewrite app_nil_r | reflexivity]. Qed.

(** After [k] calls the index is at the start of field [k]; behind the last
    field it rests on the end of the string. *)
Lemma nth_value_split (fs : list (list Z)) (tail : list Z) :
  Forall (Forall field_char) fs -> ended tail ->
  forall k : nat, exists pre,
    join_fields fs ++ tail = pre ++ join_fields (drop k fs) ++ tail /\
    nth_value (join_fields fs ++ tail) k = Z.of_nat (length pre).
Proof.
  intros Hfs Htail. induction k as [|k IH].
  - exists []. split; reflexivity.
  - destruct IH as (pre & Hsplit & Hpos). cbn [nth_value]. rewrite Hpos, Hsplit.
    destruct (drop k fs) as [|f rest] eqn:Hd.
    + assert (Hd' : drop (S k) fs = []).
      { apply drop_ge. apply (f_equal length) in Hd. rewrite length_drop in Hd.
        cbn in Hd. lia. }
      rewrite Hd'. exists pre. split; [reflexivity|].
      cbn [join_fields app].
      pose proof (next_value_field pre [] tail) as Hn. cbn [app length] in Hn.
      rewrite Hn; [| constructor |].
      * destruct tail as [|c tail]; cbn in *; [chr_eval; cbn; lia|]. subst c. chr_eval. cbn. lia.
      * destruct tail as [|c tail]; cbn in *; [exact I | now right].
    + assert (Hd' : drop (S k) fs = rest).
      { rewrite <- (Nat.add_1_r k), <- drop_drop, Hd. reflexivity. }
      assert (Hf : Forall field_char f).
      { pose proof (Forall_drop _ k _ Hfs) as Hdrop. rewrite Hd in Hdrop.
        now inversion Hdrop. }
      rewrite Hd', join_fields_cons.
      destruct rest as [|g rest].
      * rewrite app_nil_r. exists (pre ++ f). split; [now rewrite <- app_assoc|].
        rewrite (next_value_field pre f tail); try assumption.
        -- rewrite length_app. destruct tail as [|c tail]; cbn in *; [chr_eval; cbn; lia|]. subst c. chr_eval. cbn. lia.
        -- destruct tail as [|c tail]; cbn in *; [exact I | now right].
      * exists (pre ++ f ++ [chr ","]). split.
        -- now rewrite <- !app_assoc.
        -- rewrite <- app_assoc. cbn [app].
           rewrite (next_value_field pre f (chr "," :: join_fields (g :: rest) ++ tail));
             [| assumption | now left].
           cbn [hd]. rewrite !length_app. chr_eval. cbn. lia.
Qed.

Lemma digits_field (ds : list Z) :
  Forall is_digit ds -> Forall field_char ds /\ unsigned_start ds.
Proof.
  intros Hds. split.
  - eapply Forall_impl; [exact Hds|]. unfold is_digit, field_char. intros c. chr_eval. lia.
  - destruct ds as [|d ds]; [exact I|]. inversion Hds as [|? ? Hd _]; subst.
    revert Hd. unfold is_digit, unsigned_start. chr_eval. lia.
Qed.

(** X7: in a string of fields joined by commas, [k] calls of [next_value]
    from index 0 lead to the start of field [k], and [extract_integer]
    called there returns the signed value of that field, when the field is
    an optional sign and decimal digits whose value fits an [int]. *)
Theorem nth_value_reads_field (fs : list (list Z)) (tail : list Z) (k : nat)
    (s : sign) (ds : list Z) :
  Forall (Forall field_char) fs -> ended tail ->
  fs !! k = Some (sign_chars s ++ ds) ->
  Forall is_digit ds -> decimal_value ds <= INT_MAX ->
  drop (Z.to_nat (nth_value (join_fields fs ++ tail) k)) (join_fields fs ++ tail) =
    join_fields (drop k fs) ++ tail /\
  extract_integer (drop (Z.to_nat (nth_value (join_fields fs ++ tail) k))
                        (join_fields fs ++ tail)) =
    sign_value s * decimal_value ds.
Proof.
  intros Hfs Htail Hk Hds Hmax.
  destruct (nth_value_split fs tail Hfs Htail k) as (pre & Hsplit & Hpos).
  assert (Hdrop : drop (Z.to_nat (nth_value (join_fields fs ++ tail) k))
                       (join_fields fs ++ tail) = join_fields (drop k fs) ++ tail).
  { rewrite Hpos, Nat2Z.id. rewrite Hsplit at 1. apply drop_app_length. }
  split; [exact Hdrop|]. rewrite Hdrop.
  rewrite (drop_S _ _ _ Hk), join_fields_cons, <- !app_assoc.
  destruct (digits_field ds Hds) as [Hfc Hus].
  rewrite extract_integer_fold; try assumption.
  - apply wrap_int_id. pose proof (decimal_value_nonneg ds Hds).
    unfold in_int, INT_MIN, INT_MAX, decimal_value in *. destruct s; cbn [sign_value]; lia.
  - destruct (drop (S k) fs); cbn [app].
    + destruct tail as [|c tail]; cbn in *; [exact I | now right].
    + now left.
  - intros _. exact Hus.
Qed.

Lemma nth_value_reads_field_witness :
  Forall (Forall field_char) [chars "12"; chars "-345"; chars "6"] /\ ended [0] /\
  [chars "12"; chars "-345"; chars "6"] !! 1%nat = Some (sign_chars Minus ++ chars "345") /\
  Forall is_digit (chars "345") /\ decimal_value (chars "345") <= INT_MAX /\
  extract_integer (drop (Z.to_nat (nth_value (lit "12,-345,6") 1)) (lit "12,-345,6")) = -345.
Proof.
  assert (H1 : Forall (Forall field_char) [chars "12"; chars "-345"; chars "6"])
    by (repeat constructor; vm_compute; discriminate).
  assert (H2 : ended [0]) by reflexivity.
  assert (H3 : [chars "12"; chars "-345"; chars "6"] !! 1%nat
               = Some (sign_chars Minus ++ chars "345")) by reflexivity.
  assert (H4 : Forall is_digit (chars "345")) by (repeat constructor; vm_compute; discriminate).
  assert (H5 : decimal_value (chars "345") <= INT_MAX) by (vm_compute; discriminate).
  split; [exact H1 | split; [exact H2 | split; [exact H3 | split; [exact H4 |
    split; [exact H5 |]]]]].
  exact (proj2 (nth_value_reads_field [chars "12"; chars "-345"; chars "6"] [0] 1 Minus
                  (chars "345") H1 H2 H3 H4 H5)).
Defined.

End FieldFacts.

(** ** More on the ring buffers *)

Module RingFlow.
Import Ring RingFacts.

Section Flow.

Variable n : Z.
Hypothesis n_pos : 1 < n.

Lemma pending_S (fuel : nat) : forall b : circular_buffer,
  valid n b -> used n b <= Z.of_nat fuel -> pending (S fuel) n b = pending fuel n b.
Proof.
  induction fuel as [|f IH]; intros b Hv Hu.
  - assert (He : read b = write b).
    { apply (used_empty n n_pos b Hv). pose proof (used_range n n_pos b Hv). lia. }
    now rewrite !pending_empty.
  - destruct (Z.eq_dec (read b) (write b)) as [He|Hne].
    + now rewrite !pending_empty.
    + assert (Hpos : 0 < used n b).
      { pose proof (used_range n n_pos b Hv). pose proof (used_empty n n_pos b Hv). lia. }
      destruct (try_pop_some n n_pos b Hv Hpos) as (Hpop & Hv1 & Hu1).
      change (pending (S (S f)) n b) with
        (match try_pop n b with
         | Some (c, b1) => c :: pending (S f) n b1
         | None => []
         end).
      change (pending (S f) n b) with
        (match try_pop n b with
         | Some (c, b1) => c :: pending f n b1
         | None => []
         end).
      rewrite Hpop. f_equal. apply IH; [assumption | lia].
Qed.

Lemma pending_step (fuel : nat) (b : circular_buffer) :
  valid n b -> read b <> write b ->
  pending (S fuel) n b =
    load (buff b) (read b) ::
    pending fuel n (mk_circular_buffer (len b) (buff b) ((read b + 1) mod n) (write b)).
Proof.
  intros Hv Hne.
  assert (Hpos : 0 < used n b).
  { pose proof (used_range n n_pos b Hv). pose proof (used_empty n n_pos b Hv). lia. }
  destruct (try_pop_some n n_pos b Hv Hpos) as (Hpop & _).
  change (pending (S fuel) n b) with
    (match try_pop n b with
     | Some (c, b1) => c :: pending fuel n b1
     | None => []
     end).
  now rewrite Hpop.
Qed.

(** Fuel beyond the number of waiting characters changes nothing. *)
Lemma pending_fuel (fuel fuel' : nat) (b : circular_buffer) :
  valid n b -> used n b <= Z.of_nat fuel -> used n b <= Z.of_nat fuel' ->
  pending fuel n b = pending fuel' n b.
Proof.
  intros Hv.
  assert (Hup : forall k f, used n b <= Z.of_nat f -> pending (k + f) n b = pending f n b).
  { induction k as [|k IHk]; intros f Hf; [reflexivity|].
    cbn [Nat.add]. rewrite pending_S by (try assumption; lia). now apply IHk. }
  intros H1 H2. destruct (Nat.le_ge_cases fuel fuel') as [Hle|Hle].
  - replace fuel' with ((fuel' - fuel) + fuel)%nat by lia. symmetry. now apply Hup.
  - replace fuel with ((fuel - fuel') + fuel')%nat by lia. now apply Hup.
Qed.

Lemma waiting_pending (fuel : nat) (b : circular_buffer) :
  valid n b -> used n b <= Z.of_nat fuel -> pending fuel n b = waiting n b.
Proof.
  intros Hv Hu. apply pending_fuel; try assumption.
  pose proof (used_range n n_pos b Hv). lia.
Qed.

Lemma waiting_length (b : circular_buffer) :
  valid n b -> Z.of_nat (length (waiting n b)) = used n b.
Proof.
  intros Hv. unfold waiting.
  assert (Hgen : forall fuel b, valid n b -> used n b <= Z.of_nat fuel ->
                   Z.of_nat (length (pending fuel n b)) = used n b).
  { clear b Hv. induction fuel as [|f IH]; intros b Hv Hu.
    - pose proof (used_range n n_pos b Hv). cbn. lia.
    - destruct (Z.eq_dec (read b) (write b)) as [He|Hne].
      + rewrite pending_empty by assumption.
        apply (used_empty n n_pos b Hv) in He. cbn. lia.
      + assert (Hpos : 0 < used n b).
        { pose proof (used_range n n_pos b Hv). pose proof (used_empty n n_pos b Hv). lia. }
        destruct (try_pop_some n n_pos b Hv Hpos) as (Hpop & Hv1 & Hu1).
        cbn [pending]. rewrite Hpop. cbn [length].
        rewrite Nat2Z.inj_succ, IH by (try assumption; lia). lia. }
  apply Hgen; [assumption|]. pose proof (used_range n n_pos b Hv). lia.
Qed.

(** Pushing characters in a row: those that find room wait behind the
    others in their order, those that find the buffer full are lost; the
    read index is not touched. *)
Lemma push_all_overflow (cs : list Z) : forall b : circular_buffer,
  valid n b -> Z.of_nat (length (buff b)) = n ->
  waiting n (snd (push_all n cs b)) = waiting n b ++ take (Z.to_nat (free n b)) cs /\
  read (snd (push_all n cs b)) = read b /\
  valid n (snd (push_all n cs b)).
Proof.
  induction cs as [|c cs IH]; intros b Hv Hlen.
  - cbn [push_all snd]. rewrite take_nil, app_nil_r. repeat split; apply Hv.
  - cbn [push_all]. pose proof (used_range n n_pos b Hv) as Hr.
    destruct (Z.eq_dec (used n b) (n - 1)) as [Hfull|Hroom].
    + rewrite (try_push_full n n_pos c b Hv Hfull).
      specialize (IH b Hv Hlen). destruct (push_all n cs b) as [oks b2]. cbn [snd] in *.
      unfold free in *. rewrite Hfull in *.
      replace (n - 1 - (n - 1)) with 0 in * by lia. cbn [Z.to_nat take] in *.
      now rewrite take_0 in IH.
    + destruct (try_push_room n n_pos c b Hv) as (Hp & Hv1 & Hu1); [lia|].
      pose proof (pending_push n n_pos c (Z.to_nat n) b Hv Hlen) as Hpend.
      destruct (try_push n c b) as [ok b1]. cbn [fst snd] in *.
      assert (Hlen1 : Z.of_nat (length (buff b1)) = n).
      { injection Hp as _ ->. cbn [buff]. now rewrite length_store. }
      assert (Hread1 : read b1 = read b) by (injection Hp as _ ->; reflexivity).
      specialize (IH b1 Hv1 Hlen1). destruct (push_all n cs b1) as [oks b2]. cbn [snd] in *.
      destruct IH as (Hw & Hrd & Hv2). split; [|split; [congruence | assumption]].
      rewrite Hw. unfold waiting at 1. rewrite Hpend by lia.
      fold (waiting n b). rewrite <- app_assoc. f_equal.
      unfold free. rewrite Hu1.
      replace (Z.to_nat (n - 1 - used n b)) with (S (Z.to_nat (n - 1 - (used n b + 1)))) by lia.
      reflexivity.
Qed.

End Flow.

(** X8: [_U1RXInterrupt] never touches the read index nor the characters
    that wait: of the characters received it queues, in their order, as
    many as the buffer has room for (9 less those waiting) and drops the
    rest. *)
Theorem rx_keeps_what_waits (received : list Z) (b : circular_buffer) :
  valid INPUT_BUFF_LEN b -> Z.of_nat (length (buff b)) = INPUT_BUFF_LEN ->
  waiting INPUT_BUFF_LEN (_U1RXInterrupt received b) =
    waiting INPUT_BUFF_LEN b ++ take (Z.to_nat (free INPUT_BUFF_LEN b)) received /\
  read (_U1RXInterrupt received b) = read b /\
  valid INPUT_BUFF_LEN (_U1RXInterrupt received b).
Proof.
  intros Hv Hlen. rewrite rx_push_all.
  now apply (push_all_overflow INPUT_BUFF_LEN eq_refl).
Qed.

Lemma rx_keeps_what_waits_witness :
  valid INPUT_BUFF_LEN UART_input_buff_init /\
  Z.of_nat (length (buff UART_input_buff_init)) = INPUT_BUFF_LEN /\
  waiting INPUT_BUFF_LEN (_U1RXInterrupt (chars "$RATE,10*$RATE,5*") UART_input_buff_init) =
    chars "$RATE,10*".
Proof.
  assert (H1 : valid INPUT_BUFF_LEN UART_input_buff_init) by (vm_compute; intuition discriminate).
  assert (H2 : Z.of_nat (length (buff UART_input_buff_init)) = INPUT_BUFF_LEN) by reflexivity.
  split; [exact H1 | split; [exact H2 |]].
  exact (proj1 (rx_keeps_what_waits (chars "$RATE,10*$RATE,5*") UART_input_buff_init H1 H2)).
Defined.

Lemma tx_loop_spec (room : nat) : forall b : circular_buffer,
  valid OUTPUT_BUFF_LEN b ->
  fst (tx_loop room b) = take room (waiting OUTPUT_BUFF_LEN b) /\
  waiting OUTPUT_BUFF_LEN (snd (tx_loop room b)) = drop room (waiting OUTPUT_BUFF_LEN b) /\
  write (snd (tx_loop room b)) = write b /\ buff (snd (tx_loop room b)) = buff b /\
  valid OUTPUT_BUFF_LEN (snd (tx_loop room b)).
Proof.
  assert (Hn : 1 < OUTPUT_BUFF_LEN) by reflexivity.
  induction room as [|room IH]; intros b Hv.
  { cbn [tx_loop fst snd take drop]. repeat split; apply Hv. }
  cbn [tx_loop]. destruct (Z.eq_dec (read b) (write b)) as [He|Hne].
  { rewrite He, Z.eqb_refl. cbn [negb fst snd].
    assert (Hw : waiting OUTPUT_BUFF_LEN b = []) by (apply pending_empty; congruence).
    rewrite Hw. cbn [take drop]. repeat split; try apply Hv. }
  destruct (Z.eqb_spec (read b) (write b)); [contradiction|]. cbn [negb].
  assert (Hpos : 0 < used OUTPUT_BUFF_LEN b).
  { pose proof (used_range _ Hn b Hv). pose proof (used_empty _ Hn b Hv). lia. }
  destruct (try_pop_some _ Hn b Hv Hpos) as (_ & Hv1 & Hu1).
  rewrite (rem_succ _ Hn) by apply Hv.
  pose proof (used_range _ Hn b Hv) as Hr.
  assert (Hu47 : used OUTPUT_BUFF_LEN
                   (mk_circular_buffer (len b) (buff b)
                      ((read b + 1) mod OUTPUT_BUFF_LEN) (write b)) <= Z.of_nat 47).
  { rewrite Hu1. unfold OUTPUT_BUFF_LEN in *. lia. }
  pose proof (waiting_pending _ Hn 47 _ Hv1 Hu47) as Hw47.
  pose proof (pending_step _ Hn 47 b Hv Hne) as Hstep.
  change (pending 48 OUTPUT_BUFF_LEN b) with (waiting OUTPUT_BUFF_LEN b) in Hstep.
  rewrite Hw47 in Hstep.
  destruct (IH _ Hv1) as (Hs & Hw & Hwr & Hbf & Hv2).
  destruct (tx_loop room _) as [sent b2]. cbn [fst snd] in *.
  rewrite Hstep. cbn [take drop]. rewrite Hs.
  repeat split; try assumption; try apply Hv2.
Qed.

(** X9: [_U1TXInterrupt] sends the characters that wait longest, in their
    order, as many as the transmitter takes, and leaves the others waiting;
    it never touches the write index nor the array; it sets the manual
    trigger exactly when nothing waited on entry. *)
Theorem tx_sends_oldest_first (room : nat) (b : circular_buffer) :
  valid OUTPUT_BUFF_LEN b ->
  snd (fst (_U1TXInterrupt room b)) = take room (waiting OUTPUT_BUFF_LEN b) /\
  waiting OUTPUT_BUFF_LEN (snd (_U1TXInterrupt room b)) = drop room (waiting OUTPUT_BUFF_LEN b) /\
  write (snd (_U1TXInterrupt room b)) = write b /\
  buff (snd (_U1TXInterrupt room b)) = buff b /\
  (fst (fst (_U1TXInterrupt room b)) = true <-> waiting OUTPUT_BUFF_LEN b = []).
Proof.
  intros Hv. unfold _U1TXInterrupt. cbn [fst snd].
  destruct (tx_loop_spec room b Hv) as (Hs & Hw & Hwr & Hbf & _).
  repeat split; try assumption.
  - intros He. apply Z.eqb_eq in He. now apply pending_empty.
  - intros Hw0. apply Z.eqb_eq.
    apply (used_empty OUTPUT_BUFF_LEN eq_refl b Hv).
    rewrite <- (waiting_length OUTPUT_BUFF_LEN eq_refl b Hv), Hw0. reflexivity.
Qed.

Lemma tx_sends_oldest_first_witness :
  valid OUTPUT_BUFF_LEN (print_to_buff (lit "$YAW,45*") UART_output_buff_init) /\
  snd (fst (_U1TXInterrupt 4 (print_to_buff (lit "$YAW,45*") UART_output_buff_init))) =
    chars "$YAW" /\
  waiting OUTPUT_BUFF_LEN
    (snd (_U1TXInterrupt 4 (print_to_buff (lit "$YAW,45*") UART_output_buff_init))) =
    chars ",45*".
Proof.
  assert (H1 : valid OUTPUT_BUFF_LEN (print_to_buff (lit "$YAW,45*") UART_output_buff_init))
    by (vm_compute; intuition discriminate).
  split; [exact H1|].
  destruct (tx_sends_oldest_first 4 (print_to_buff (lit "$YAW,45*") UART_output_buff_init) H1)
    as (Hs & Hw & _).
  split; [exact Hs | exact Hw].
Defined.

End RingFlow.

(** ** The capacity of the input buffer *)

Module RingCapacity.
Import Ring RingFacts RingFlow.

(** Nine characters received into the empty buffer wait there, in their
    order; the read index has not moved. *)
Lemma nine_wait (b : circular_buffer) (cs : list Z) :
  valid INPUT_BUFF_LEN b -> read b = write b ->
  Z.of_nat (length (buff b)) = INPUT_BUFF_LEN -> length cs = 9%nat ->
  waiting INPUT_BUFF_LEN (snd (push_all INPUT_BUFF_LEN cs b)) = cs /\
  read (snd (push_all INPUT_BUFF_LEN cs b)) = read b /\
  Z.of_nat (length (buff (snd (push_all INPUT_BUFF_LEN cs b)))) = INPUT_BUFF_LEN.
Proof.
  intros Hv He Hb Hl.
  assert (Hn : 1 < INPUT_BUFF_LEN) by reflexivity.
  destruct (push_all_overflow _ Hn cs b Hv Hb) as (Hw & Hr & _).
  split; [|split; [exact Hr|]].
  - rewrite Hw. unfold waiting, free. rewrite (pending_empty _ _ _ He).
    rewrite (proj2 (used_empty _ Hn _ Hv) He). cbn [app].
    apply take_ge. rewrite Hl. unfold INPUT_BUFF_LEN. cbn. lia.
  - destruct (push_all_length_buff INPUT_BUFF_LEN cs b) as [-> _]. exact Hb.
Qed.

(** C3: from the empty state of the input buffer of 10 places, 9 pushes in
    a row succeed, and the 9 characters wait in the buffer in their order.
    A 10th push fails and leaves the buffer as it is, indices and array;
    so the receive interrupt, given the ten characters, leaves what it
    leaves given the nine.  A pop then takes out the first of the nine and
    leaves the other eight, and one more push succeeds and puts its
    character behind them. *)
Theorem input_buffer_capacity (b : circular_buffer) (cs : list Z) (c c' : Z) :
  valid INPUT_BUFF_LEN b -> read b = write b ->
  Z.of_nat (length (buff b)) = INPUT_BUFF_LEN -> length cs = 9%nat ->
  fst (push_all INPUT_BUFF_LEN cs b) = repeat true 9 /\
  _U1RXInterrupt cs b = snd (push_all INPUT_BUFF_LEN cs b) /\
  waiting INPUT_BUFF_LEN (snd (push_all INPUT_BUFF_LEN cs b)) = cs /\
  read (snd (push_all INPUT_BUFF_LEN cs b)) = read b /\
  try_push INPUT_BUFF_LEN c (snd (push_all INPUT_BUFF_LEN cs b)) =
    (false, snd (push_all INPUT_BUFF_LEN cs b)) /\
  _U1RXInterrupt (cs ++ [c]) b = _U1RXInterrupt cs b /\
  exists b' b'',
    try_pop INPUT_BUFF_LEN (snd (push_all INPUT_BUFF_LEN cs b)) = Some (hd 0 cs, b') /\
    waiting INPUT_BUFF_LEN b' = tl cs /\
    try_push INPUT_BUFF_LEN c' b' = (true, b'') /\
    waiting INPUT_BUFF_LEN b'' = tl cs ++ [c'].
Proof.
  intros Hv He Hb Hl.
  assert (Hn : 1 < INPUT_BUFF_LEN) by reflexivity.
  assert (Hu : used INPUT_BUFF_LEN b = 0) by now apply used_empty.
  destruct (push_all_room _ Hn cs b Hv) as (Hoks & Hv9 & Hu9).
  { rewrite Hu, Hl. unfold INPUT_BUFF_LEN. lia. }
  rewrite Hl in Hoks, Hu9. rewrite Hu in Hu9.
  destruct (nine_wait b cs Hv He Hb Hl) as (Hw9 & Hr9 & Hb9).
  assert (Hfull : try_push INPUT_BUFF_LEN c (snd (push_all INPUT_BUFF_LEN cs b)) =
                    (false, snd (push_all INPUT_BUFF_LEN cs b))).
  { apply try_push_full; [assumption | assumption | rewrite Hu9; reflexivity]. }
  split; [assumption|]. split; [apply rx_push_all|]. split; [exact Hw9|].
  split; [exact Hr9|]. split; [exact Hfull|]. split.
  { unfold _U1RXInterrupt at 1. rewrite fold_left_app. cbn [fold_left].
    fold (_U1RXInterrupt cs b). rewrite rx_push_all, Hfull. reflexivity. }
  set (b9 := snd (push_all INPUT_BUFF_LEN cs b)) in *.
  destruct (try_pop_some _ Hn b9 Hv9) as (Hpop & Hv' & Hu'); [lia|].
  set (b' := mk_circular_buffer (len b9) (buff b9) ((read b9 + 1) mod INPUT_BUFF_LEN)
               (write b9)) in *.
  assert (Hne : read b9 <> write b9).
  { intros Heq. apply (used_empty _ Hn _ Hv9) in Heq. lia. }
  assert (Hstep : cs = load (buff b9) (read b9) :: pending 9 INPUT_BUFF_LEN b').
  { rewrite <- Hw9. unfold waiting.
    change (Z.to_nat INPUT_BUFF_LEN) with 10%nat.
    exact (pending_step _ Hn 9 b9 Hv9 Hne). }
  assert (Hw' : waiting INPUT_BUFF_LEN b' = pending 9 INPUT_BUFF_LEN b').
  { unfold waiting. change (Z.to_nat INPUT_BUFF_LEN) with 10%nat.
    apply (pending_S _ Hn 9 b' Hv'). rewrite Hu', Hu9. unfold INPUT_BUFF_LEN. lia. }
  destruct (try_push_room _ Hn c' b' Hv') as (Hp & _ & _).
  { rewrite Hu', Hu9. unfold INPUT_BUFF_LEN. lia. }
  assert (Hhd : hd 0 cs = load (buff b9) (read b9)) by (rewrite Hstep; reflexivity).
  assert (Htl : tl cs = pending 9 INPUT_BUFF_LEN b') by (rewrite Hstep; reflexivity).
  eexists b', _. split; [|split; [|split; [exact Hp|]]].
  - rewrite Hpop, Hhd. reflexivity.
  - rewrite Hw', Htl. reflexivity.
  - pose proof (pending_push _ Hn c' 10 b' Hv') as Hpp.
    rewrite Hp in Hpp. cbn [snd] in Hpp.
    unfold waiting. change (Z.to_nat INPUT_BUFF_LEN) with 10%nat.
    rewrite Hpp.
    + change (pending 10 INPUT_BUFF_LEN b') with (waiting INPUT_BUFF_LEN b').
      rewrite Hw', Htl. reflexivity.
    + exact Hb9.
    + rewrite Hu', Hu9. unfold INPUT_BUFF_LEN. lia.
    + rewrite Hu', Hu9. lia.
Qed.

Lemma input_buffer_capacity_witness :
  valid INPUT_BUFF_LEN UART_input_buff_init /\
  read UART_input_buff_init = write UART_input_buff_init /\
  Z.of_nat (length (buff UART_input_buff_init)) = INPUT_BUFF_LEN /\
  length (chars "$RATE,10*") = 9%nat /\
  fst (push_all INPUT_BUFF_LEN (chars "$RATE,10*") UART_input_buff_init) = repeat true 9 /\
  waiting INPUT_BUFF_LEN (snd (push_all INPUT_BUFF_LEN (chars "$RATE,10*") UART_input_buff_init))
    = chars "$RATE,10*" /\
  try_push INPUT_BUFF_LEN (chr "$")
      (snd (push_all INPUT_BUFF_LEN (chars "$RATE,10*") UART_input_buff_init)) =
    (false, snd (push_all INPUT_BUFF_LEN (chars "$RATE,10*") UART_input_buff_init)) /\
  exists b' b'',
    try_pop INPUT_BUFF_LEN (snd (push_all INPUT_BUFF_LEN (chars "$RATE,10*") UART_input_buff_init))
      = Some (hd 0 (chars "$RATE,10*"), b') /\
    waiting INPUT_BUFF_LEN b' = tl (chars "$RATE,10*") /\
    try_push INPUT_BUFF_LEN (chr "R") b' = (true, b'') /\
    waiting INPUT_BUFF_LEN b'' = tl (chars "$RATE,10*") ++ [chr "R"].
Proof.
  assert (H1 : valid INPUT_BUFF_LEN UART_input_buff_init) by (vm_compute; intuition discriminate).
  assert (H2 : read UART_input_buff_init = write UART_input_buff_init) by reflexivity.
  assert (H3 : Z.of_nat (length (buff UART_input_buff_init)) = INPUT_BUFF_LEN) by reflexivity.
  assert (H4 : length (chars "$RATE,10*") = 9%nat) by reflexivity.
  split; [exact H1 | split; [exact H2 | split; [exact H3 | split; [exact H4 |]]]].
  destruct (input_buffer_capacity UART_input_buff_init (chars "$RATE,10*") (chr "$") (chr "R")
              H1 H2 H3 H4) as (Ho & _ & Hw & _ & Hf & _ & Hp).
  split; [exact Ho | split; [exact Hw | split; [exact Hf | exact Hp]]].
Defined.

End RingCapacity.

(** ** Checks over a finite range *)

Module Checks.
Import Main.

(** A check that succeeds on [0 .. n-1] holds of each of them. *)
Lemma all_below_spec (n : nat) (f : Z -> bool) :
  all_below n f = true -> forall v, 0 <= v < Z.of_nat n -> f v = true.
Proof.
  unfold all_below. intros Hall v Hv.
  assert (Hgen : forall m k, all_from m k f = true ->
                   forall w, k <= w < k + Z.of_nat m -> f w = true).
  { induction m as [|m IH]; intros k Hm w Hw; [lia|].
    cbn [all_from] in Hm. apply andb_prop in Hm. destruct Hm as [Hk Hm].
    destruct (Z.eq_dec w k) as [->|Hne]; [exact Hk|].
    apply (IH (k + 1) Hm). lia. }
  apply (Hgen n 0 Hall). lia.
Qed.

End Checks.

(** ** The sensor *)

Module SensorFacts.
Import Main Checks.

(** Masking the flag bits off a byte takes away its remainder by 8 (x and
    y) or by 2 (z). *)
Lemma land_mask_all (axis : Axis) :
  all_below 256
    (fun low => Z.land low (match axis with Z_AXIS => 254 | _ => 248 end) =?
                low - low mod axis_flags axis) = true.
Proof. destruct axis; vm_compute; reflexivity. Qed.

Lemma land_mask (axis : Axis) (low : Z) :
  0 <= low < 256 ->
  Z.land low (match axis with Z_AXIS => 254 | _ => 248 end) = low - low mod axis_flags axis.
Proof.
  intros Hlow. apply Z.eqb_eq. exact (all_below_spec _ _ (land_mask_all axis) low Hlow).
Qed.

(** A byte and a byte shifted past it have no bit in common. *)
Lemma lor_bytes (a high : Z) :
  0 <= a < 256 -> Z.lor a (Z.shiftl high 8) = a + 256 * high.
Proof.
  intros Ha.
  assert (Hd : Z.land a (Z.shiftl high 8) = 0).
  { apply Z.bits_inj'. intros n Hn. rewrite Z.land_spec, Z.bits_0.
    destruct (Z.lt_ge_cases n 8) as [Hlt|Hge].
    - rewrite Z.shiftl_spec_low by assumption. apply andb_false_r.
    - destruct (Z.eq_dec a 0) as [->|Hne]; [now rewrite Z.bits_0|].
      rewrite (Z.bits_above_log2 a n); [reflexivity | lia |].
      apply Z.log2_lt_pow2; [lia|]. change (2 ^ n) with (2 ^ n).
      assert (2 ^ 8 <= 2 ^ n) by (apply Z.pow_le_mono_r; lia).
      change (2 ^ 8) with 256 in *. lia. }
  rewrite <- Z.lxor_lor, <- Z.add_nocarry_lxor by exact Hd.
  rewrite Z.shiftl_mul_pow2 by lia. change (2 ^ 8) with 256. lia.
Qed.

(** The value of an axis in arithmetic. *)
Lemma axis_value_eq (axis : Axis) (low high : Z) :
  0 <= low < 256 ->
  axis_value axis low high =
    wrap_int (low - low mod axis_flags axis + 256 * high) / axis_flags axis.
Proof.
  intros Hlow.
  assert (Hm : 0 <= low - low mod axis_flags axis < 256).
  { destruct axis; cbn [axis_flags]; Z.div_mod_to_equations; lia. }
  pose proof (land_mask axis low Hlow) as Hl. unfold axis_value.
  destruct axis; cbn [axis_flags] in *; cbv zeta;
    rewrite Hl, lor_bytes by exact Hm; rewrite Z.shiftr_div_pow2 by lia; reflexivity.
Qed.

Lemma axis_value_range (axis : Axis) (low high : Z) :
  0 <= low < 256 -> 0 <= high < 256 ->
  - axis_limit axis <= axis_value axis low high < axis_limit axis.
Proof.
  intros Hlow Hhigh. rewrite axis_value_eq by exact Hlow. unfold wrap_int.
  destruct axis; cbn [axis_flags axis_limit]; Z.div_mod_to_equations; lia.
Qed.

Lemma axis_value_flags (axis : Axis) (low high : Z) :
  axis_value axis (Z.land low (match axis with Z_AXIS => 254 | _ => 248 end)) high =
    axis_value axis low high.
Proof.
  unfold axis_value. destruct axis; cbv zeta; now rewrite <- Z.land_assoc.
Qed.

(** The bytes that hold a value give it back. *)
Lemma axis_bytes_value (axis : Axis) (v flags : Z) :
  - axis_limit axis <= v < axis_limit axis -> 0 <= flags < axis_flags axis ->
  0 <= fst (axis_bytes axis v flags) < 256 /\
  0 <= snd (axis_bytes axis v flags) < 256 /\
  axis_value axis (fst (axis_bytes axis v flags)) (snd (axis_bytes axis v flags)) = v.
Proof.
  intros Hv Hf.
  assert (Hb : 0 <= fst (axis_bytes axis v flags) < 256 /\
               0 <= snd (axis_bytes axis v flags) < 256).
  { unfold axis_bytes. cbn [fst snd].
    destruct axis; cbn [axis_flags axis_limit] in *; Z.div_mod_to_equations; lia. }
  destruct Hb as [Hlo Hhi]. split; [exact Hlo|]. split; [exact Hhi|].
  rewrite axis_value_eq by exact Hlo. unfold axis_bytes, wrap_int in *. cbn [fst snd] in *.
  destruct axis; cbn [axis_flags axis_limit] in *; Z.div_mod_to_equations; lia.
Qed.

Lemma read_mag_axis_bus (axis : Axis) (b : bus) (a low high : Z) (rest : list Z) :
  responses b = a :: low :: high :: rest ->
  fst (read_mag_axis axis b) = axis_value axis low high /\
  responses (snd (read_mag_axis axis b)) = rest /\
  written (snd (read_mag_axis axis b)) =
    written b ++ [Z.lor (66 + axis_index axis * 2) 128; 0; 0] /\
  CS_MAG (snd (read_mag_axis axis b)) = true /\
  SPIROV (snd (read_mag_axis axis b)) = false /\
  LATA (snd (read_mag_axis axis b)) = (if SPIROV b then 1 else LATA b).
Proof.
  intros Hr. unfold read_mag_axis, spi_write.
  destruct b as [rs wr cs ov la]. cbn [responses] in Hr. subst rs.
  destruct ov; cbn [fst snd responses written CS_MAG SPIROV LATA hd tl];
    rewrite <- !app_assoc; repeat split.
Qed.

(** X10: [read_mag_axis] writes the address of the axis and two zero bytes,
    and forms its value of the two bytes answered to these: whatever the
    bytes, the value is in -4096 .. 4095 for x and y and in -16384 .. 16383
    for z, and the flag bits of the low byte (3 for x and y, 1 for z) do
    not enter it.  The chip select ends high. *)
Theorem read_mag_axis_in_range (axis : Axis) (b : bus) (a low high : Z) (rest : list Z) :
  responses b = a :: low :: high :: rest ->
  0 <= low < 256 -> 0 <= high < 256 ->
  - axis_limit axis <= fst (read_mag_axis axis b) < axis_limit axis /\
  fst (read_mag_axis axis b) =
    axis_value axis (Z.land low (match axis with Z_AXIS => 254 | _ => 248 end)) high /\
  written (snd (read_mag_axis axis b)) =
    written b ++ [Z.lor (66 + axis_index axis * 2) 128; 0; 0] /\
  responses (snd (read_mag_axis axis b)) = rest /\
  CS_MAG (snd (read_mag_axis axis b)) = true.
Proof.
  intros Hr Hlow Hhigh.
  destruct (read_mag_axis_bus axis b a low high rest Hr) as (-> & -> & -> & -> & _).
  pose proof (axis_value_range axis low high Hlow Hhigh) as Hin.
  rewrite axis_value_flags. repeat split; apply Hin.
Qed.

Lemma read_mag_axis_in_range_witness :
  responses (mk_bus [0; 255; 127] [] true false 0) = [0; 255; 127] /\
  0 <= 255 < 256 /\ 0 <= 127 < 256 /\
  fst (read_mag_axis Z_AXIS (mk_bus [0; 255; 127] [] true false 0)) = 16383.
Proof.
  assert (H1 : responses (mk_bus [0; 255; 127] [] true false 0) = [0; 255; 127]) by reflexivity.
  assert (H2 : 0 <= 255 < 256) by lia.
  assert (H3 : 0 <= 127 < 256) by lia.
  split; [exact H1 | split; [exact H2 | split; [exact H3 |]]].
  exact (proj1 (proj2 (read_mag_axis_in_range Z_AXIS (mk_bus [0; 255; 127] [] true false 0)
                         0 255 127 [] H1 H2 H3))).
Defined.

(** X11: a value within the limit of its axis, held by the sensor in two
    bytes as two's complement shifted past the flag bits, comes back from
    [read_mag_axis] whatever the flags. *)
Theorem read_mag_axis_decodes (axis : Axis) (b : bus) (a v flags : Z) (rest : list Z) :
  - axis_limit axis <= v < axis_limit axis -> 0 <= flags < axis_flags axis ->
  responses b = a :: fst (axis_bytes axis v flags) :: snd (axis_bytes axis v flags) :: rest ->
  0 <= fst (axis_bytes axis v flags) < 256 /\ 0 <= snd (axis_bytes axis v flags) < 256 /\
  fst (read_mag_axis axis b) = v.
Proof.
  intros Hv Hf Hr.
  destruct (read_mag_axis_bus axis b a _ _ rest Hr) as (-> & _).
  exact (axis_bytes_value axis v flags Hv Hf).
Qed.

Lemma read_mag_axis_decodes_witness :
  - axis_limit X_AXIS <= -1234 < axis_limit X_AXIS /\ 0 <= 5 < axis_flags X_AXIS /\
  fst (read_mag_axis X_AXIS
         (mk_bus [0; fst (axis_bytes X_AXIS (-1234) 5); snd (axis_bytes X_AXIS (-1234) 5)]
            [] true false 0)) = -1234.
Proof.
  assert (H1 : - axis_limit X_AXIS <= -1234 < axis_limit X_AXIS) by (cbn; lia).
  assert (H2 : 0 <= 5 < axis_flags X_AXIS) by (cbn; lia).
  split; [exact H1 | split; [exact H2 |]].
  exact (proj2 (proj2 (read_mag_axis_decodes X_AXIS
                         (mk_bus [0; fst (axis_bytes X_AXIS (-1234) 5);
                                  snd (axis_bytes X_AXIS (-1234) 5)] [] true false 0)
                         0 (-1234) 5 [] H1 H2 eq_refl))).
Defined.

(** X12: a sample is made of nine exchanges on the bus: for each axis its
    address (0xC2, 0xC4, 0xC6) and two zero bytes.  Whatever bytes the
    sensor answers, the sample is within the limits of the axes: x and y in
    -4096 .. 4095, z in -16384 .. 16383. *)
Theorem read_sample_in_range (b : bus) (ax lx hx ay ly hy az lz hz : Z) (rest : list Z) :
  responses b = [ax; lx; hx; ay; ly; hy; az; lz; hz] ++ rest ->
  Forall (fun byte => 0 <= byte < 256) [lx; hx; ly; hy; lz; hz] ->
  sensor_reading (fst (read_sample b)) /\
  fst (read_sample b) =
    mk_MagReading (axis_value X_AXIS lx hx) (axis_value Y_AXIS ly hy) (axis_value Z_AXIS lz hz) /\
  written (snd (read_sample b)) = written b ++ [194; 0; 0; 196; 0; 0; 198; 0; 0] /\
  responses (snd (read_sample b)) = rest /\
  CS_MAG (snd (read_sample b)) = true.
Proof.
  intros Hr Hb.
  inversion Hb as [|? ? Hlx Hb1]; subst. inversion Hb1 as [|? ? Hhx Hb2]; subst.
  inversion Hb2 as [|? ? Hly Hb3]; subst. inversion Hb3 as [|? ? Hhy Hb4]; subst.
  inversion Hb4 as [|? ? Hlz Hb5]; subst. inversion Hb5 as [|? ? Hhz _]; subst.
  unfold read_sample.
  destruct (read_mag_axis_bus X_AXIS b ax lx hx _ Hr) as (Hvx & Hrx & Hwx & _).
  destruct (read_mag_axis X_AXIS b) as [vx bx]. cbn [fst snd] in Hvx, Hrx, Hwx.
  destruct (read_mag_axis_bus Y_AXIS bx ay ly hy _ Hrx) as (Hvy & Hry & Hwy & _).
  destruct (read_mag_axis Y_AXIS bx) as [vy by']. cbn [fst snd] in Hvy, Hry, Hwy.
  destruct (read_mag_axis_bus Z_AXIS by' az lz hz _ Hry) as (Hvz & Hrz & Hwz & Hcs & _).
  destruct (read_mag_axis Z_AXIS by') as [vz bz]. cbn [fst snd] in Hvz, Hrz, Hwz, Hcs |- *.
  subst vx vy vz.
  split; [|split; [reflexivity|split; [|split; [exact Hrz | exact Hcs]]]].
  - unfold sensor_reading. cbn [x y z]. repeat split; apply axis_value_range; assumption.
  - rewrite Hwz, Hwy, Hwx, <- !app_assoc. reflexivity.
Qed.

Lemma read_sample_in_range_witness :
  responses (mk_bus [0; 8; 0; 0; 248; 255; 0; 2; 128] [] true false 0) =
    [0; 8; 0; 0; 248; 255; 0; 2; 128] ++ [] /\
  Forall (fun byte => 0 <= byte < 256) [8; 0; 248; 255; 2; 128] /\
  fst (read_sample (mk_bus [0; 8; 0; 0; 248; 255; 0; 2; 128] [] true false 0)) =
    mk_MagReading 1 (-1) (-16383).
Proof.
  assert (H1 : responses (mk_bus [0; 8; 0; 0; 248; 255; 0; 2; 128] [] true false 0) =
               [0; 8; 0; 0; 248; 255; 0; 2; 128] ++ []) by reflexivity.
  assert (H2 : Forall (fun byte => 0 <= byte < 256) [8; 0; 248; 255; 2; 128]).
  { repeat constructor; lia. }
  split; [exact H1 | split; [exact H2|]].
  exact (proj1 (proj2 (read_sample_in_range _ 0 8 0 0 248 255 0 2 128 [] H1 H2))).
Defined.

End SensorFacts.

(** ** The main loop as a whole *)

Module MainFlow.
Import Parser Ring Main ParserFacts RingFacts MainFacts ParserStream FieldFacts RingFlow Checks.

(** *** What the loop over the input buffer changes *)

Lemma feed_cons_parts (ps : parser_state) (b : Z) (bytes : list Z) :
  fst (feed ps (b :: bytes)) = fst (feed (fst (parse_byte ps b)) bytes) /\
  snd (feed ps (b :: bytes)) =
    match snd (parse_byte ps b) with
    | NEW_MESSAGE => message (fst (parse_byte ps b)) :: snd (feed (fst (parse_byte ps b)) bytes)
    | NO_MESSAGE => snd (feed (fst (parse_byte ps b)) bytes)
    end.
Proof. rewrite feed_cons. split; reflexivity. Qed.

Lemma feed_app_parts (a : list Z) (ps : parser_state) (b : list Z) :
  fst (feed ps (a ++ b)) = fst (feed (fst (feed ps a)) b) /\
  snd (feed ps (a ++ b)) = snd (feed ps a) ++ snd (feed (fst (feed ps a)) b).
Proof. rewrite feed_app. split; reflexivity. Qed.

Lemma extract_digits_c_str (str : list Z) : forall acc,
  extract_digits str acc = extract_digits (c_str str) acc.
Proof.
  induction str as [|c str IH]; intros acc; [reflexivity|].
  cbn [c_str]. destruct (Z.eqb_spec c 0) as [->|Hc].
  - reflexivity.
  - cbn [extract_digits]. destruct (Z.eqb_spec c 0); [contradiction|].
    destruct (c =? chr ","); cbn [orb]; [reflexivity | apply IH].
Qed.

(** [extract_integer] reads no further than the NUL of its string. *)
Lemma extract_integer_c_str (str : list Z) : extract_integer str = extract_integer (c_str str).
Proof.
  unfold extract_integer. destruct str as [|c str]; [reflexivity|].
  cbn [c_str]. destruct (Z.eqb_spec c 0) as [->|Hc].
  - change (load (0 :: str) 0) with 0. change (load [] 0) with 0.
    change (0 =? chr "-") with false. change (0 =? chr "+") with false. cbn iota.
    change (extract_digits (0 :: str) 0) with 0. reflexivity.
  - change (load (c :: str) 0) with c. change (load (c :: c_str str) 0) with c.
    change (drop 1 (c :: str)) with str. change (drop 1 (c :: c_str str)) with (c_str str).
    rewrite <- (extract_digits_c_str str 0).
    assert (He : extract_digits (c :: str) 0 = extract_digits (c :: c_str str) 0).
    { rewrite (extract_digits_c_str (c :: str)). cbn [c_str].
      destruct (Z.eqb_spec c 0); [contradiction | reflexivity]. }
    now rewrite He.
Qed.

Lemma print_fst (str : list Z) (c : mcfg) :
  print str c =
    (set_UART_output_buff (print_to_buff str (UART_output_buff (fst c))) (fst c),
     snd c ++ [str]).
Proof. reflexivity. Qed.

Lemma react_print (str : list Z) (ps : parser_state) (s : main_state)
    (printed : list (list Z)) :
  print str (set_pstate ps s, printed) =
    (set_pstate ps (fst (print str (s, printed))), snd (print str (s, printed))).
Proof. reflexivity. Qed.

(** One byte: the parser moves on, and a completed message is reacted
    to. *)
Lemma handle_byte_react (byte : Z) (s : main_state) (printed : list (list Z)) :
  handle_byte byte (s, printed) =
    let c := match snd (parse_byte (pstate s) byte) with
             | NEW_MESSAGE => react (message (fst (parse_byte (pstate s) byte))) (s, printed)
             | NO_MESSAGE => (s, printed)
             end in
    (set_pstate (fst (parse_byte (pstate s) byte)) (fst c), snd c).
Proof.
  unfold handle_byte. cbn [fst snd].
  destruct (parse_byte (pstate s) byte) as [ps status]. cbn [fst snd].
  destruct status; [reflexivity|].
  unfold react, message. cbn [fst snd].
  rewrite <- (extract_integer_c_str (msg_payload ps)).
  destruct (Z.eqb_spec (strcmp (msg_type ps) (lit "RATE")) 0) as [He|Hne].
  - apply strcmp_c_str in He. change (c_str (lit "RATE")) with (chars "RATE") in He.
    destruct (decide (c_str (msg_type ps) = chars "RATE")); [|contradiction].
    destruct (negb (is_valid_rate (extract_integer (msg_payload ps)) =? 0)); [reflexivity|].
    apply react_print.
  - destruct (decide (c_str (msg_type ps) = chars "RATE")) as [He|]; [|reflexivity].
    exfalso. apply Hne. apply strcmp_c_str. exact He.
Qed.

Lemma react_set_pstate (m : list Z * list Z) (ps : parser_state) (s : main_state)
    (printed : list (list Z)) :
  react m (set_pstate ps s, printed) =
    (set_pstate ps (fst (react m (s, printed))), snd (react m (s, printed))).
Proof.
  unfold react. cbn [fst snd].
  destruct (decide (m.1 = chars "RATE")); [|reflexivity].
  destruct (negb (is_valid_rate (extract_integer m.2) =? 0)); [reflexivity|].
  apply react_print.
Qed.

Lemma react_all_set_pstate (msgs : list (list Z * list Z)) :
  forall (ps : parser_state) (s : main_state) (printed : list (list Z)),
  react_all msgs (set_pstate ps s, printed) =
    (set_pstate ps (fst (react_all msgs (s, printed))), snd (react_all msgs (s, printed))).
Proof.
  unfold react_all. induction msgs as [|m msgs IH]; intros ps s printed; [reflexivity|].
  cbn [fold_left]. rewrite react_set_pstate.
  destruct (react m (s, printed)) as [s1 p1]. cbn [fst snd]. apply IH.
Qed.

Lemma set_pstate_twice (ps ps' : parser_state) (s : main_state) :
  set_pstate ps (set_pstate ps' s) = set_pstate ps s.
Proof. reflexivity. Qed.

(** The bytes handled one after the other: the parser is fed with them,
    and the messages it completes are reacted to in their order. *)
Lemma handle_bytes_react (bytes : list Z) : forall (s : main_state) (printed : list (list Z)),
  handle_bytes bytes (s, printed) =
    (set_pstate (fst (feed (pstate s) bytes))
       (fst (react_all (snd (feed (pstate s) bytes)) (s, printed))),
     snd (react_all (snd (feed (pstate s) bytes)) (s, printed))).
Proof.
  induction bytes as [|b bytes IH]; intros s printed.
  - cbn [handle_bytes fold_left feed react_all fst snd]. now destruct s.
  - destruct (feed_cons_parts (pstate s) b bytes) as [-> ->].
    change (handle_bytes (b :: bytes) (s, printed))
      with (handle_bytes bytes (handle_byte b (s, printed))).
    rewrite handle_byte_react. cbv zeta.
    set (ps1 := fst (parse_byte (pstate s) b)).
    destruct (snd (parse_byte (pstate s) b)).
    + cbn [fst snd]. rewrite IH. cbn [pstate set_pstate].
      rewrite react_all_set_pstate. cbn [fst snd]. now rewrite set_pstate_twice.
    + destruct (react (message ps1) (s, printed)) as [s1 p1] eqn:Hr. cbn [fst snd].
      rewrite IH. cbn [pstate set_pstate].
      rewrite react_all_set_pstate. cbn [fst snd]. rewrite set_pstate_twice.
      change (react_all (message ps1 :: snd (feed ps1 bytes)) (s, printed))
        with (react_all (snd (feed ps1 bytes)) (react (message ps1) (s, printed))).
      now rewrite Hr.
Qed.

(** *** The shape of a tick *)

Lemma is_valid_rate_01 (rate : Z) : is_valid_rate rate = 1 \/ is_valid_rate rate = 0.
Proof.
  unfold is_valid_rate, valid_rates_values. cbn [is_valid_rate_loop].
  repeat (destruct (_ =? rate); [now left|]). now right.
Qed.

(** The reaction to a message leaves all but the rate, the output buffer
    and the strings printed. *)
Lemma react_shape (m : list Z * list Z) (s : main_state) (printed : list (list Z)) :
  exists ob,
    react m (s, printed) =
      (set_UART_output_buff ob (set_print_mag_rate (next_rate (print_mag_rate s) m) s),
       printed ++ repeat (lit "$ERR,1*") (if refused m then 1 else 0)).
Proof.
  unfold react, next_rate, refused. cbn [fst snd].
  destruct (decide (m.1 = chars "RATE")).
  - destruct (is_valid_rate (extract_integer m.2) =? 0); cbn [negb].
    + eexists. rewrite print_fst. cbn [fst snd repeat]. now destruct s.
    + exists (UART_output_buff s). cbn [repeat]. rewrite app_nil_r. now destruct s.
  - exists (UART_output_buff s). cbn [repeat]. rewrite app_nil_r. now destruct s.
Qed.

Lemma react_all_shape (msgs : list (list Z * list Z)) :
  forall (s : main_state) (printed : list (list Z)),
  exists ob,
    react_all msgs (s, printed) =
      (set_UART_output_buff ob (set_print_mag_rate (rate_after msgs (print_mag_rate s)) s),
       printed ++ repeat (lit "$ERR,1*") (errors msgs)).
Proof.
  unfold react_all, rate_after, errors.
  induction msgs as [|m msgs IH]; intros s printed.
  - exists (UART_output_buff s). cbn [fold_left List.filter length repeat].
    rewrite app_nil_r. now destruct s.
  - cbn [fold_left List.filter]. destruct (react_shape m s printed) as (ob1 & ->).
    destruct (IH (set_UART_output_buff ob1 (set_print_mag_rate (next_rate (print_mag_rate s) m) s))
                 (printed ++ repeat (lit "$ERR,1*") (if refused m then 1 else 0)))
      as (ob2 & ->).
    exists ob2. cbn [print_mag_rate set_UART_output_buff set_print_mag_rate].
    rewrite <- app_assoc, <- repeat_app.
    destruct (refused m); cbn [length Nat.add]; reflexivity.
Qed.

Lemma next_rate_valid (rate : Z) (m : list Z * list Z) :
  In rate valid_rates_values -> In (next_rate rate m) valid_rates_values.
Proof.
  intros Hr. unfold next_rate, refused.
  destruct (decide (m.1 = chars "RATE")); [|exact Hr].
  destruct (is_valid_rate_01 (extract_integer m.2)) as [Hv|Hv]; rewrite Hv; cbn [Z.eqb].
  - now apply is_valid_rate_In.
  - exact Hr.
Qed.

Lemma rate_after_valid (msgs : list (list Z * list Z)) : forall rate,
  In rate valid_rates_values -> In (rate_after msgs rate) valid_rates_values.
Proof.
  unfold rate_after. induction msgs as [|m msgs IH]; intros rate Hr; [exact Hr|].
  cbn [fold_left]. apply IH. now apply next_rate_valid.
Qed.

Lemma rate_after_app (a b : list (list Z * list Z)) (rate : Z) :
  rate_after (a ++ b) rate = rate_after b (rate_after a rate).
Proof. unfold rate_after. apply fold_left_app. Qed.

Lemma led_task_shape (s : main_state) (p : list (list Z)) :
  led_task (s, p) =
    (set_LD2 (if LD2_toggle_counter s + 1 >=? CLOCK_LD_TOGGLE then 0
              else LD2_toggle_counter s + 1)
             (if LD2_toggle_counter s + 1 >=? CLOCK_LD_TOGGLE then negb (LATG9 s)
              else LATG9 s) s, p).
Proof. unfold led_task. cbn [fst snd]. now destruct (_ >=? _). Qed.

Lemma acquire_stored (m : MagReadings) (sample : MagReading) :
  acquire m sample =
    Some (stored m sample, fifth (get_reading (stored m sample) (w (stored m sample)))).
Proof. exact (acquire_one_slot m sample). Qed.

Lemma acquire_task_shape (heading : Z -> Z -> Z) (sample : MagReading) (s : main_state)
    (p : list (list Z)) :
  acquire_task heading sample (s, p) =
    Some (if acquire_mag_counter s + 1 >=? CLOCK_ACQUIRE_MAG then
            set_acquired (stored (mag_readings s) sample)
              (fifth (get_reading (stored (mag_readings s) sample)
                        (w (stored (mag_readings s) sample))))
              (heading
                 (y (fifth (get_reading (stored (mag_readings s) sample)
                              (w (stored (mag_readings s) sample)))))
                 (x (fifth (get_reading (stored (mag_readings s) sample)
                              (w (stored (mag_readings s) sample))))))
              (set_acquire_mag_counter 0 s)
          else set_acquire_mag_counter (acquire_mag_counter s + 1) s, p).
Proof.
  unfold acquire_task. cbn [fst snd]. destruct (_ >=? _); [|reflexivity].
  now rewrite acquire_stored.
Qed.

Lemma mag_task_shape (s : main_state) (p : list (list Z)) :
  exists ob,
    mag_task (s, p) =
      (set_UART_output_buff ob
         (set_print_mag_counter
            (if print_mag_rate s =? 0 then print_mag_counter s
             else if print_mag_counter s + 1 >=? Z.quot main_hz (print_mag_rate s) then 0
                  else print_mag_counter s + 1) s),
       p ++ (if negb (print_mag_rate s =? 0) &&
                (print_mag_counter s + 1 >=? Z.quot main_hz (print_mag_rate s))
             then [sprintf_mag (avg_reading s)] else [])).
Proof.
  unfold mag_task. cbn [fst snd]. destruct (print_mag_rate s =? 0); cbn [negb andb].
  - exists (UART_output_buff s). rewrite app_nil_r. now destruct s.
  - destruct (_ >=? _).
    + eexists. rewrite print_fst. reflexivity.
    + exists (UART_output_buff s). rewrite app_nil_r. now destruct s.
Qed.

Lemma yaw_task_shape (s : main_state) (p : list (list Z)) :
  exists ob,
    yaw_task (s, p) =
      (set_UART_output_buff ob
         (set_print_yaw_counter
            (if print_yaw_counter s + 1 >=? CLOCK_YAW_PRINT then 0
             else print_yaw_counter s + 1) s),
       p ++ (if print_yaw_counter s + 1 >=? CLOCK_YAW_PRINT
             then [sprintf_yaw (yaw_deg s)] else [])).
Proof.
  unfold yaw_task. cbn [fst snd]. destruct (_ >=? _).
  - eexists. rewrite print_fst. reflexivity.
  - exists (UART_output_buff s). rewrite app_nil_r. now destruct s.
Qed.

(** One pass through the loop, field by field: the tasks count, the bytes
    that wait go through the parser, and the messages they complete are
    reacted to. *)
Lemma tick_shape (heading : Z -> Z -> Z) (s : main_state) (sample : MagReading) :
  valid INPUT_BUFF_LEN (UART_input_buff s) ->
  let bytes := waiting INPUT_BUFF_LEN (UART_input_buff s) in
  let msgs := snd (feed (pstate s) bytes) in
  let s2 :=
    if acquire_mag_counter s + 1 >=? CLOCK_ACQUIRE_MAG then
      set_acquired (stored (mag_readings s) sample)
        (fifth (get_reading (stored (mag_readings s) sample)
                  (w (stored (mag_readings s) sample))))
        (heading
           (y (fifth (get_reading (stored (mag_readings s) sample)
                        (w (stored (mag_readings s) sample)))))
           (x (fifth (get_reading (stored (mag_readings s) sample)
                        (w (stored (mag_readings s) sample))))))
        (set_acquire_mag_counter 0 s)
    else set_acquire_mag_counter (acquire_mag_counter s + 1) s in
  exists ob,
    tick heading s sample =
      Some (set_UART_input_buff (drained (UART_input_buff s))
              (set_pstate (fst (feed (pstate s) bytes))
                 (set_UART_output_buff ob
                    (set_print_mag_rate (rate_after msgs (print_mag_rate s))
                       (set_print_yaw_counter
                          (if print_yaw_counter s + 1 >=? CLOCK_YAW_PRINT then 0
                           else print_yaw_counter s + 1)
                          (set_print_mag_counter
                             (if print_mag_rate s =? 0 then print_mag_counter s
                              else if print_mag_counter s + 1 >=?
                                        Z.quot main_hz (print_mag_rate s) then 0
                                   else print_mag_counter s + 1)
                             (set_LD2
                                (if LD2_toggle_counter s + 1 >=? CLOCK_LD_TOGGLE then 0
                                 else LD2_toggle_counter s + 1)
                                (if LD2_toggle_counter s + 1 >=? CLOCK_LD_TOGGLE
                                 then negb (LATG9 s) else LATG9 s) s2)))))),
            (if negb (print_mag_rate s =? 0) &&
                (print_mag_counter s + 1 >=? Z.quot main_hz (print_mag_rate s))
             then [sprintf_mag (avg_reading s2)] else []) ++
            (if print_yaw_counter s + 1 >=? CLOCK_YAW_PRINT
             then [sprintf_yaw (yaw_deg s2)] else []) ++
            repeat (lit "$ERR,1*") (errors msgs)).
Proof.
  intros Hv bytes msgs s2.
  unfold tick. rewrite led_task_shape, acquire_task_shape.
  set (s1 := set_LD2 _ _ s).
  set (s2' := if acquire_mag_counter s1 + 1 >=? CLOCK_ACQUIRE_MAG then _ else _).
  destruct (mag_task_shape s2' []) as (ob1 & ->). cbn [app].
  set (s3 := set_UART_output_buff ob1 _).
  destruct (yaw_task_shape s3 (if negb (print_mag_rate s2' =? 0) &&
                                   (print_mag_counter s2' + 1 >=?
                                      Z.quot main_hz (print_mag_rate s2'))
                               then [sprintf_mag (avg_reading s2')] else []))
    as (ob2 & ->).
  set (s4 := set_UART_output_buff ob2 _).
  assert (Hi : UART_input_buff s4 = UART_input_buff s).
  { subst s4 s3 s2' s1. cbn. now destruct (_ >=? _). }
  assert (Hps : pstate s4 = pstate s).
  { subst s4 s3 s2' s1. cbn. now destruct (_ >=? _). }
  assert (Hu : used INPUT_BUFF_LEN (UART_input_buff s) <= Z.of_nat (Z.to_nat INPUT_BUFF_LEN)).
  { pose proof (used_range INPUT_BUFF_LEN eq_refl _ Hv). unfold INPUT_BUFF_LEN in *. cbn. lia. }
  rewrite drain_pending; rewrite ?Hi; try assumption.
  rewrite (waiting_pending INPUT_BUFF_LEN eq_refl) by assumption. fold bytes.
  rewrite handle_bytes_react. rewrite Hps. fold msgs.
  destruct (react_all_shape msgs s4 (
      (if negb (print_mag_rate s2' =? 0) &&
          (print_mag_counter s2' + 1 >=? Z.quot main_hz (print_mag_rate s2'))
       then [sprintf_mag (avg_reading s2')] else []) ++
      (if print_yaw_counter s3 + 1 >=? CLOCK_YAW_PRINT
       then [sprintf_yaw (yaw_deg s3)] else []))) as (ob3 & ->).
  exists ob3. cbn [fst snd].
  subst s4 s3 s2' s1 s2.
  destruct (acquire_mag_counter s + 1 >=? CLOCK_ACQUIRE_MAG) eqn:Ha;
    cbn [acquire_mag_counter set_LD2]; rewrite Ha; rewrite <- app_assoc; reflexivity.
Qed.

(** *** A tick of a run *)

(** What waits after the receive interrupt has stored a burst into the
    idle buffer: as much of the burst as the buffer has room for. *)
Lemma rx_idle (received : list Z) (s : main_state) :
  input_idle s ->
  waiting INPUT_BUFF_LEN (_U1RXInterrupt received (UART_input_buff s)) =
    take (Z.to_nat (INPUT_BUFF_LEN - 1)) received /\
  valid INPUT_BUFF_LEN (_U1RXInterrupt received (UART_input_buff s)) /\
  Z.of_nat (length (buff (_U1RXInterrupt received (UART_input_buff s)))) = INPUT_BUFF_LEN.
Proof.
  intros (Hv & He & Hl).
  assert (Hn : 1 < INPUT_BUFF_LEN) by reflexivity.
  rewrite rx_push_all.
  destruct (push_all_overflow _ Hn received _ Hv Hl) as (Hw & _ & Hv1).
  split; [|split; [exact Hv1|]].
  - rewrite Hw. unfold waiting, free. rewrite (pending_empty _ _ _ He).
    rewrite (proj2 (used_empty _ Hn _ Hv) He). cbn [app]. now rewrite Z.sub_0_r.
  - destruct (push_all_length_buff INPUT_BUFF_LEN received (UART_input_buff s)) as [-> _].
    exact Hl.
Qed.

Ltac fields :=
  cbn [print_mag_rate mag_readings LD2_toggle_counter acquire_mag_counter print_mag_counter
       print_yaw_counter avg_reading yaw_deg pstate UART_input_buff UART_output_buff LATG9
       set_print_mag_rate set_LD2 set_acquire_mag_counter set_acquired set_print_mag_counter
       set_print_yaw_counter set_pstate set_UART_input_buff set_UART_output_buff fst snd].

Ltac fields_in H :=
  cbn [print_mag_rate mag_readings LD2_toggle_counter acquire_mag_counter print_mag_counter
       print_yaw_counter avg_reading yaw_deg pstate UART_input_buff UART_output_buff LATG9
       set_print_mag_rate set_LD2 set_acquire_mag_counter set_acquired set_print_mag_counter
       set_print_yaw_counter set_pstate set_UART_input_buff set_UART_output_buff fst snd] in H.

Lemma filter_ERR (k : nat) :
  List.filter is_yaw (repeat (lit "$ERR,1*") k) = [] /\
  List.filter is_mag (repeat (lit "$ERR,1*") k) = [].
Proof. induction k as [|k IH]; [split; reflexivity | exact IH]. Qed.

(** A tick of a run: the receive interrupt, then one pass through the
    loop.  The input buffer is idle again; the parser has read what was
    taken of the burst, and the rate is what the completed messages make
    it; the tasks have counted; the frames printed carry the values the
    acquisition of this tick has left. *)
Lemma tick_rx_view (heading : Z -> Z -> Z) (s : main_state) (received : list Z)
    (sample : MagReading) :
  input_idle s ->
  exists s' p,
    tick heading (set_UART_input_buff (_U1RXInterrupt received (UART_input_buff s)) s) sample =
      Some (s', p) /\
    input_idle s' /\
    pstate s' = fst (feed (pstate s) (take (Z.to_nat (INPUT_BUFF_LEN - 1)) received)) /\
    print_mag_rate s' =
      rate_after (snd (feed (pstate s) (take (Z.to_nat (INPUT_BUFF_LEN - 1)) received)))
        (print_mag_rate s) /\
    LD2_toggle_counter s' =
      (if LD2_toggle_counter s + 1 >=? CLOCK_LD_TOGGLE then 0 else LD2_toggle_counter s + 1) /\
    LATG9 s' =
      (if LD2_toggle_counter s + 1 >=? CLOCK_LD_TOGGLE then negb (LATG9 s) else LATG9 s) /\
    acquire_mag_counter s' =
      (if acquire_mag_counter s + 1 >=? CLOCK_ACQUIRE_MAG then 0
       else acquire_mag_counter s + 1) /\
    ((acquire_mag_counter s + 1 >=? CLOCK_ACQUIRE_MAG) = true ->
       acquire (mag_readings s) sample = Some (mag_readings s', avg_reading s') /\
       yaw_deg s' = heading (y (avg_reading s')) (x (avg_reading s'))) /\
    ((acquire_mag_counter s + 1 >=? CLOCK_ACQUIRE_MAG) = false ->
       mag_readings s' = mag_readings s /\ avg_reading s' = avg_reading s /\
       yaw_deg s' = yaw_deg s) /\
    print_yaw_counter s' =
      (if print_yaw_counter s + 1 >=? CLOCK_YAW_PRINT then 0 else print_yaw_counter s + 1) /\
    print_mag_counter s' =
      (if print_mag_rate s =? 0 then print_mag_counter s
       else if print_mag_counter s + 1 >=? Z.quot main_hz (print_mag_rate s) then 0
            else print_mag_counter s + 1) /\
    List.filter is_yaw p =
      (if print_yaw_counter s + 1 >=? CLOCK_YAW_PRINT then [sprintf_yaw (yaw_deg s')] else []) /\
    List.filter is_mag p =
      (if negb (print_mag_rate s =? 0) &&
          (print_mag_counter s + 1 >=? Z.quot main_hz (print_mag_rate s))
       then [sprintf_mag (avg_reading s')] else []) /\
    p = (if negb (print_mag_rate s =? 0) &&
            (print_mag_counter s + 1 >=? Z.quot main_hz (print_mag_rate s))
         then [sprintf_mag (avg_reading s')] else []) ++
        (if print_yaw_counter s + 1 >=? CLOCK_YAW_PRINT
         then [sprintf_yaw (yaw_deg s')] else []) ++
        repeat (lit "$ERR,1*")
          (errors (snd (feed (pstate s) (take (Z.to_nat (INPUT_BUFF_LEN - 1)) received)))).
Proof.
  intros Hidle. destruct (rx_idle received s Hidle) as (Hw & Hv & Hl).
  pose proof (tick_shape heading
                (set_UART_input_buff (_U1RXInterrupt received (UART_input_buff s)) s)
                sample Hv) as Ht.
  cbv zeta in Ht. destruct Ht as (ob & Ht). fields_in Ht. rewrite Hw in Ht.
  eexists. eexists. split; [exact Ht|]. clear Ht.
  destruct (filter_ERR (errors (snd (feed (pstate s)
              (take (Z.to_nat (INPUT_BUFF_LEN - 1)) received))))) as [Hfy Hfm].
  split; [|destruct (acquire_mag_counter s + 1 >=? CLOCK_ACQUIRE_MAG) eqn:Ha; fields;
           rewrite ?List.filter_app, ?Hfy, ?Hfm, ?app_nil_r].
  - unfold input_idle. fields. unfold drained. cbn [read write buff].
    destruct Hv as [_ Hwr]. repeat split; try apply Hwr. exact Hl.
  - repeat split; try discriminate.
    + apply acquire_stored.
    + destruct (print_yaw_counter s + 1 >=? CLOCK_YAW_PRINT);
        destruct (negb (print_mag_rate s =? 0) &&
                  (print_mag_counter s + 1 >=? Z.quot main_hz (print_mag_rate s)));
        reflexivity.
    + destruct (print_yaw_counter s + 1 >=? CLOCK_YAW_PRINT);
        destruct (negb (print_mag_rate s =? 0) &&
                  (print_mag_counter s + 1 >=? Z.quot main_hz (print_mag_rate s)));
        reflexivity.
  - repeat split; try discriminate.
    + destruct (print_yaw_counter s + 1 >=? CLOCK_YAW_PRINT);
        destruct (negb (print_mag_rate s =? 0) &&
                  (print_mag_counter s + 1 >=? Z.quot main_hz (print_mag_rate s)));
        reflexivity.
    + destruct (print_yaw_counter s + 1 >=? CLOCK_YAW_PRINT);
        destruct (negb (print_mag_rate s =? 0) &&
                  (print_mag_counter s + 1 >=? Z.quot main_hz (print_mag_rate s)));
        reflexivity.
Qed.

(** *** Runs *)

Lemma taken_cons (received : list Z) (sample : MagReading)
    (rest : list (list Z * MagReading)) :
  taken ((received, sample) :: rest) =
    take (Z.to_nat (INPUT_BUFF_LEN - 1)) received ++ taken rest.
Proof. reflexivity. Qed.

(** Over a run the parser reads the bytes taken of the bursts as one
    stream, and the rate follows the messages of that stream. *)
Lemma run_parse (heading : Z -> Z -> Z) (inputs : list (list Z * MagReading)) :
  forall s : main_state,
  input_idle s ->
  exists s' printed,
    run heading s inputs = Some (s', printed) /\
    length printed = length inputs /\
    input_idle s' /\
    pstate s' = fst (feed (pstate s) (taken inputs)) /\
    print_mag_rate s' = rate_after (snd (feed (pstate s) (taken inputs))) (print_mag_rate s).
Proof.
  induction inputs as [|[received sample] inputs IH]; intros s Hidle.
  - exists s, []. repeat split; apply Hidle.
  - cbn [run]. rewrite taken_cons.
    destruct (tick_rx_view heading s received sample Hidle)
      as (s1 & p1 & -> & Hidle1 & Hps1 & Hr1 & _).
    destruct (IH s1 Hidle1) as (s2 & later & -> & Hlen & Hidle2 & Hps2 & Hr2).
    exists s2, (p1 :: later). split; [reflexivity|].
    split; [cbn [length]; now rewrite Hlen|]. split; [exact Hidle2|].
    destruct (feed_app_parts (take (Z.to_nat (INPUT_BUFF_LEN - 1)) received) (pstate s)
                (taken inputs)) as [-> ->].
    rewrite rate_after_app, <- Hps1, <- Hr1. split; assumption.
Qed.

Lemma taken_all (inputs : list (list Z * MagReading)) :
  Forall (fun input => (length (fst input) <= 9)%nat) inputs ->
  taken inputs = concat (map fst inputs).
Proof.
  induction 1 as [|[received sample] inputs Hlen _ IH]; [reflexivity|].
  rewrite taken_cons, IH. cbn [map concat fst] in *.
  rewrite take_ge; [reflexivity|]. unfold INPUT_BUFF_LEN. cbn. lia.
Qed.

(** X13: over a run that starts with nothing waiting in the input buffer,
    every tick ends, and the parser has read, as one stream, what the input
    buffer took of the bursts received before the ticks: of each burst its
    first 9 characters.  The telemetry rate at the end is what the messages
    completed in that stream make of the rate at the start, and the input
    buffer is left with nothing waiting. *)
Theorem run_feeds_parser (heading : Z -> Z -> Z) (inputs : list (list Z * MagReading))
    (s : main_state) :
  input_idle s ->
  exists s' printed,
    run heading s inputs = Some (s', printed) /\
    length printed = length inputs /\
    pstate s' = fst (feed (pstate s) (taken inputs)) /\
    print_mag_rate s' = rate_after (snd (feed (pstate s) (taken inputs))) (print_mag_rate s) /\
    input_idle s' /\
    (Forall (fun input => (length (fst input) <= 9)%nat) inputs ->
       taken inputs = concat (map fst inputs)).
Proof.
  intros Hidle.
  destruct (run_parse heading inputs s Hidle) as (s' & printed & Hrun & Hlen & Hi & Hps & Hr).
  exists s', printed. repeat split; try assumption; try apply Hi. apply taken_all.
Qed.

Lemma run_feeds_parser_witness :
  input_idle (main_parsing []) /\
  exists s' printed,
    run (fun _ _ => 0) (main_parsing [])
        [(chars "$RA", zero_reading); (chars "TE,1", zero_reading);
         (chars "0*", zero_reading)] = Some (s', printed) /\
    print_mag_rate s' = 10.
Proof.
  assert (H : input_idle (main_parsing [])).
  { unfold input_idle. vm_compute. repeat split; congruence. }
  split; [exact H|].
  destruct (run_feeds_parser (fun _ _ => 0)
              [(chars "$RA", zero_reading); (chars "TE,1", zero_reading);
               (chars "0*", zero_reading)] (main_parsing []) H)
    as (s' & printed & Hrun & _ & _ & Hr & _).
  exists s', printed. split; [exact Hrun|]. rewrite Hr. vm_compute. reflexivity.
Defined.

(** X14: a stream of frames that the parser takes, cut into bursts of at
    most 9 characters in any way and received burst by burst before the
    ticks of a run, sets the telemetry rate as the messages of the frames
    in their order do: each [RATE] message with a value of the table sets
    it, all others leave it. *)
Theorem commands_across_ticks (heading : Z -> Z -> Z) (inputs : list (list Z * MagReading))
    (items : list (list Z * wire_frame)) (tail : list Z) (s : main_state) :
  input_idle s -> state (pstate s) = STATE_DOLLAR -> sized (pstate s) ->
  Forall (fun input => (length (fst input) <= 9)%nat) inputs ->
  concat (map fst inputs) = stream items tail ->
  Forall (fun item => noise (fst item) /\ accepted (snd item)) items -> noise tail ->
  exists s' printed,
    run heading s inputs = Some (s', printed) /\
    print_mag_rate s' =
      rate_after (map (fun item => frame_message (snd item)) items) (print_mag_rate s) /\
    state (pstate s') = STATE_DOLLAR.
Proof.
  intros Hidle Hst Hsz Hlen Hcat Hitems Htail.
  destruct (run_parse heading inputs s Hidle) as (s' & printed & Hrun & _ & _ & Hps & Hr).
  exists s', printed. split; [exact Hrun|].
  rewrite (taken_all inputs Hlen), Hcat in Hps, Hr.
  destruct (feed_stream items tail (pstate s) Hst Hsz Hitems Htail) as (ps' & Hf & Hst' & _).
  rewrite Hf in Hps, Hr. cbn [fst snd] in Hps, Hr. split; [exact Hr | congruence].
Qed.

Lemma commands_across_ticks_witness :
  input_idle (main_parsing []) /\ state (pstate (main_parsing [])) = STATE_DOLLAR /\
  sized (pstate (main_parsing [])) /\
  exists s' printed,
    run (fun _ _ => 0) (main_parsing [])
        [(chars "$RATE,3*$", zero_reading); (chars "RATE,2*", zero_reading)] =
      Some (s', printed) /\
    print_mag_rate s' = 2.
Proof.
  assert (H1 : input_idle (main_parsing [])).
  { unfold input_idle. vm_compute. repeat split; congruence. }
  assert (H2 : state (pstate (main_parsing [])) = STATE_DOLLAR) by reflexivity.
  assert (H3 : sized (pstate (main_parsing []))) by (split; reflexivity).
  split; [exact H1 | split; [exact H2 | split; [exact H3|]]].
  destruct (commands_across_ticks (fun _ _ => 0)
              [(chars "$RATE,3*$", zero_reading); (chars "RATE,2*", zero_reading)]
              [([], WithPayload (chars "RATE") (chars "3"));
               ([], WithPayload (chars "RATE") (chars "2"))] [] (main_parsing []) H1 H2 H3)
    as (s' & printed & Hrun & Hr & _).
  - repeat constructor; vm_compute; lia.
  - reflexivity.
  - concrete.
  - constructor.
  - exists s', printed. split; [exact Hrun|]. rewrite Hr. vm_compute. reflexivity.
Defined.

(** *** Counters *)

(** A counter that is reset when it reaches [period]: where it stands
    after one tick, and what that is to the ticks that follow. *)
Lemma phase_step (period k : Z) :
  0 < period -> 0 <= k < period ->
  0 <= (if k + 1 >=? period then 0 else k + 1) < period /\
  in_phase period k 0 = (if k + 1 >=? period then 1%nat else 0%nat) /\
  forall i : nat,
    in_phase period k (S i) = in_phase period (if k + 1 >=? period then 0 else k + 1) i.
Proof.
  intros Hp Hk. unfold in_phase.
  destruct (Z.geb_spec (k + 1) period) as [Hge|Hlt].
  - assert (Hk1 : k + 1 = period) by lia.
    split; [lia|]. split.
    + cbn [Z.of_nat]. rewrite Z.add_0_r, Hk1, Z.mod_same by lia. reflexivity.
    + intros i. rewrite Nat2Z.inj_succ.
      replace (k + Z.succ (Z.of_nat i) + 1) with (0 + Z.of_nat i + 1 + 1 * period) by lia.
      now rewrite Z.mod_add by lia.
  - split; [lia|]. split.
    + cbn [Z.of_nat]. rewrite Z.add_0_r, Z.mod_small by lia.
      destruct (Z.eqb_spec (k + 1) 0); [lia | reflexivity].
    + intros i. rewrite Nat2Z.inj_succ.
      now replace (k + Z.succ (Z.of_nat i) + 1) with (k + 1 + Z.of_nat i + 1) by lia.
Qed.

(** The [$YAW] frames of a run, whatever is received. *)
Lemma run_yaw (heading : Z -> Z -> Z) (inputs : list (list Z * MagReading)) :
  forall s : main_state,
  input_idle s -> 0 <= print_yaw_counter s < CLOCK_YAW_PRINT ->
  exists s' printed,
    run heading s inputs = Some (s', printed) /\
    length printed = length inputs /\
    forall (i : nat) (p : list (list Z)),
      printed !! i = Some p -> count_yaw p = in_phase CLOCK_YAW_PRINT (print_yaw_counter s) i.
Proof.
  induction inputs as [|[received sample] inputs IH]; intros s Hidle Hk.
  - exists s, []. repeat split. intros i p Hp. destruct i; discriminate.
  - cbn [run].
    destruct (tick_rx_view heading s received sample Hidle)
      as (s1 & p1 & -> & Hidle1 & _ & _ & _ & _ & _ & _ & _ & Hy1 & _ & Hf1 & _).
    destruct (phase_step CLOCK_YAW_PRINT (print_yaw_counter s) eq_refl Hk) as (Hk1 & H0 & HS).
    rewrite <- Hy1 in Hk1, HS.
    destruct (IH s1 Hidle1 Hk1) as (s2 & later & -> & Hlen & Hlater).
    exists s2, (p1 :: later). split; [reflexivity|].
    split; [cbn [length]; now rewrite Hlen|].
    intros i p Hp. destruct i as [|i]; cbn in Hp.
    + injection Hp as <-. rewrite H0. unfold count_yaw. rewrite Hf1.
      now destruct (_ >=? _).
    + rewrite HS. now apply Hlater.
Qed.

(** The LED of a run, whatever is received. *)
Lemma run_led (heading : Z -> Z -> Z) (inputs : list (list Z * MagReading)) :
  forall s : main_state,
  input_idle s -> 0 <= LD2_toggle_counter s < CLOCK_LD_TOGGLE ->
  exists s' printed,
    run heading s inputs = Some (s', printed) /\
    LD2_toggle_counter s' =
      (LD2_toggle_counter s + Z.of_nat (length inputs)) mod CLOCK_LD_TOGGLE /\
    LATG9 s' =
      xorb (LATG9 s)
           (Z.odd ((LD2_toggle_counter s + Z.of_nat (length inputs)) / CLOCK_LD_TOGGLE)).
Proof.
  unfold CLOCK_LD_TOGGLE.
  induction inputs as [|[received sample] inputs IH]; intros s Hidle Hk.
  - exists s, []. split; [reflexivity|]. cbn [length Z.of_nat]. rewrite Z.add_0_r.
    rewrite Z.mod_small, Z.div_small by lia. cbn [Z.odd]. now rewrite xorb_false_r.
  - cbn [run].
    destruct (tick_rx_view heading s received sample Hidle)
      as (s1 & p1 & -> & Hidle1 & _ & _ & Hc1 & Hl1 & _).
    unfold CLOCK_LD_TOGGLE in Hc1, Hl1.
    destruct (IH s1 Hidle1) as (s2 & later & -> & Hc2 & Hl2).
    { rewrite Hc1. destruct (Z.geb_spec (LD2_toggle_counter s + 1) 50); lia. }
    exists s2, (p1 :: later). split; [reflexivity|].
    rewrite Hc2, Hl2, Hc1, Hl1. cbn [length]. rewrite Nat2Z.inj_succ.
    destruct (Z.geb_spec (LD2_toggle_counter s + 1) 50) as [Hge|Hlt].
    + replace (LD2_toggle_counter s + Z.succ (Z.of_nat (length inputs)))
        with (0 + Z.of_nat (length inputs) + 1 * 50) by lia.
      rewrite Z.mod_add, Z.div_add by lia. split; [reflexivity|].
      rewrite Z.add_1_r, Z.odd_succ, <- Z.negb_odd.
      now destruct (LATG9 s), (Z.odd ((0 + Z.of_nat (length inputs)) / 50)).
    + now replace (LD2_toggle_counter s + Z.succ (Z.of_nat (length inputs)))
        with (LD2_toggle_counter s + 1 + Z.of_nat (length inputs)) by lia.
Qed.

(** The acquisitions of a run, whatever is received. *)
Lemma run_acquire (heading : Z -> Z -> Z) (inputs : list (list Z * MagReading)) :
  forall s : main_state,
  input_idle s -> 0 <= acquire_mag_counter s < CLOCK_ACQUIRE_MAG ->
  exists s' printed,
    run heading s inputs = Some (s', printed) /\
    acquire_all (mag_readings s) (avg_reading s)
      (acquired_samples (acquire_mag_counter s) inputs) =
      Some (mag_readings s', avg_reading s') /\
    acquire_mag_counter s' =
      (acquire_mag_counter s + Z.of_nat (length inputs)) mod CLOCK_ACQUIRE_MAG /\
    (CLOCK_ACQUIRE_MAG <= acquire_mag_counter s + Z.of_nat (length inputs) ->
       yaw_deg s' = heading (y (avg_reading s')) (x (avg_reading s'))) /\
    (acquire_mag_counter s + Z.of_nat (length inputs) < CLOCK_ACQUIRE_MAG ->
       yaw_deg s' = yaw_deg s /\ acquired_samples (acquire_mag_counter s) inputs = []).
Proof.
  unfold CLOCK_ACQUIRE_MAG.
  induction inputs as [|[received sample] inputs IH]; intros s Hidle Hk.
  - exists s, []. split; [reflexivity|]. cbn [length Z.of_nat acquired_samples acquire_all].
    rewrite Z.add_0_r, Z.mod_small by lia. repeat split; try reflexivity. lia.
  - cbn [run acquired_samples].
    destruct (tick_rx_view heading s received sample Hidle)
      as (s1 & p1 & -> & Hidle1 & _ & _ & _ & _ & Hc1 & Hyes & Hno & _).
    unfold CLOCK_ACQUIRE_MAG in Hc1, Hyes, Hno |- *.
    destruct (IH s1 Hidle1) as (s2 & later & -> & Ha2 & Hc2 & Hy2 & Hn2).
    { rewrite Hc1. destruct (Z.geb_spec (acquire_mag_counter s + 1) 4); lia. }
    exists s2, (p1 :: later). split; [reflexivity|].
    cbn [length]. rewrite Nat2Z.inj_succ.
    destruct (Z.geb_spec (acquire_mag_counter s + 1) 4) as [Hge|Hlt].
    + destruct (Hyes eq_refl) as [Hacq Hyaw]. rewrite Hc1 in *.
      cbn [acquire_all]. rewrite Hacq. split; [exact Ha2|]. split.
      * rewrite Hc2.
        replace (acquire_mag_counter s + Z.succ (Z.of_nat (length inputs)))
          with (0 + Z.of_nat (length inputs) + 1 * 4) by lia.
        now rewrite Z.mod_add by lia.
      * split; [|lia]. intros _.
        destruct (Z.le_gt_cases 4 (0 + Z.of_nat (length inputs))) as [Hle|Hgt];
          [now apply Hy2|].
        destruct (Hn2 Hgt) as [Hy He]. rewrite He in Ha2. cbn [acquire_all] in Ha2.
        injection Ha2 as _ Havg. rewrite Hy, <- Havg. exact Hyaw.
    + destruct (Hno eq_refl) as (Hm & Havg & Hyaw). rewrite Hc1 in *.
      rewrite Hm, Havg in Ha2. split; [exact Ha2|]. split.
      * rewrite Hc2. f_equal. lia.
      * split.
        -- intros Hle. apply Hy2. lia.
        -- intros Hlt'. destruct Hn2 as [Hy He]; [lia|]. split; [congruence | exact He].
Qed.

Lemma acquired_every_fourth (n : nat) : forall inputs : list (list Z * MagReading),
  (length inputs <= n)%nat -> acquired_samples 0 inputs = every_fourth (map snd inputs).
Proof.
  induction n as [n IH] using lt_wf_ind. intros inputs Hlen.
  destruct inputs as [|[r1 s1] [|[r2 s2] [|[r3 s3] [|[r4 s4] rest]]]]; try reflexivity.
  cbn [map snd every_fourth]. rewrite <- (IH (length rest)); cbn [length] in *; try lia.
  reflexivity.
Qed.

(** *** The window of readings *)

Lemma window_cases (m : MagReadings) :
  window_ok m ->
  exists r0 r1 r2 r3 r4,
    readings m = [r0; r1; r2; r3; r4] /\
    (w m = 0 \/ w m = 1 \/ w m = 2 \/ w m = 3 \/ w m = 4).
Proof.
  intros [Hw Hl]. unfold N_MAG_READINGS in *.
  destruct (readings m) as [|r0 [|r1 [|r2 [|r3 [|r4 [|r5 rest]]]]]]; try discriminate.
  exists r0, r1, r2, r3, r4. split; [reflexivity | lia].
Qed.

(** One acquisition on a window of five: the sample goes to the slot under
    the cursor, the cursor moves on by one, around the end, and the average
    is the fifth of the reading it comes to stand on. *)
Lemma acquire_window (m : MagReadings) (sample : MagReading) :
  window_ok m ->
  acquire m sample =
    Some (stored m sample, fifth (get_reading m ((w m + 1) mod N_MAG_READINGS))) /\
  window_ok (stored m sample) /\
  w (stored m sample) = (w m + 1) mod N_MAG_READINGS /\
  get_reading (stored m sample) (w m) = sample /\
  (forall i, i <> w m -> get_reading (stored m sample) i = get_reading m i).
Proof.
  intros Hok. rewrite acquire_stored.
  destruct (window_cases m Hok) as (r0 & r1 & r2 & r3 & r4 & Hr & Hw).
  destruct m as [wm rs]. cbn [w readings] in *. subst rs.
  assert (Hi : forall i, i <> wm ->
            get_reading (stored (mk_MagReadings wm [r0; r1; r2; r3; r4]) sample) i =
              get_reading (mk_MagReadings wm [r0; r1; r2; r3; r4]) i).
  { intros i Hne. unfold stored, set_reading, get_reading. cbn [w readings].
    destruct (Z.ltb_spec i 0); [reflexivity|].
    destruct (Z.ltb_spec wm 0); [reflexivity|].
    rewrite list_lookup_insert_ne; [reflexivity | lia]. }
  split; [|split; [|split; [|split; [|exact Hi]]]].
  - rewrite Hi; [|unfold N_MAG_READINGS; cbn [stored w]; destruct Hw as [->|[->|[->|[->| ->]]]];
                  discriminate].
    destruct Hw as [->|[->|[->|[->| ->]]]]; reflexivity.
  - destruct Hw as [->|[->|[->|[->| ->]]]];
      (split; [split; vm_compute; congruence | vm_compute; reflexivity]).
  - destruct Hw as [->|[->|[->|[->| ->]]]]; reflexivity.
  - destruct Hw as [->|[->|[->|[->| ->]]]]; reflexivity.
Qed.

Lemma acquire_all_ok (samples : list MagReading) : forall (m : MagReadings) (avg : MagReading),
  window_ok m ->
  exists m' avg', acquire_all m avg samples = Some (m', avg') /\ window_ok m'.
Proof.
  induction samples as [|sample samples IH]; intros m avg Hok.
  - exists m, avg. split; [reflexivity | exact Hok].
  - cbn [acquire_all]. destruct (acquire_window m sample Hok) as (-> & Hok1 & _).
    apply IH, Hok1.
Qed.

Lemma acquire_all_app (a b : list MagReading) : forall (m : MagReadings) (avg : MagReading),
  acquire_all m avg (a ++ b) =
    match acquire_all m avg a with
    | Some (m1, avg1) => acquire_all m1 avg1 b
    | None => None
    end.
Proof.
  induction a as [|sample a IH]; intros m avg; [reflexivity|].
  cbn [app acquire_all]. destruct (acquire m sample) as [[m1 avg1]|]; [apply IH | reflexivity].
Qed.

(** Five acquisitions in a row fill the window: the cursor is back where
    it was, on the first of the five samples, and the others follow it
    around the window. *)
Lemma acquire_five (m : MagReadings) (avg s0 s1 s2 s3 s4 : MagReading) :
  window_ok m ->
  exists m',
    acquire_all m avg [s0; s1; s2; s3; s4] = Some (m', fifth s0) /\
    window_ok m' /\ w m' = w m /\
    forall i : nat, (i < 5)%nat ->
      get_reading m' ((w m' + Z.of_nat i) mod N_MAG_READINGS) =
        nth i [s0; s1; s2; s3; s4] zero_reading.
Proof.
  intros Hok.
  destruct (window_cases m Hok) as (r0 & r1 & r2 & r3 & r4 & Hr & Hw).
  destruct m as [wm rs]. cbn [w readings] in *. subst rs.
  unfold acquire_all. rewrite !acquire_stored.
  eexists. split; [|split; [|split]].
  - destruct Hw as [->|[->|[->|[->| ->]]]]; reflexivity.
  - destruct Hw as [->|[->|[->|[->| ->]]]];
      (split; [split; vm_compute; congruence | vm_compute; reflexivity]).
  - destruct Hw as [->|[->|[->|[->| ->]]]]; reflexivity.
  - intros i Hi.
    destruct i as [|[|[|[|[|i]]]]]; try lia;
      destruct Hw as [->|[->|[->|[->| ->]]]]; reflexivity.
Qed.

(** *** The frames of a run *)





Lemma valid_rate_period (rate : Z) :
  In rate valid_rates_values -> rate <> 0 ->
  In (Z.quot main_hz rate) [100; 50; 25; 20; 10] /\
  rate * Z.quot main_hz rate = main_hz /\ 100 / Z.quot main_hz rate = rate.
Proof.
  intros H Hnz. unfold valid_rates_values in H.
  repeat (destruct H as [<-|H]; [try contradiction; vm_compute; intuition congruence|]).
  destruct H.
Qed.

(** X15: on a window of five readings with its cursor inside, an
    acquisition returns; the sample is in the slot the cursor was on, the
    other slots are as before, and the cursor has moved on by one, around
    the end.  The average is one fifth, truncated, of the single reading
    the cursor has come to stand on, which is the oldest of the window; the
    sample just stored has no part in it. *)
Theorem acquire_takes_oldest (m : MagReadings) (sample : MagReading) :
  window_ok m ->
  exists m',
    acquire m sample = Some (m', fifth (get_reading m ((w m + 1) mod N_MAG_READINGS))) /\
    window_ok m' /\
    w m' = (w m + 1) mod N_MAG_READINGS /\
    get_reading m' (w m) = sample /\
    (forall i, i <> w m -> get_reading m' i = get_reading m i).
Proof.
  intros Hok. exists (stored m sample). now apply acquire_window.
Qed.

Lemma acquire_takes_oldest_witness :
  window_ok (mk_MagReadings 4 [mk_MagReading 10 20 30; mk_MagReading 11 21 31;
                               mk_MagReading 12 22 32; mk_MagReading 13 23 33;
                               mk_MagReading 14 24 34]) /\
  exists m',
    acquire (mk_MagReadings 4 [mk_MagReading 10 20 30; mk_MagReading 11 21 31;
                               mk_MagReading 12 22 32; mk_MagReading 13 23 33;
                               mk_MagReading 14 24 34]) (mk_MagReading 500 600 700) =
      Some (m', mk_MagReading 2 4 6) /\
    w m' = 0.
Proof.
  assert (H : window_ok (mk_MagReadings 4 [mk_MagReading 10 20 30; mk_MagReading 11 21 31;
                                           mk_MagReading 12 22 32; mk_MagReading 13 23 33;
                                           mk_MagReading 14 24 34])).
  { split; [cbn; unfold N_MAG_READINGS; lia | reflexivity]. }
  split; [exact H|].
  destruct (acquire_takes_oldest _ (mk_MagReading 500 600 700) H) as (m' & Ha & _ & Hw & _).
  exists m'. split; [exact Ha | exact Hw].
Defined.

(** X16: after any acquisitions of which the last five took the samples
    [s0] to [s4], the window of five holds exactly these: [s0] under the
    cursor and the others behind it in their order, around the end.  The
    average then is one fifth of [s0] alone. *)
Theorem window_holds_last_five (m : MagReadings) (avg : MagReading)
    (earlier : list MagReading) (s0 s1 s2 s3 s4 : MagReading) :
  window_ok m ->
  exists m',
    acquire_all m avg (earlier ++ [s0; s1; s2; s3; s4]) = Some (m', fifth s0) /\
    window_ok m' /\
    forall i : nat, (i < 5)%nat ->
      get_reading m' ((w m' + Z.of_nat i) mod N_MAG_READINGS) =
        nth i [s0; s1; s2; s3; s4] zero_reading.
Proof.
  intros Hok. rewrite acquire_all_app.
  destruct (acquire_all_ok earlier m avg Hok) as (m1 & avg1 & -> & Hok1).
  destruct (acquire_five m1 avg1 s0 s1 s2 s3 s4 Hok1) as (m' & Ha & Hok' & _ & Hi).
  exists m'. split; [exact Ha | split; [exact Hok' | exact Hi]].
Qed.

Lemma window_holds_last_five_witness :
  window_ok (window_of zero_reading) /\
  exists m',
    acquire_all (window_of zero_reading) zero_reading
      ([mk_MagReading 1 1 1; mk_MagReading 2 2 2] ++
       [mk_MagReading 50 60 70; mk_MagReading 4 4 4; mk_MagReading 5 5 5;
        mk_MagReading 6 6 6; mk_MagReading 7 7 7]) = Some (m', mk_MagReading 10 12 14).
Proof.
  assert (H : window_ok (window_of zero_reading)).
  { split; [cbn; unfold N_MAG_READINGS; lia | reflexivity]. }
  split; [exact H|].
  destruct (window_holds_last_five _ zero_reading
              [mk_MagReading 1 1 1; mk_MagReading 2 2 2]
              (mk_MagReading 50 60 70) (mk_MagReading 4 4 4) (mk_MagReading 5 5 5)
              (mk_MagReading 6 6 6) (mk_MagReading 7 7 7) H) as (m' & Ha & _).
  exists m'. exact Ha.
Defined.

(** X17: whatever is received, a [$YAW] frame is printed once every 20
    ticks: from a counter [k] below 20, exactly one in each tick whose
    number [i] (from 0) makes [k + i + 1] a multiple of 20, none in the
    others. *)
Theorem yaw_frame_every_20_ticks (heading : Z -> Z -> Z)
    (inputs : list (list Z * MagReading)) (s : main_state) :
  input_idle s -> 0 <= print_yaw_counter s < CLOCK_YAW_PRINT ->
  exists s' printed,
    run heading s inputs = Some (s', printed) /\
    length printed = length inputs /\
    forall (i : nat) (p : list (list Z)),
      printed !! i = Some p ->
      count_yaw p =
        if (print_yaw_counter s + Z.of_nat i + 1) mod CLOCK_YAW_PRINT =? 0
        then 1%nat else 0%nat.
Proof. intros Hidle Hk. exact (run_yaw heading inputs s Hidle Hk). Qed.

Lemma yaw_frame_every_20_ticks_witness :
  input_idle (main_parsing []) /\
  0 <= print_yaw_counter (main_parsing []) < CLOCK_YAW_PRINT /\
  exists s' printed,
    run (fun _ _ => 0) (main_parsing [])
        ((chars "$RATE,0*", zero_reading) :: quiet_inputs 19) = Some (s', printed) /\
    length printed = 20%nat.
Proof.
  assert (H1 : input_idle (main_parsing [])).
  { unfold input_idle. vm_compute. repeat split; congruence. }
  assert (H2 : 0 <= print_yaw_counter (main_parsing []) < CLOCK_YAW_PRINT).
  { vm_compute. split; congruence. }
  split; [exact H1 | split; [exact H2|]].
  destruct (yaw_frame_every_20_ticks (fun _ _ => 0)
              ((chars "$RATE,0*", zero_reading) :: quiet_inputs 19) (main_parsing []) H1 H2)
    as (s' & printed & Hrun & Hlen & _).
  exists s', printed. split; [exact Hrun | exact Hlen].
Defined.

(** X18: whatever is received, the LED changes once every 50 ticks: after
    [n] ticks from a counter [k] below 50 the counter stands at
    [(k + n) mod 50], and the LED has changed [(k + n) / 50] times. *)
Theorem led_toggles_every_50_ticks (heading : Z -> Z -> Z)
    (inputs : list (list Z * MagReading)) (s : main_state) :
  input_idle s -> 0 <= LD2_toggle_counter s < CLOCK_LD_TOGGLE ->
  exists s' printed,
    run heading s inputs = Some (s', printed) /\
    LD2_toggle_counter s' =
      (LD2_toggle_counter s + Z.of_nat (length inputs)) mod CLOCK_LD_TOGGLE /\
    LATG9 s' =
      xorb (LATG9 s)
           (Z.odd ((LD2_toggle_counter s + Z.of_nat (length inputs)) / CLOCK_LD_TOGGLE)).
Proof. intros Hidle Hk. exact (run_led heading inputs s Hidle Hk). Qed.

Lemma led_toggles_every_50_ticks_witness :
  input_idle (main_parsing []) /\
  0 <= LD2_toggle_counter (main_parsing []) < CLOCK_LD_TOGGLE /\
  exists s' printed,
    run (fun _ _ => 0) (main_parsing []) (quiet_inputs 50) = Some (s', printed) /\
    LATG9 s' = true.
Proof.
  assert (H1 : input_idle (main_parsing [])).
  { unfold input_idle. vm_compute. repeat split; congruence. }
  assert (H2 : 0 <= LD2_toggle_counter (main_parsing []) < CLOCK_LD_TOGGLE).
  { vm_compute. split; congruence. }
  split; [exact H1 | split; [exact H2|]].
  destruct (led_toggles_every_50_ticks (fun _ _ => 0) (quiet_inputs 50) (main_parsing []) H1 H2)
    as (s' & printed & Hrun & _ & Hled).
  exists s', printed. split; [exact Hrun | exact Hled].
Defined.

(** X19: whatever is received, the sensor is sampled in every fourth tick:
    over a run that starts with the acquisition counter at 0, the window
    and the average are those that acquisitions of the fourth, the eighth
    sample and so on leave, in this order; the counter ends at the number
    of ticks modulo 4; and once a sample has been taken, the heading is
    that of the average. *)
Theorem sensor_sampled_every_4_ticks (heading : Z -> Z -> Z)
    (inputs : list (list Z * MagReading)) (s : main_state) :
  input_idle s -> acquire_mag_counter s = 0 ->
  exists s' printed,
    run heading s inputs = Some (s', printed) /\
    acquire_all (mag_readings s) (avg_reading s) (every_fourth (map snd inputs)) =
      Some (mag_readings s', avg_reading s') /\
    acquire_mag_counter s' = Z.of_nat (length inputs) mod CLOCK_ACQUIRE_MAG /\
    ((4 <= length inputs)%nat ->
       yaw_deg s' = heading (y (avg_reading s')) (x (avg_reading s'))) /\
    ((length inputs < 4)%nat -> yaw_deg s' = yaw_deg s).
Proof.
  intros Hidle Hc.
  destruct (run_acquire heading inputs s Hidle) as (s' & printed & Hrun & Ha & Hc' & Hy & Hn).
  { rewrite Hc. unfold CLOCK_ACQUIRE_MAG. lia. }
  rewrite Hc in *. rewrite (acquired_every_fourth (length inputs) inputs (le_n _)) in Ha.
  unfold CLOCK_ACQUIRE_MAG in Hy, Hn.
  exists s', printed. split; [exact Hrun|]. split; [exact Ha|]. split; [exact Hc'|].
  split.
  - intros Hlen. apply Hy. lia.
  - intros Hlen. apply Hn. lia.
Qed.

Lemma sensor_sampled_every_4_ticks_witness :
  input_idle (main_parsing []) /\ acquire_mag_counter (main_parsing []) = 0 /\
  exists s' printed,
    run (fun y x => y - x) (main_parsing [])
        (repeat ([], mk_MagReading 50 100 0) 4) = Some (s', printed) /\
    acquire_mag_counter s' = 0.
Proof.
  assert (H1 : input_idle (main_parsing [])).
  { unfold input_idle. vm_compute. repeat split; congruence. }
  assert (H2 : acquire_mag_counter (main_parsing []) = 0) by reflexivity.
  split; [exact H1 | split; [exact H2|]].
  destruct (sensor_sampled_every_4_ticks (fun y x => y - x)
              (repeat ([], mk_MagReading 50 100 0) 4) (main_parsing []) H1 H2)
    as (s' & printed & Hrun & _ & Hc & _).
  exists s', printed. split; [exact Hrun | exact Hc].
Defined.

(** X20: the telemetry rate never leaves the table: over any run from a
    rate of the table the rate at the end is one of 0, 1, 2, 4, 5 and 10,
    and when it is not 0 the period [main_hz / rate] of the magnetometer
    task is exact and lies between 10 and 100 ticks. *)
Theorem rate_stays_in_table (heading : Z -> Z -> Z)
    (inputs : list (list Z * MagReading)) (s : main_state) :
  input_idle s -> In (print_mag_rate s) valid_rates_values ->
  exists s' printed,
    run heading s inputs = Some (s', printed) /\
    In (print_mag_rate s') [0; 1; 2; 4; 5; 10] /\
    (print_mag_rate s' <> 0 ->
       print_mag_rate s' * Z.quot main_hz (print_mag_rate s') = main_hz /\
       10 <= Z.quot main_hz (print_mag_rate s') <= 100).
Proof.
  intros Hidle Hr.
  destruct (run_parse heading inputs s Hidle) as (s' & printed & Hrun & _ & _ & _ & Hr').
  exists s', printed. split; [exact Hrun|].
  assert (Hin : In (print_mag_rate s') valid_rates_values).
  { rewrite Hr'. now apply rate_after_valid. }
  split; [exact Hin|]. intros Hnz.
  destruct (valid_rate_period _ Hin Hnz) as (Hp & Hmul & _). split; [exact Hmul|].
  cbn [In] in Hp. lia.
Qed.

Lemma rate_stays_in_table_witness :
  input_idle (main_parsing []) /\ In (print_mag_rate (main_parsing [])) valid_rates_values /\
  exists s' printed,
    run (fun _ _ => 0) (main_parsing [])
        [(chars "$RATE,3*", zero_reading); (chars "$RATE,-7*", zero_reading)] =
      Some (s', printed) /\
    In (print_mag_rate s') [0; 1; 2; 4; 5; 10].
Proof.
  assert (H1 : input_idle (main_parsing [])).
  { unfold input_idle. vm_compute. repeat split; congruence. }
  assert (H2 : In (print_mag_rate (main_parsing [])) valid_rates_values).
  { vm_compute. tauto. }
  split; [exact H1 | split; [exact H2|]].
  destruct (rate_stays_in_table (fun _ _ => 0)
              [(chars "$RATE,3*", zero_reading); (chars "$RATE,-7*", zero_reading)]
              (main_parsing []) H1 H2) as (s' & printed & Hrun & Hin & _).
  exists s', printed. split; [exact Hrun | exact Hin].
Defined.







Lemma errors_app (a b : list (list Z * list Z)) : errors (a ++ b) = (errors a + errors b)%nat.
Proof. unfold errors. now rewrite List.filter_app, length_app. Qed.

Lemma count_err_repeat (k : nat) : count_err (repeat (lit "$ERR,1*") k) = k.
Proof.
  unfold count_err. induction k as [|k IH]; [reflexivity|].
  change (repeat (lit "$ERR,1*") (S k)) with (lit "$ERR,1*" :: repeat (lit "$ERR,1*") k).
  change (List.filter is_err (lit "$ERR,1*" :: repeat (lit "$ERR,1*") k))
    with (lit "$ERR,1*" :: List.filter is_err (repeat (lit "$ERR,1*") k)).
  cbn [length]. now rewrite IH.
Qed.

Lemma count_err_frames (bm bY : bool) (a : MagReading) (d : Z) (k : nat) :
  count_err ((if bm then [sprintf_mag a] else []) ++ (if bY then [sprintf_yaw d] else []) ++
             repeat (lit "$ERR,1*") k) = k.
Proof.
  assert (Happ : forall a b, count_err (a ++ b) = (count_err a + count_err b)%nat).
  { intros. unfold count_err. now rewrite List.filter_app, length_app. }
  rewrite !Happ, count_err_repeat. now destruct bm, bY.
Qed.

(** The [$ERR] frames of a run. *)
Lemma run_err (heading : Z -> Z -> Z) (inputs : list (list Z * MagReading)) :
  forall s : main_state,
  input_idle s ->
  exists s' printed,
    run heading s inputs = Some (s', printed) /\
    list_sum (map count_err printed) = errors (snd (feed (pstate s) (taken inputs))).
Proof.
  induction inputs as [|[received sample] inputs IH]; intros s Hidle.
  - exists s, []. split; reflexivity.
  - cbn [run]. rewrite taken_cons.
    destruct (tick_rx_view heading s received sample Hidle)
      as (s1 & p1 & -> & Hidle1 & Hps1 & _ & _ & _ & _ & _ & _ & _ & _ & _ & _ & Hp).
    destruct (IH s1 Hidle1) as (s2 & later & -> & Hsum).
    exists s2, (p1 :: later). split; [reflexivity|].
    destruct (feed_app_parts (take (Z.to_nat (INPUT_BUFF_LEN - 1)) received) (pstate s)
                (taken inputs)) as [_ ->].
    rewrite errors_app, <- Hps1, <- Hsum. cbn [map list_sum fold_right].
    rewrite Hp at 1. now rewrite count_err_frames.
Qed.

(** X24: over a run, the [$ERR] frames printed are as many as the refused
    [RATE] commands, that is those with a value outside the table, among
    the messages completed in the stream of the bytes taken. *)
Theorem refused_commands_answered (heading : Z -> Z -> Z)
    (inputs : list (list Z * MagReading)) (s : main_state) :
  input_idle s ->
  exists s' printed,
    run heading s inputs = Some (s', printed) /\
    list_sum (map count_err printed) = errors (snd (feed (pstate s) (taken inputs))).
Proof. intros Hidle. exact (run_err heading inputs s Hidle). Qed.

Lemma refused_commands_answered_witness :
  input_idle (main_parsing []) /\
  exists s' printed,
    run (fun _ _ => 0) (main_parsing [])
        [(chars "$RATE,3*", zero_reading); (chars "$RATE,5*", zero_reading);
         (chars "$RATE,x*", zero_reading); (chars "$RATE,77*", zero_reading)] =
      Some (s', printed) /\
    list_sum (map count_err printed) = 3%nat.
Proof.
  assert (H : input_idle (main_parsing [])).
  { unfold input_idle. vm_compute. repeat split; congruence. }
  split; [exact H|].
  destruct (refused_commands_answered (fun _ _ => 0)
              [(chars "$RATE,3*", zero_reading); (chars "$RATE,5*", zero_reading);
               (chars "$RATE,x*", zero_reading); (chars "$RATE,77*", zero_reading)]
              (main_parsing []) H) as (s' & printed & Hrun & Hsum).
  exists s', printed. split; [exact Hrun|]. rewrite Hsum. vm_compute. reflexivity.
Defined.

(** *** The frames as strings *)

Lemma digits_all :
  all_below (Z.to_nat 6553) (fun k => digits_in_bound (k - 3276)) = true.
Proof. vm_compute. reflexivity. Qed.

Lemma field_width_bound (axis : Axis) (v : Z) :
  - axis_limit axis <= v < axis_limit axis ->
  (1 <= field_width v <= match axis with Z_AXIS => 5 | _ => 4 end)%nat.
Proof.
  intros Hv. unfold field_width, N_MAG_READINGS.
  assert (Hl : wrap_long v = v).
  { unfold wrap_long. destruct axis; cbn [axis_limit] in Hv; Z.div_mod_to_equations; lia. }
  rewrite Hl.
  assert (Hq : - 3276 <= Z.quot v 5 <= 3276).
  { destruct axis; cbn [axis_limit] in Hv; Z.quot_rem_to_equations; lia. }
  assert (Hq' : axis <> Z_AXIS -> - 819 <= Z.quot v 5 <= 819).
  { destruct axis; try congruence; intros _; cbn [axis_limit] in Hv;
      Z.quot_rem_to_equations; lia. }
  rewrite wrap_int_id by (unfold in_int, INT_MIN, INT_MAX; lia).
  pose proof (all_below_spec _ _ digits_all (Z.quot v 5 + 3276) ltac:(lia)) as Hb.
  cbv beta in Hb. replace (Z.quot v 5 + 3276 - 3276) with (Z.quot v 5) in Hb by lia.
  unfold digits_in_bound in Hb. apply andb_prop in Hb. destruct Hb as [H1 H2].
  apply Nat.leb_le in H1, H2. split; [exact H1|].
  destruct (Z.ltb_spec (Z.abs (Z.quot v 5)) 1000) as [Hlt|Hge];
    destruct axis; try lia; specialize (Hq' ltac:(discriminate)); lia.
Qed.

Lemma sprintf_mag_length (r : MagReading) :
  length (sprintf_mag (fifth r)) =
    (9 + field_width (x r) + field_width (y r) + field_width (z r))%nat.
Proof.
  unfold sprintf_mag. rewrite !length_app.
  change (length (fmt_d (wrap_int (x (fifth r))))) with (field_width (x r)).
  change (length (fmt_d (wrap_int (y (fifth r))))) with (field_width (y r)).
  change (length (fmt_d (wrap_int (z (fifth r))))) with (field_width (z r)).
  change (length (chars "$MAG,")) with 5%nat. change (length (chars ",")) with 1%nat.
  change (length (lit "*")) with 2%nat. lia.
Qed.

(** X25: for readings as the sensor delivers them, the string [sprintf]
    forms of a [$MAG] frame has, with its NUL, between 12 and 22 bytes, and
    22 are reached: two more than [output_str] has. *)
Theorem mag_string_length :
  (forall r : MagReading, sensor_reading r ->
     (12 <= length (sprintf_mag (fifth r)) <= 22)%nat) /\
  (exists r : MagReading, sensor_reading r /\
     sprintf_mag (fifth r) = lit "$MAG,-819,-819,-3276*" /\
     OUTPUT_STR_LEN < Z.of_nat (length (sprintf_mag (fifth r)))).
Proof.
  split.
  - intros r (Hx & Hy & Hz). rewrite sprintf_mag_length.
    pose proof (field_width_bound X_AXIS _ Hx). pose proof (field_width_bound Y_AXIS _ Hy).
    pose proof (field_width_bound Z_AXIS _ Hz). cbv iota in *. lia.
  - exists (mk_MagReading (-4096) (-4096) (-16384)).
    split; [|split]; vm_compute; intuition congruence.
Qed.

(** *** How far the average lags *)

Lemma every_fourth_nth (n : nat) : forall (l : list MagReading) (j : nat) (d : MagReading),
  (length l <= n)%nat -> nth j (every_fourth l) d = nth (4 * j + 3) l d.
Proof.
  induction n as [n IH] using lt_wf_ind. intros l j d Hlen.
  destruct l as [|a [|b [|c [|s rest]]]].
  1-4: cbn [every_fourth]; rewrite !nth_overflow by (cbn [length]; lia); reflexivity.
  cbn [every_fourth]. destruct j as [|j]; [reflexivity|].
  cbn [nth]. rewrite (IH (length rest)); cbn [length] in *; try lia.
  replace (4 * S j + 3)%nat with (S (S (S (S (4 * j + 3))))) by lia. reflexivity.
Qed.

Lemma every_fourth_length (n : nat) : forall l : list MagReading,
  (length l <= n)%nat -> (4 * length (every_fourth l) <= length l < 4 * length (every_fourth l) + 4)%nat.
Proof.
  induction n as [n IH] using lt_wf_ind. intros l Hlen.
  destruct l as [|a [|b [|c [|s rest]]]]; try (cbn [every_fourth length]; lia).
  cbn [every_fourth length] in *.
  pose proof (IH (length rest) ltac:(lia) rest (le_n _)). lia.
Qed.

Lemma last_five (l : list MagReading) (d : MagReading) :
  (5 <= length l)%nat ->
  exists s1 s2 s3 s4,
    l = take (length l - 5) l ++ [nth (length l - 5) l d; s1; s2; s3; s4].
Proof.
  intros Hlen.
  assert (Hd : length (drop (length l - 5) l) = 5%nat) by (rewrite length_drop; lia).
  destruct (drop (length l - 5) l) as [|s0 [|s1 [|s2 [|s3 [|s4 [|s5 rest]]]]]] eqn:Hdrop;
    try discriminate.
  assert (Hl : l !! (length l - 5)%nat = Some s0).
  { rewrite <- (Nat.add_0_r (length l - 5)), <- lookup_drop, Hdrop. reflexivity. }
  rewrite (nth_lookup_Some _ _ d _ Hl).
  exists s1, s2, s3, s4. rewrite <- Hdrop. symmetry. apply take_drop.
Qed.

(** The average after a run of at least 20 ticks. *)
Lemma run_average (heading : Z -> Z -> Z) (inputs : list (list Z * MagReading))
    (s : main_state) :
  input_idle s -> acquire_mag_counter s = 0 -> window_ok (mag_readings s) ->
  (20 <= length inputs)%nat ->
  exists s' printed,
    run heading s inputs = Some (s', printed) /\
    avg_reading s' =
      fifth (nth (4 * (length inputs / 4) - 17) (map snd inputs) zero_reading) /\
    yaw_deg s' = heading (y (avg_reading s')) (x (avg_reading s')).
Proof.
  intros Hidle Hc Hok Hlen.
  destruct (run_acquire heading inputs s Hidle) as (s' & printed & Hrun & Ha & _ & Hy & _).
  { rewrite Hc. unfold CLOCK_ACQUIRE_MAG. lia. }
  rewrite Hc in *. rewrite (acquired_every_fourth (length inputs) inputs (le_n _)) in Ha.
  exists s', printed. split; [exact Hrun|]. split; [|apply Hy; unfold CLOCK_ACQUIRE_MAG; lia].
  pose proof (every_fourth_length _ (map snd inputs) (le_n _)) as Hl.
  rewrite length_map in Hl.
  set (acquired := every_fourth (map snd inputs)) in *.
  assert (Hm : length acquired = (length inputs / 4)%nat).
  { apply (Nat.div_unique _ 4 _ (length inputs - 4 * length acquired)); lia. }
  destruct (last_five acquired zero_reading) as (s1 & s2 & s3 & s4 & Hsplit); [lia|].
  rewrite Hsplit, acquire_all_app in Ha.
  destruct (acquire_all_ok (take (length acquired - 5) acquired) (mag_readings s)
              (avg_reading s) Hok) as (m1 & avg1 & Ha1 & Hok1).
  rewrite Ha1 in Ha.
  destruct (acquire_five m1 avg1 (nth (length acquired - 5) acquired zero_reading)
              s1 s2 s3 s4 Hok1) as (m' & Ha5 & _).
  rewrite Ha5 in Ha. injection Ha as _ <-.
  unfold acquired at 2. rewrite (every_fourth_nth _ _ _ _ (le_n _)). rewrite Hm.
  f_equal. f_equal. lia.
Qed.


(** *** The output buffer *)










(** X26: over a run of at least 20 passes that starts with the acquisition
    counter at 0, the average at the end is one fifth of one sample: the
    one read 16 passes before the latest acquisition, that is in pass
    [4 * (n / 4) - 17] of [n] (from 0); and the heading is that of this
    average. *)
Theorem average_lags (heading : Z -> Z -> Z) (inputs : list (list Z * MagReading))
    (s : main_state) :
  input_idle s -> acquire_mag_counter s = 0 -> window_ok (mag_readings s) ->
  (20 <= length inputs)%nat ->
  exists s' printed,
    run heading s inputs = Some (s', printed) /\
    avg_reading s' =
      fifth (nth (4 * (length inputs / 4) - 17) (map snd inputs) zero_reading) /\
    yaw_deg s' = heading (y (avg_reading s')) (x (avg_reading s')).
Proof. intros Hidle Hc Hok Hlen. exact (run_average heading inputs s Hidle Hc Hok Hlen). Qed.

Lemma average_lags_witness :
  input_idle (main_parsing []) /\ acquire_mag_counter (main_parsing []) = 0 /\
  window_ok (mag_readings (main_parsing [])) /\
  (20 <= length (map (fun i => ([] : list Z, mk_MagReading (Z.of_nat i * 5) 0 0)) (seq 0 22)))%nat /\
  exists s' printed,
    run (fun y x => y - x) (main_parsing [])
        (map (fun i => ([] : list Z, mk_MagReading (Z.of_nat i * 5) 0 0)) (seq 0 22)) =
      Some (s', printed) /\
    avg_reading s' = mk_MagReading 3 0 0.
Proof.
  assert (H1 : input_idle (main_parsing [])).
  { unfold input_idle. vm_compute. repeat split; congruence. }
  assert (H2 : acquire_mag_counter (main_parsing []) = 0) by reflexivity.
  assert (H3 : window_ok (mag_readings (main_parsing []))).
  { split; [vm_compute; split; congruence | reflexivity]. }
  assert (H4 : (20 <= length (map (fun i => ([] : list Z, mk_MagReading (Z.of_nat i * 5) 0 0))
                              (seq 0 22)))%nat) by (vm_compute; lia).
  split; [exact H1 | split; [exact H2 | split; [exact H3 | split; [exact H4|]]]].
  destruct (average_lags (fun y x => y - x) _ (main_parsing []) H1 H2 H3 H4)
    as (s' & printed & Hrun & Havg & _).
  exists s', printed. split; [exact Hrun|]. rewrite Havg. vm_compute. reflexivity.
Defined.



(** *** Start-up *)








End MainFlow.

(** ** The magnetometer frames in the output buffer *)

Module MagCadence.
Import Parser Ring Main ParserFacts RingFacts MainFacts RingFlow MainFlow.











End MagCadence.
